(** * RBrowserData: path resolution, prefix cache and request processing

    A shallow embedding of [gui/browserv7/src/RBrowserData.cxx]: the
    navigation state of the web browser (top element, working path, prefix
    cache, last-request memo) and the operations that act on it.

    The object is a record passed explicitly from call to call; an operation
    returns the new record next to its result.  A C++ exception and a null
    dereference are outcomes of their own ([Exc]); the record that comes with
    them is the object as the aborted call left it. *)

From Stdlib Require Import String Ascii.
From Stdlib Require Import List Bool ZArith Lia Arith.
From Stdlib Require Import Sorting.Sorted Sorting.Permutation.
Import ListNotations.

Local Open Scope string_scope.
Local Open Scope list_scope.
Local Open Scope nat_scope.

(** * The code *)

(** ** Outcomes *)

Inductive exn : Type :=
| regex_error        (* std::regex_error thrown by the std::regex constructor *)
| null_dereference.  (* operator-> on an empty shared_ptr *)

Inductive result (A : Type) : Type :=
| Ok (a : A)
| Exc (e : exn).

Arguments Ok {A} a.
Arguments Exc {A} e.

(** ** 32-bit int *)

Definition INT_MIN : Z := - 2 ^ 31.
Definition INT_MAX : Z := 2 ^ 31 - 1.

(** Two's-complement reduction of a mathematical integer to [int]. *)
Definition int_wrap (z : Z) : Z := (z + 2 ^ 31) mod 2 ^ 32 - 2 ^ 31.

Definition int_add (a b : Z) : Z := int_wrap (a + b).

(** ** Paths *)

(** [Browsable::RElementPath_t] is [std::vector<std::string>]. *)
Definition RElementPath_t : Type := list string.

Definition path_eq_dec : forall p q : RElementPath_t, {p = q} + {p <> q} :=
  list_eq_dec string_dec.

(** [operator<] of [std::vector<std::string>]: lexicographic, components
    compared as byte strings; a proper prefix is smaller than its
    extensions.  This is the key order of the [std::map] behind [fCache]. *)
Definition path_compare (p q : RElementPath_t) : comparison :=
  list_compare String.compare p q.

(** Modelled from the spec: [Browsable::RElement::ComparePaths] lives in
    RElement.cxx, which is not part of the sources at hand.  It compares
    component-wise from index 0 and returns the count of leading components
    that agree. *)
Fixpoint ComparePaths (path1 path2 : RElementPath_t) : nat :=
  match path1, path2 with
  | a :: path1', b :: path2' =>
      if String.eqb a b then S (ComparePaths path1' path2') else O
  | _, _ => O
  end.

(** ** External collaborators

    The element, iterator and item classes of namespace [Browsable] are
    abstract in the browser code;
    they are reached only through the member functions below.  A member
    function that advances an iterator returns the advanced iterator; a
    pointer result that may be null is an [option]. *)

Module Browsable.
Class Interface : Type := {
  RElement : Type;
  RLevelIter : Type;
  RItem : Type;
  (* RElement::GetChildsIter(): null when the element has no children *)
  GetChildsIter : RElement -> option RLevelIter;
  (* RLevelIter::Next(): the flag it returns and the iterator after it *)
  Next : RLevelIter -> bool * RLevelIter;
  (* RLevelIter::Find(name): [None] when it returns false, otherwise the
     iterator positioned on the child of that name *)
  Find : RLevelIter -> string -> option RLevelIter;
  (* RLevelIter::GetElement(): element of the current child, may be null *)
  GetElement : RLevelIter -> option RElement;
  (* RLevelIter::CreateItem(): item of the current child *)
  CreateItem : RLevelIter -> RItem;
  IsFolder : RItem -> bool;
  IsHidden : RItem -> bool;
  GetName : RItem -> string;
  (* RItem::Compare(b, method) *)
  Compare : RItem -> RItem -> string -> bool
}.
End Browsable.
Import Browsable.

(** The two pieces of the C++ standard library whose results the code relies
    on without fixing them: [std::regex] (construction fails on a malformed
    pattern) and [std::sort] (rearranges the range it is given). *)
Class StdLibrary (Item : Type) : Type := {
  regex_t : Type;
  regex_compile : string -> option regex_t;
  regex_match : string -> regex_t -> bool;
  std_sort : (Item -> Item -> bool) -> list Item -> list Item;
  std_sort_perm : forall cmp l, Permutation l (std_sort cmp l)
}.

(** ** Request and reply *)

Module RBrowserRequest.
Record t : Type := Build {
  path : string;      (* requested path *)
  first : Z;          (* int: first child to request *)
  number : Z;         (* int: number of childs to request, 0 - all *)
  sort : string;      (* kind of sorting *)
  reverse : bool;     (* reverse item order *)
  hidden : bool;      (* show hidden files *)
  regex : string      (* applied regex *)
}.
End RBrowserRequest.

Module RBrowserReply.
Record t (Item : Type) : Type := Build {
  path : string;
  first : Z;
  nchilds : Z;
  nodes : list Item
}.
Arguments Build {Item} _ _ _ _.
Arguments path {Item} _.
Arguments first {Item} _.
Arguments nchilds {Item} _.
Arguments nodes {Item} _.
End RBrowserReply.

(** ** The browser data object *)

Section BrowserData.

Context {B : Browsable.Interface} {L : StdLibrary RItem}.

(** The class is declared in RBrowserData.hxx, which is not among the
    sources at hand; the members are those the member functions below read
    and write, with the types their uses fix.  [fCache] is assigned through
    [fCache[subpath] = elem] with a [std::vector<std::string>] as key and
    walked with a range-for over pairs: the interface of a [std::map], whose
    entries come in ascending key order ([operator<] of the vectors), one
    per key.  It is kept here as the list of its entries in that order.
    The only assignment to the cache stores an element that has just been
    tested non-null, hence the plain [RElement] there; the other pointers
    may be null and are [option]s. *)
Record RBrowserData : Type := mkRBrowserData {
  fTopElement : option RElement;       (* top element *)
  fWorkingPath : RElementPath_t;       (* path showed in Breadcrumb *)
  fLastPath : RElementPath_t;          (* path to last used element *)
  fLastElement : option RElement;      (* last element used in request *)
  fLastItems : list RItem;             (* created browser items *)
  fLastAllChilds : bool;               (* if all chlds were extracted *)
  fLastSortedItems : list RItem;       (* sorted child items *)
  fLastSortMethod : string;            (* last sort method *)
  fLastSortReverse : bool;             (* last request reverse order *)
  fCache : list (RElementPath_t * RElement)  (* already requested elements *)
}.

(** A default-constructed object. *)
Definition RBrowserData_new : RBrowserData :=
  {| fTopElement := None; fWorkingPath := []; fLastPath := [];
     fLastElement := None; fLastItems := []; fLastAllChilds := false;
     fLastSortedItems := []; fLastSortMethod := ""; fLastSortReverse := false;
     fCache := [] |}.

Definition set_fCache (c : list (RElementPath_t * RElement)) (d : RBrowserData) : RBrowserData :=
  {| fTopElement := fTopElement d; fWorkingPath := fWorkingPath d;
     fLastPath := fLastPath d; fLastElement := fLastElement d;
     fLastItems := fLastItems d; fLastAllChilds := fLastAllChilds d;
     fLastSortedItems := fLastSortedItems d;
     fLastSortMethod := fLastSortMethod d;
     fLastSortReverse := fLastSortReverse d; fCache := c |}.

(** *** ResetLastRequest (lines 62-70) *)
Definition ResetLastRequest (d : RBrowserData) : RBrowserData :=
  {| fTopElement := fTopElement d; fWorkingPath := fWorkingPath d;
     fLastPath := []; fLastElement := None;
     fLastItems := []; fLastAllChilds := false;
     fLastSortedItems := []; fLastSortMethod := "";
     fLastSortReverse := fLastSortReverse d; fCache := fCache d |}.

(** *** DecomposePath (lines 77-102) *)

(** The [while (current != npos)] loop; [current] is [None] for [npos].
    Every round moves [previous] past one more separator, so the length of
    the string bounds the number of rounds. *)
Fixpoint decompose_loop (fuel : nat) (strpath : string) (previous : nat)
    (current : option nat) (arr : RElementPath_t) : nat * RElementPath_t :=
  match fuel, current with
  | S fuel', Some cur =>
      let arr' :=
        if previous <? cur
        then arr ++ [String.substring previous (cur - previous) strpath]
        else arr in
      let previous' := cur + 1 in
      decompose_loop fuel' strpath previous'
        (String.index previous' "/" strpath) arr'
  | _, _ => (previous, arr)
  end.

Definition DecomposePath (strpath : string) (relative_to_work_element : bool)
    (d : RBrowserData) : RElementPath_t :=
  let arr := if relative_to_work_element then fWorkingPath d else [] in
  match strpath with
  | EmptyString => arr
  | String c0 _ =>
      let previous := if Ascii.eqb c0 "/"%char then 1 else 0 in
      let current := String.index previous "/" strpath in
      let '(previous, arr) :=
        decompose_loop (S (String.length strpath)) strpath previous current arr in
      if previous <? String.length strpath
      then arr ++ [String.substring previous (String.length strpath - previous) strpath]
      else arr
  end.

(** *** SetWorkingPath, SetWorkingDirectory, SetTopElement (lines 32-57) *)

Definition SetWorkingPath (path : RElementPath_t) (d : RBrowserData) : RBrowserData :=
  ResetLastRequest
    {| fTopElement := fTopElement d; fWorkingPath := path;
       fLastPath := fLastPath d; fLastElement := fLastElement d;
       fLastItems := fLastItems d; fLastAllChilds := fLastAllChilds d;
       fLastSortedItems := fLastSortedItems d;
       fLastSortMethod := fLastSortMethod d;
       fLastSortReverse := fLastSortReverse d; fCache := fCache d |}.

Definition SetWorkingDirectory (strpath : string) (d : RBrowserData) : RBrowserData :=
  let path := DecomposePath strpath false d in
  SetWorkingPath path d.

Definition SetTopElement (elem : option RElement) (d : RBrowserData) : RBrowserData :=
  SetWorkingDirectory ""
    {| fTopElement := elem; fWorkingPath := fWorkingPath d;
       fLastPath := fLastPath d; fLastElement := fLastElement d;
       fLastItems := fLastItems d; fLastAllChilds := fLastAllChilds d;
       fLastSortedItems := fLastSortedItems d;
       fLastSortMethod := fLastSortMethod d;
       fLastSortReverse := fLastSortReverse d; fCache := fCache d |}.

(** *** GetSubElement (lines 236-267) *)

(** [fCache[subpath] = elem] on the ordered map. *)
Fixpoint cache_assign (subpath : RElementPath_t) (elem : RElement)
    (cache : list (RElementPath_t * RElement)) : list (RElementPath_t * RElement) :=
  match cache with
  | [] => [(subpath, elem)]
  | (k, v) :: cache' =>
      match path_compare subpath k with
      | Lt => (subpath, elem) :: cache
      | Eq => (subpath, elem) :: cache'
      | Gt => (k, v) :: cache_assign subpath elem cache'
      end
  end.

(** Body of the range-for over the cache (lines 245-248); the accumulator is
    the pair of locals [pos], [elem].  [pos] and [comp] are [int]s that count
    components of [path]; they stay within its size and are naturals here. *)
Definition best_entry_step (path : RElementPath_t) (acc : nat * option RElement)
    (entry : RElementPath_t * RElement) : nat * option RElement :=
  let comp := ComparePaths path (fst entry) in
  if fst acc <? comp then (comp, Some (snd entry)) else acc.

Definition best_entry (path : RElementPath_t) (top : option RElement)
    (cache : list (RElementPath_t * RElement)) : nat * option RElement :=
  fold_left (best_entry_step path) cache (0, top).

(** The [while (pos < path.size())] loop (lines 250-264).  [rest] holds the
    components [path[pos..]], so its head is [path[pos]] and the loop ends
    when it is empty. *)
Fixpoint resolve_loop (path rest : RElementPath_t) (pos : nat)
    (elem : option RElement) (cache : list (RElementPath_t * RElement))
    : result (option RElement) * list (RElementPath_t * RElement) :=
  match rest with
  | [] => (Ok elem, cache)
  | name :: rest' =>
      match elem with
      | None => (Exc null_dereference, cache)
      | Some e =>
          match GetChildsIter e with
          | None => (Ok None, cache)
          | Some iter =>
              match Find iter name with
              | None => (Ok None, cache)
              | Some iter' =>
                  match Browsable.GetElement iter' with
                  | None => (Ok None, cache)
                  | Some e' =>
                      let subpath := firstn (pos + 1) path in
                      resolve_loop path rest' (pos + 1) (Some e')
                        (cache_assign subpath e' cache)
                  end
              end
          end
      end
  end.

Definition GetSubElement (path : RElementPath_t) (d : RBrowserData)
    : result (option RElement) * RBrowserData :=
  match path with
  | [] => (Ok (fTopElement d), d)
  | _ :: _ =>
      let '(pos, elem) := best_entry path (fTopElement d) (fCache d) in
      let '(r, cache) := resolve_loop path (skipn pos path) pos elem (fCache d) in
      (r, set_fCache cache d)
  end.

(** *** GetElement, GetElementFromTop (lines 218-231) *)

Definition GetElement (str : string) (d : RBrowserData)
    : result (option RElement) * RBrowserData :=
  let path := DecomposePath str true d in
  GetSubElement path d.

Definition GetElementFromTop (path : RElementPath_t) (d : RBrowserData)
    : result (option RElement) * RBrowserData :=
  GetSubElement path d.

(** *** ProcessBrowserRequest (lines 107-197) *)

(** Lines 114-123: look the element up unless the memo holds it.  The flag is
    [false] where the code leaves with [return false]. *)
Definition resolve_request (path : RElementPath_t) (d : RBrowserData)
    : result bool * RBrowserData :=
  if negb (if path_eq_dec path (fLastPath d) then true else false)
     || (match fLastElement d with None => true | Some _ => false end)
  then
    match GetSubElement path d with
    | (Exc e, d1) => (Exc e, d1)
    | (Ok None, d1) => (Ok false, d1)
    | (Ok (Some elem), d1) =>
        let d2 := ResetLastRequest d1 in
        (Ok true,
         {| fTopElement := fTopElement d2; fWorkingPath := fWorkingPath d2;
            fLastPath := path; fLastElement := Some elem;
            fLastItems := fLastItems d2; fLastAllChilds := fLastAllChilds d2;
            fLastSortedItems := fLastSortedItems d2;
            fLastSortMethod := fLastSortMethod d2;
            fLastSortReverse := fLastSortReverse d2; fCache := fCache d2 |})
    end
  else (Ok true, d).

(** Lines 134-138: [while (iter->Next() && fLastAllChilds)].  [Next] is
    called before the flag is tested.  [id] is an [int].  The flag drops once
    [id] has passed 10000, so the loop body runs at most 10002 times and any
    [fuel] above that is never used up. *)
Fixpoint childs_loop (fuel : nat) (iter : RLevelIter) (id : Z)
    (items : list RItem) (all : bool) : list RItem * bool :=
  match fuel with
  | O => (items, all)
  | S fuel' =>
      let '(more, iter') := Next iter in
      if more && all then
        let items' := items ++ [CreateItem iter'] in
        let all' := if (id >? 10000)%Z then false else all in
        childs_loop fuel' iter' (int_add id 1) items' all'
      else (items, all)
  end.

Definition childs_fuel : nat := Z.to_nat 10003.

(** Lines 126-142: build the items when there are none. *)
Definition list_childs (d : RBrowserData) : result bool * RBrowserData :=
  match fLastItems d with
  | _ :: _ => (Ok true, d)
  | [] =>
      match fLastElement d with
      | None => (Exc null_dereference, d)
      | Some last =>
          match GetChildsIter last with
          | None => (Ok false, d)
          | Some iter =>
              let '(items, all) := childs_loop childs_fuel iter 0%Z [] true in
              (Ok true,
               {| fTopElement := fTopElement d; fWorkingPath := fWorkingPath d;
                  fLastPath := fLastPath d; fLastElement := fLastElement d;
                  fLastItems := items; fLastAllChilds := all;
                  fLastSortedItems := []; fLastSortMethod := "";
                  fLastSortReverse := fLastSortReverse d; fCache := fCache d |})
          end
      end
  end.

(** Lines 150-166: the order of the items before the reverse step. *)
Definition order_items (sort : string) (items : list RItem) : list RItem :=
  if String.eqb sort "" then
    filter IsFolder items ++ filter (fun item => negb (IsFolder item)) items
  else if negb (String.eqb sort "unsorted") then
    std_sort (fun a b => Compare a b sort) items
  else items.

(** Lines 150-169: order, then reverse on request. *)
Definition sorted_items (sort : string) (reverse : bool) (items : list RItem)
    : list RItem :=
  let sorted := order_items sort items in
  if reverse then rev sorted else sorted.

(** Lines 145-173: create the sorted array when the memo does not fit. *)
Definition sort_childs (request : RBrowserRequest.t) (d : RBrowserData) : RBrowserData :=
  if negb (length (fLastSortedItems d) =? length (fLastItems d))
     || negb (String.eqb (fLastSortMethod d) (RBrowserRequest.sort request))
     || negb (Bool.eqb (fLastSortReverse d) (RBrowserRequest.reverse request))
  then
    {| fTopElement := fTopElement d; fWorkingPath := fWorkingPath d;
       fLastPath := fLastPath d; fLastElement := fLastElement d;
       fLastItems := fLastItems d; fLastAllChilds := fLastAllChilds d;
       fLastSortedItems :=
         sorted_items (RBrowserRequest.sort request)
           (RBrowserRequest.reverse request) (fLastItems d);
       fLastSortMethod := RBrowserRequest.sort request;
       fLastSortReverse := RBrowserRequest.reverse request;
       fCache := fCache d |}
  else d.

(** Lines 177-191: the loop over the sorted items; [id] and the sum
    [request.first + request.number] are [int]s. *)
Fixpoint page_loop (request : RBrowserRequest.t) (expr : regex_t)
    (items : list RItem) (id : Z) (nodes : list RItem) : Z * list RItem :=
  match items with
  | [] => (id, nodes)
  | item :: items' =>
      if negb (RBrowserRequest.hidden request) && IsHidden item then
        page_loop request expr items' id nodes
      else if negb (String.eqb (RBrowserRequest.regex request) "")
              && negb (IsFolder item)
              && negb (regex_match (GetName item) expr) then
        page_loop request expr items' id nodes
      else
        let nodes' :=
          if (RBrowserRequest.first request <=? id)%Z
             && ((RBrowserRequest.number request =? 0)%Z
                 || (id <? int_add (RBrowserRequest.first request)
                                   (RBrowserRequest.number request))%Z)
          then nodes ++ [item] else nodes in
        page_loop request expr items' (int_add id 1) nodes'
  end.

Definition ProcessBrowserRequest (request : RBrowserRequest.t)
    (reply : RBrowserReply.t RItem) (d : RBrowserData)
    : result (bool * RBrowserReply.t RItem) * RBrowserData :=
  let path := DecomposePath (RBrowserRequest.path request) true d in
  match resolve_request path d with
  | (Exc e, d1) => (Exc e, d1)
  | (Ok false, d1) => (Ok (false, reply), d1)
  | (Ok true, d1) =>
      match list_childs d1 with
      | (Exc e, d2) => (Exc e, d2)
      | (Ok false, d2) => (Ok (false, reply), d2)
      | (Ok true, d2) =>
          let d3 := sort_childs request d2 in
          match regex_compile (RBrowserRequest.regex request) with
          | None => (Exc regex_error, d3)
          | Some expr =>
              let '(id, nodes) :=
                page_loop request expr (fLastSortedItems d3) 0%Z
                  (RBrowserReply.nodes reply) in
              (Ok (true,
                   RBrowserReply.Build (RBrowserReply.path reply)
                     (RBrowserRequest.first request) id nodes),
               d3)
          end
      end
  end.

(** *** ProcessRequest (lines 202-213), up to the JSON text of the reply *)
Definition ProcessRequest (request : RBrowserRequest.t) (d : RBrowserData)
    : result (RBrowserReply.t RItem) * RBrowserData :=
  let reply := RBrowserReply.Build (RBrowserRequest.path request) 0%Z 0%Z [] in
  match ProcessBrowserRequest request reply d with
  | (Exc e, d') => (Exc e, d')
  | (Ok (_, reply'), d') => (Ok reply', d')
  end.

End BrowserData.

(** * The vocabulary of the properties *)

Section Vocabulary.

Context {B : Browsable.Interface} {L : StdLibrary RItem}.

(** ** Resolution *)

(** One step down the tree, as the body of the loop of [GetSubElement] takes
    it: the iterator of the element, [Find] on the name, [GetElement]. *)
Definition child (e : RElement) (name : string) : option RElement :=
  match GetChildsIter e with
  | None => None
  | Some iter =>
      match Find iter name with
      | None => None
      | Some iter' => Browsable.GetElement iter'
      end
  end.

(** The element reached from [e] along the components of [p]. *)
Fixpoint walk (e : RElement) (p : RElementPath_t) : option RElement :=
  match p with
  | [] => Some e
  | name :: p' =>
      match child e name with
      | None => None
      | Some e' => walk e' p'
      end
  end.

(** What a resolution from the top element gives when nothing is cached. *)
Definition resolve_cold (top : option RElement) (path : RElementPath_t)
    : result (option RElement) :=
  match path, top with
  | [], _ => Ok top
  | _ :: _, None => Exc null_dereference
  | _ :: _, Some t => Ok (walk t path)
  end.

Definition reaches (top : option RElement) (k : RElementPath_t) (v : RElement) : Prop :=
  exists t, top = Some t /\ walk t k = Some v.

Definition entry_lt (a b : RElementPath_t * RElement) : Prop :=
  path_compare (fst a) (fst b) = Lt.

(** The cache as the code maintains it: entries in key order, every proper
    prefix of a key a key itself, every element the one its key leads to. *)
Record cache_ok (top : option RElement) (c : list (RElementPath_t * RElement)) : Prop := {
  cache_sorted : StronglySorted entry_lt c;
  cache_closed : forall k v n, In (k, v) c -> 0 < n < length k ->
                               exists v', In (firstn n k, v') c;
  cache_sound : forall k v, In (k, v) c -> reaches top k v
}.

(** What the locals [pos], [elem] hold after the entries [seen]: no entry
    seen agrees with the path on more than [pos] components, and [elem] is
    the top element ([pos = 0]) or the entry cached for [path[0..pos)]. *)
Definition scan_inv (path : RElementPath_t) (top : option RElement)
    (seen : list (RElementPath_t * RElement)) (acc : nat * option RElement) : Prop :=
  fst acc <= length path /\
  (forall k v, In (k, v) seen -> ComparePaths path k <= fst acc) /\
  ((fst acc = 0 /\ snd acc = top) \/
   (0 < fst acc /\ exists v, snd acc = Some v /\ In (firstn (fst acc) path, v) seen)).

(** ** Iterators *)

(** [children_exactly n iter] is the list of items of an iterator that
    yields [n] children and then ends. *)
Fixpoint children_exactly (n : nat) (iter : RLevelIter) : option (list RItem) :=
  let '(more, iter') := Next iter in
  match n with
  | O => if more then None else Some []
  | S n' =>
      if more then
        match children_exactly n' iter' with
        | Some l => Some (CreateItem iter' :: l)
        | None => None
        end
      else None
  end.

(** At least [n] children: the items of the first [n]. *)
Fixpoint children_first (n : nat) (iter : RLevelIter) : option (list RItem) :=
  match n with
  | O => Some []
  | S n' =>
      let '(more, iter') := Next iter in
      if more then
        match children_first n' iter' with
        | Some l => Some (CreateItem iter' :: l)
        | None => None
        end
      else None
  end.

(** ** The memo *)

(** The snapshot respects the bound of the listing loop, and the sorted
    array is the snapshot in the order of the recorded method and flag. *)
Definition memo_ok (d : RBrowserData) : Prop :=
  (Z.of_nat (length (fLastItems d)) <= 10002)%Z /\
  fLastSortedItems d =
    sorted_items (fLastSortMethod d) (fLastSortReverse d) (fLastItems d).

(** Between [list_childs] and [sort_childs] the sorted array may lag behind;
    it is then of another size than the snapshot. *)
Definition memo_presorted (d : RBrowserData) : Prop :=
  (Z.of_nat (length (fLastItems d)) <= 10002)%Z /\
  (length (fLastSortedItems d) = length (fLastItems d) ->
   fLastSortedItems d =
     sorted_items (fLastSortMethod d) (fLastSortReverse d) (fLastItems d)).

(** The six members of the last-request memo, emptied. *)
Definition memo_cleared (d : RBrowserData) : Prop :=
  fLastPath d = [] /\ fLastElement d = None /\ fLastItems d = [] /\
  fLastSortedItems d = [] /\ fLastSortMethod d = "" /\ fLastAllChilds d = false.

(** ** The page *)

(** An item is counted when neither [continue] of the loop skips it. *)
Definition item_passes (request : RBrowserRequest.t) (expr : regex_t)
    (item : RItem) : bool :=
  (RBrowserRequest.hidden request || negb (IsHidden item))
  && (String.eqb (RBrowserRequest.regex request) ""
      || IsFolder item
      || regex_match (GetName item) expr).

(** The test that guards [reply.nodes.emplace_back(item)]. *)
Definition in_window (request : RBrowserRequest.t) (id : Z) : bool :=
  (RBrowserRequest.first request <=? id)%Z
  && ((RBrowserRequest.number request =? 0)%Z
      || (id <? int_add (RBrowserRequest.first request)
                        (RBrowserRequest.number request))%Z).

(** The counted items whose number, starting at [id], is in the window. *)
Fixpoint window_from (request : RBrowserRequest.t) (id : Z)
    (visible : list RItem) : list RItem :=
  match visible with
  | [] => []
  | item :: rest =>
      (if in_window request id then [item] else [])
      ++ window_from request (id + 1) rest
  end.

(** ** Requests *)

(** The part of [ProcessBrowserRequest] before the regex is built
    (lines 112-173). *)
Definition prepare_request (request : RBrowserRequest.t) (d : RBrowserData)
    : result bool * RBrowserData :=
  match resolve_request (DecomposePath (RBrowserRequest.path request) true d) d with
  | (Exc e, d1) => (Exc e, d1)
  | (Ok false, d1) => (Ok false, d1)
  | (Ok true, d1) =>
      match list_childs d1 with
      | (Exc e, d2) => (Exc e, d2)
      | (Ok false, d2) => (Ok false, d2)
      | (Ok true, d2) => (Ok true, sort_childs request d2)
      end
  end.

(** The request with another window, and with another regex. *)
Definition with_window (first number : Z) (request : RBrowserRequest.t)
    : RBrowserRequest.t :=
  RBrowserRequest.Build (RBrowserRequest.path request) first number
    (RBrowserRequest.sort request) (RBrowserRequest.reverse request)
    (RBrowserRequest.hidden request) (RBrowserRequest.regex request).

Definition with_regex (regex : string) (request : RBrowserRequest.t)
    : RBrowserRequest.t :=
  RBrowserRequest.Build (RBrowserRequest.path request)
    (RBrowserRequest.first request) (RBrowserRequest.number request)
    (RBrowserRequest.sort request) (RBrowserRequest.reverse request)
    (RBrowserRequest.hidden request) regex.

(** ** Calls *)

(** The public member functions of [RBrowserData], with their arguments. *)
Inductive call : Type :=
| CallSetTopElement (elem : option RElement)
| CallSetWorkingDirectory (strpath : string)
| CallSetWorkingPath (path : RElementPath_t)
| CallResetLastRequest
| CallProcessBrowserRequest (request : RBrowserRequest.t) (reply : RBrowserReply.t RItem)
| CallProcessRequest (request : RBrowserRequest.t)
| CallGetElement (str : string)
| CallGetElementFromTop (path : RElementPath_t)
| CallGetSubElement (path : RElementPath_t).

(** The object after a call, whatever the call returned or threw. *)
Definition run_call (c : call) (d : RBrowserData) : RBrowserData :=
  match c with
  | CallSetTopElement elem => SetTopElement elem d
  | CallSetWorkingDirectory strpath => SetWorkingDirectory strpath d
  | CallSetWorkingPath path => SetWorkingPath path d
  | CallResetLastRequest => ResetLastRequest d
  | CallProcessBrowserRequest request reply =>
      snd (ProcessBrowserRequest request reply d)
  | CallProcessRequest request => snd (ProcessRequest request d)
  | CallGetElement str => snd (GetElement str d)
  | CallGetElementFromTop path => snd (GetElementFromTop path d)
  | CallGetSubElement path => snd (GetSubElement path d)
  end.

Definition run_calls (cs : list call) (d : RBrowserData) : RBrowserData :=
  fold_left (fun d c => run_call c d) cs d.

(** A call leaves the browsed tree alone when it does not install another
    top element. *)
Definition keeps_tree (top : option RElement) (c : call) : Prop :=
  match c with
  | CallSetTopElement elem => elem = top
  | _ => True
  end.

(** The object right after its top element has been set. *)
Definition session_start (top : option RElement) : RBrowserData :=
  SetTopElement top RBrowserData_new.

Definition session_ok (top : option RElement) (d : RBrowserData) : Prop :=
  fTopElement d = top /\ cache_ok top (fCache d).

End Vocabulary.

(** * Further vocabulary *)

(** ** Path strings *)

(** The pieces of a string between its separators, empty ones included. *)
Fixpoint segments (s : string) : list string :=
  match s with
  | EmptyString => [EmptyString]
  | String c s' =>
      if Ascii.eqb c "/" then EmptyString :: segments s'
      else
        match segments s' with
        | seg :: rest => String c seg :: rest
        | [] => [String c EmptyString]
        end
  end.

Definition nonempty (s : string) : bool := negb (String.eqb s "").

(** The non-empty pieces. *)
Definition components (s : string) : RElementPath_t := filter nonempty (segments s).

Fixpoint slash_free (s : string) : bool :=
  match s with
  | EmptyString => true
  | String c s' => negb (Ascii.eqb c "/") && slash_free s'
  end.

(** The string from position [n] on. *)
Definition drop (n : nat) (s : string) : string :=
  String.substring n (String.length s - n) s.

(** The last lines of [DecomposePath] (98-101). *)
Definition decompose_finish (strpath : string) (st : nat * RElementPath_t) : RElementPath_t :=
  let '(previous, arr) := st in
  if previous <? String.length strpath
  then arr ++ [String.substring previous (String.length strpath - previous) strpath]
  else arr.

Definition decompose_from (strpath : string) (previous : nat) (arr : RElementPath_t) :=
  decompose_finish strpath
    (decompose_loop (S (String.length strpath)) strpath previous
       (String.index previous "/" strpath) arr).

Section MoreVocabulary.

Context {B : Browsable.Interface} {L : StdLibrary RItem}.

(** ** The cache *)

(** The shape of the cache, whatever the tree behind it: entries in key
    order, every proper prefix of a key a key itself. *)
Definition cache_wf (c : list (RElementPath_t * RElement)) : Prop :=
  StronglySorted entry_lt c /\
  (forall k v n, In (k, v) c -> 0 < n < length k -> exists v', In (firstn n k, v') c).

(** No key of the cache is the empty path. *)
Definition keys_nonempty (d : RBrowserData) : Prop :=
  forall k v, In (k, v) (fCache d) -> k <> [].

(** ** The listing of an element *)

(** The raw listing of an element: what lines 128-138 build from its
    iterator, with the flag; nothing when it has no iterator. *)
Definition listing (e : RElement) : option (list RItem * bool) :=
  match GetChildsIter e with
  | Some iter => Some (childs_loop childs_fuel iter 0%Z [] true)
  | None => None
  end.

(** The memo agrees with the tree: the last element is the one the last path
    leads to, and a snapshot that is not empty is the listing of it. *)
Definition memo_sound (top : option RElement) (d : RBrowserData) : Prop :=
  (forall e, fLastElement d = Some e ->
             resolve_cold top (fLastPath d) = Ok (Some e)) /\
  (fLastItems d <> [] ->
   exists e, fLastElement d = Some e /\
             listing e = Some (fLastItems d, fLastAllChilds d)).

(** ** The page *)

(** The counted items of a request between two positions. *)
Definition slice (request : RBrowserRequest.t) (visible : list RItem) : list RItem :=
  let rest := skipn (Z.to_nat (RBrowserRequest.first request)) visible in
  if (RBrowserRequest.number request =? 0)%Z then rest
  else firstn (Z.to_nat (RBrowserRequest.number request)) rest.

End MoreVocabulary.

(** * A tree to run the code on *)

(** A node of a small file tree: name, folder flag, hidden flag, and the
    children when the node can be browsed. *)
#[warnings="-register-all"]
Inductive Node : Type :=
| node (name : string) (folder hidden : bool) (childs : option (list Node)).

Definition node_name (n : Node) : string := let 'node s _ _ _ := n in s.
Definition node_folder (n : Node) : bool := let 'node _ f _ _ := n in f.
Definition node_hidden (n : Node) : bool := let 'node _ _ h _ := n in h.
Definition node_childs (n : Node) : option (list Node) := let 'node _ _ _ c := n in c.

Definition leaf (name : string) : Node := node name false false None.

(** An iterator: the current child, if any, and the children still ahead. *)
Definition NodeIter : Type := (option Node * list Node)%type.

Definition node_next (it : NodeIter) : bool * NodeIter :=
  match snd it with
  | [] => (false, (None, []))
  | n :: rest => (true, (Some n, rest))
  end.

Fixpoint node_find (name : string) (rest : list Node) : option NodeIter :=
  match rest with
  | [] => None
  | n :: rest' =>
      if String.eqb (node_name n) name then Some (Some n, rest')
      else node_find name rest'
  end.

Definition node_item (it : NodeIter) : Node :=
  match fst it with
  | Some n => n
  | None => leaf ""
  end.

#[export] Instance NodeBrowsable : Browsable.Interface := {|
  RElement := Node;
  RLevelIter := NodeIter;
  RItem := Node;
  GetChildsIter := fun e => option_map (fun l => (None, l)) (node_childs e);
  Next := node_next;
  Find := fun it name => node_find name (snd it);
  Browsable.GetElement := fun it => fst it;
  CreateItem := node_item;
  IsFolder := node_folder;
  IsHidden := node_hidden;
  GetName := node_name;
  Compare := fun a b _ => String.ltb (node_name a) (node_name b)
|}.

(** Insertion sort stands for [std::sort]. *)
Fixpoint insert_by (cmp : Node -> Node -> bool) (x : Node) (l : list Node) : list Node :=
  match l with
  | [] => [x]
  | y :: l' => if cmp y x then y :: insert_by cmp x l' else x :: l
  end.

Definition sort_by (cmp : Node -> Node -> bool) (l : list Node) : list Node :=
  fold_right (insert_by cmp) [] l.

Lemma insert_by_perm cmp x l : Permutation (x :: l) (insert_by cmp x l).
Proof.
  induction l as [|y l IH]; simpl; [apply Permutation_refl|].
  destruct (cmp y x); [|apply Permutation_refl].
  eapply perm_trans; [apply perm_swap|]. apply perm_skip, IH.
Qed.

Lemma sort_by_perm cmp l : Permutation l (sort_by cmp l).
Proof.
  induction l as [|x l IH]; simpl; [apply perm_nil|].
  eapply perm_trans; [apply perm_skip, IH | apply insert_by_perm].
Qed.

(** A regex is kept as its pattern and matches the names equal to it; the
    lone opening parenthesis is the malformed pattern. *)
#[export] Instance NodeStdLibrary : StdLibrary Node := {|
  regex_t := string;
  regex_compile := fun s => if String.eqb s "(" then None else Some s;
  regex_match := fun name expr => String.eqb name expr;
  std_sort := sort_by;
  std_sort_perm := sort_by_perm
|}.

Definition src_inc : Node := node "inc" true false (Some [leaf "x.h"]).
Definition src : Node := node "src" true false (Some [leaf "x.c"; src_inc]).

(** The tree of the end-to-end scenario, with something below [src]. *)
Definition tree_root : Node :=
  node "" true false
    (Some [node ".git" true true (Some []); src; leaf "a.txt"; leaf "b.txt"]).

Definition top0 : option (@RElement NodeBrowsable) := Some tree_root.

Definition browser0 : RBrowserData := session_start top0.

Definition mkRequest (path sort : string) (reverse hidden : bool) (regex : string)
    (first number : Z) : RBrowserRequest.t :=
  RBrowserRequest.Build path first number sort reverse hidden regex.

Definition NodeReply : Type := RBrowserReply.t (@RItem NodeBrowsable).

Definition reply0 (request : RBrowserRequest.t) : NodeReply :=
  RBrowserReply.Build (RBrowserRequest.path request) 0%Z 0%Z [].

(** The reply and the object a run of [ProcessBrowserRequest] leaves. *)
Definition reply_of (request : RBrowserRequest.t) (d : RBrowserData) : NodeReply :=
  match fst (ProcessBrowserRequest request (reply0 request) d) with
  | Ok (_, r) => r
  | Exc _ => reply0 request
  end.

Definition after (request : RBrowserRequest.t) (d : RBrowserData) : RBrowserData :=
  snd (ProcessBrowserRequest request (reply0 request) d).

Definition names (r : NodeReply) : list string :=
  map node_name (RBrowserReply.nodes r).

(** ** Calls and requests on the tree *)

Definition demo_calls : list (@call NodeBrowsable) :=
  [CallSetTopElement top0;
   CallGetSubElement ["src"; "inc"];
   CallProcessRequest (mkRequest "src" "name" true true "" 0 0);
   CallSetWorkingDirectory "/src";
   CallGetElement "inc/x.h";
   CallSetWorkingPath []].

(** An element with 10001 children. *)
Definition crowd : list Node := repeat (leaf "f") (Z.to_nat 10001).
Definition crowded : Node := node "crowded" true false (Some crowd).
Definition crowded_top : option (@RElement NodeBrowsable) := Some crowded.

Definition crowded_browser : RBrowserData :=
  mkRBrowserData crowded_top [] [] crowded_top [] false [] "" false [].

Definition unsorted_reversed : RBrowserRequest.t :=
  mkRequest "" "unsorted" true true "" 0 0.

Definition second_and_third : RBrowserRequest.t :=
  mkRequest "" "" false true "" 1 2.

Definition negative_number : RBrowserRequest.t :=
  mkRequest "" "" false true "" 2 (-1).

Definition missing_path : RBrowserRequest.t :=
  mkRequest "zzz" "" false false "" 0 0.

Definition list_src : RBrowserRequest.t :=
  mkRequest "src" "" false false "" 0 0.

Definition malformed : RBrowserRequest.t :=
  mkRequest "src/inc" "" false false "(" 0 0.

Definition visible_text : RBrowserRequest.t :=
  mkRequest "" "name" false false "a.txt" 0 0.

(** The iterator over the children of [src], before its first [Next]. *)
Definition src_iter : @RLevelIter NodeBrowsable := (None, [leaf "x.c"; src_inc]).

(** Calls that replace the top element after the cache has been filled. *)
Definition replacing_calls : list (@call NodeBrowsable) :=
  demo_calls ++ [CallSetTopElement None; CallSetTopElement (Some src)].

(** The children of [src] by name, and by name backwards. *)
Definition by_name : RBrowserRequest.t := mkRequest "src" "name" false true "" 0 0.
Definition by_name_reversed : RBrowserRequest.t := mkRequest "src" "name" true true "" 0 0.

(** * Paths *)

(** ** Order on paths *)

Lemma ascii_compare_trans (c : comparison) (x y z : ascii) :
  Ascii.compare x y = c -> Ascii.compare y z = c -> Ascii.compare x z = c.
Proof.
  unfold Ascii.compare. destruct c; intros H1 H2.
  - apply N.compare_eq_iff in H1, H2. apply N.compare_eq_iff. congruence.
  - rewrite N.compare_lt_iff in *. lia.
  - rewrite N.compare_gt_iff in *. lia.
Qed.

Lemma string_compare_refl (s : string) : String.compare s s = Eq.
Proof.
  induction s as [|a s IH]; simpl; [reflexivity|].
  unfold Ascii.compare. rewrite N.compare_refl. exact IH.
Qed.

Lemma string_compare_eq (s1 s2 : string) : String.compare s1 s2 = Eq <-> s1 = s2.
Proof.
  split; [apply String.compare_eq_iff | intros ->; apply string_compare_refl].
Qed.

Lemma string_compare_opp (s1 s2 : string) :
  String.compare s2 s1 = CompOpp (String.compare s1 s2).
Proof. apply String.compare_antisym. Qed.

Lemma string_compare_trans (s1 s2 s3 : string) (c : comparison) :
  String.compare s1 s2 = c -> String.compare s2 s3 = c -> String.compare s1 s3 = c.
Proof.
  revert s2 s3. induction s1 as [|a1 s1 IH]; intros [|a2 s2] [|a3 s3]; simpl;
    try congruence.
  destruct (Ascii.compare a1 a2) eqn:E12; destruct (Ascii.compare a2 a3) eqn:E23;
    intros H1 H2; try congruence.
  - rewrite (ascii_compare_trans _ _ _ _ E12 E23). eauto.
  - apply Ascii.compare_eq_iff in E12. subst a2. rewrite E23. exact H2.
  - apply Ascii.compare_eq_iff in E12. subst a2. rewrite E23. exact H2.
  - apply Ascii.compare_eq_iff in E23. subst a3. rewrite E12. exact H1.
  - rewrite (ascii_compare_trans _ _ _ _ E12 E23). exact H1.
  - apply Ascii.compare_eq_iff in E23. subst a3. rewrite E12. exact H1.
  - rewrite (ascii_compare_trans _ _ _ _ E12 E23). exact H1.
Qed.

Lemma path_compare_eq (p q : RElementPath_t) : path_compare p q = Eq <-> p = q.
Proof. apply list_compare_refl, string_compare_eq. Qed.

Lemma path_compare_opp (p q : RElementPath_t) :
  path_compare q p = CompOpp (path_compare p q).
Proof.
  apply list_compare_antisym; [apply string_compare_eq | apply string_compare_opp].
Qed.

Lemma path_compare_trans (p q r : RElementPath_t) (c : comparison) :
  path_compare p q = c -> path_compare q r = c -> path_compare p r = c.
Proof.
  apply list_compare_trans.
  - apply string_compare_eq.
  - intros x y z c'. apply string_compare_trans.
  - apply string_compare_opp.
Qed.

(** A proper prefix precedes every extension of it. *)
Lemma path_compare_prefix (p : RElementPath_t) (n : nat) :
  n < length p -> path_compare (firstn n p) p = Lt.
Proof.
  revert n. induction p as [|a p IH]; intros n Hn; simpl in Hn; [lia|].
  destruct n as [|n]; [reflexivity|].
  unfold path_compare in *. simpl. rewrite string_compare_refl.
  apply IH. lia.
Qed.

(** ** Facts on [ComparePaths] *)

Lemma ComparePaths_le_l (p q : RElementPath_t) : ComparePaths p q <= length p.
Proof.
  revert q. induction p as [|a p IH]; intros [|b q]; simpl; try lia.
  destruct (String.eqb a b); simpl; [specialize (IH q)|]; lia.
Qed.

Lemma ComparePaths_le_r (p q : RElementPath_t) : ComparePaths p q <= length q.
Proof.
  revert q. induction p as [|a p IH]; intros [|b q]; simpl; try lia.
  destruct (String.eqb a b); simpl; [specialize (IH q)|]; lia.
Qed.

Lemma ComparePaths_firstn (p q : RElementPath_t) :
  firstn (ComparePaths p q) q = firstn (ComparePaths p q) p.
Proof.
  revert q. induction p as [|a p IH]; intros [|b q]; simpl; try reflexivity.
  destruct (String.eqb_spec a b); simpl; [|reflexivity].
  subst. f_equal. apply IH.
Qed.

Lemma ComparePaths_prefix (p : RElementPath_t) (n : nat) :
  n <= length p -> ComparePaths p (firstn n p) = n.
Proof.
  revert n. induction p as [|a p IH]; intros [|n] Hn; simpl in *; try lia.
  rewrite String.eqb_refl. f_equal. apply IH. lia.
Qed.

(** * Resolution through the prefix cache *)

Section Resolution.

Context {B : Browsable.Interface}.

Lemma cache_ok_nil (top : option RElement) : cache_ok top [].
Proof.
  split; [constructor | intros k v n [] | intros k v []].
Qed.

Lemma walk_app (e : RElement) (p q : RElementPath_t) :
  walk e (p ++ q) = match walk e p with Some e' => walk e' q | None => None end.
Proof.
  revert e. induction p as [|a p IH]; intros e; simpl; [reflexivity|].
  destruct (child e a); [apply IH | reflexivity].
Qed.

Lemma firstn_succ_skipn (p rest : RElementPath_t) (name : string) (pos : nat) :
  skipn pos p = name :: rest ->
  firstn (pos + 1) p = firstn pos p ++ [name] /\ skipn (pos + 1) p = rest /\
  pos < length p.
Proof.
  revert pos. induction p as [|a p IH]; intros [|pos] H; simpl in *;
    try discriminate.
  - inversion H; subst. repeat split. lia.
  - destruct (IH pos H) as (H1 & H2 & H3). rewrite H1. repeat split; auto. lia.
Qed.

(** *** Assignment to the ordered map *)

Lemma cache_assign_In_inv k v c k' v' :
  In (k', v') (cache_assign k v c) -> (k', v') = (k, v) \/ In (k', v') c.
Proof.
  induction c as [|[k0 v0] c IH]; simpl.
  - intros [H|[]]; auto.
  - destruct (path_compare k k0); simpl; intuition.
Qed.

Lemma cache_assign_In_new k v c : In (k, v) (cache_assign k v c).
Proof.
  induction c as [|[k0 v0] c IH]; simpl; auto.
  destruct (path_compare k k0); simpl; auto.
Qed.

Lemma cache_assign_In_old k v c k' v' :
  In (k', v') c -> k' <> k -> In (k', v') (cache_assign k v c).
Proof.
  induction c as [|[k0 v0] c IH]; simpl; [tauto|].
  intros [H|H] Hne.
  - inversion H; subst. destruct (path_compare k k') eqn:E; simpl; auto.
    apply path_compare_eq in E. congruence.
  - destruct (path_compare k k0); simpl; auto.
Qed.

Lemma cache_assign_sorted k v c :
  StronglySorted entry_lt c -> StronglySorted entry_lt (cache_assign k v c).
Proof.
  induction c as [|[k0 v0] c IH]; simpl; intros Hs.
  - repeat constructor.
  - inversion Hs as [|x l Hs' Hall]; subst.
    destruct (path_compare k k0) eqn:E.
    + apply path_compare_eq in E. subst k0. constructor; auto.
    + constructor; auto. constructor; [exact E|].
      rewrite Forall_forall in *. intros x Hx. specialize (Hall x Hx).
      unfold entry_lt in *. simpl in *.
      eapply path_compare_trans; eauto.
    + constructor; auto.
      rewrite Forall_forall in *. intros [k1 v1] Hx.
      apply cache_assign_In_inv in Hx. destruct Hx as [Hx|Hx].
      * inversion Hx; subst. unfold entry_lt. simpl.
        rewrite path_compare_opp, E. reflexivity.
      * apply Hall. exact Hx.
Qed.

Lemma cache_assign_ok top k v c :
  cache_ok top c ->
  (forall n, 0 < n < length k -> exists v', In (firstn n k, v') c) ->
  reaches top k v ->
  cache_ok top (cache_assign k v c).
Proof.
  intros [Hs Hc Hv] Hpre Hr. split.
  - apply cache_assign_sorted, Hs.
  - intros k1 v1 n Hin Hn.
    assert (Hold : exists v', In (firstn n k1, v') c).
    { apply cache_assign_In_inv in Hin. destruct Hin as [Hin|Hin].
      - inversion Hin; subst. apply Hpre, Hn.
      - eapply Hc; eauto. }
    destruct Hold as [v' Hv'].
    destruct (path_eq_dec (firstn n k1) k) as [Heq|Hne].
    + exists v. rewrite Heq. apply cache_assign_In_new.
    + exists v'. apply cache_assign_In_old; assumption.
  - intros k1 v1 Hin. apply cache_assign_In_inv in Hin. destruct Hin as [Hin|Hin].
    + inversion Hin; subst. exact Hr.
    + apply Hv, Hin.
Qed.

(** *** The scan for the best cached entry *)

Lemma best_entry_step_inv path top seen entry rest acc :
  StronglySorted entry_lt (entry :: rest) ->
  (forall k v n, In (k, v) (seen ++ entry :: rest) -> 0 < n < length k ->
                 exists v', In (firstn n k, v') (seen ++ entry :: rest)) ->
  scan_inv path top seen acc ->
  scan_inv path top (seen ++ [entry]) (best_entry_step path acc entry).
Proof.
  intros Hs Hc (Hle & Hmax & Hacc). destruct entry as [k v]. destruct acc as [pos elem].
  unfold best_entry_step. simpl in *.
  destruct (Nat.ltb_spec pos (ComparePaths path k)) as [Hlt|Hge].
  - (* the entry is taken: its key is the prefix of that length *)
    remember (ComparePaths path k) as c eqn:Ec.
    assert (Hpre : firstn c k = firstn c path)
      by (rewrite Ec; apply ComparePaths_firstn).
    assert (Hcl : c <= length path) by (rewrite Ec; apply ComparePaths_le_l).
    assert (Hcr : c <= length k) by (rewrite Ec; apply ComparePaths_le_r).
    assert (Hk : k = firstn c path).
    { destruct (Nat.eq_dec (length k) c) as [Hlen|Hlen].
      - rewrite <- Hpre, <- Hlen. symmetry. apply firstn_all.
      - exfalso.
        assert (Hc' : c < length k) by lia.
        destruct (Hc k v c) as [v' Hin];
          [apply in_or_app; right; left; reflexivity | lia |].
        apply in_app_or in Hin. destruct Hin as [Hin|[Hin|Hin]].
        + apply Hmax in Hin. rewrite Hpre in Hin.
          rewrite ComparePaths_prefix in Hin; lia.
        + injection Hin as Hkk _.
          apply (f_equal (@length string)) in Hkk.
          rewrite length_firstn in Hkk. lia.
        + inversion Hs as [|x l Hs' Hall].
          rewrite Forall_forall in Hall. apply Hall in Hin.
          unfold entry_lt in Hin. simpl in Hin.
          pose proof (path_compare_prefix k c Hc') as Hlt'.
          rewrite path_compare_opp, Hin in Hlt'. discriminate. }
    split; [exact Hcl|]. split; simpl.
    + intros k' v' Hin. apply in_app_or in Hin. destruct Hin as [Hin|[Hin|[]]].
      * apply Hmax in Hin. lia.
      * injection Hin as Hkk _. rewrite <- Hkk, <- Ec. lia.
    + right. split; [lia|]. exists v. split; [reflexivity|].
      apply in_or_app. right. left. rewrite <- Hk. reflexivity.
  - split; [exact Hle|]. split; simpl.
    + intros k' v' Hin. apply in_app_or in Hin. destruct Hin as [Hin|[Hin|[]]].
      * apply Hmax in Hin. exact Hin.
      * injection Hin as Hkk _. rewrite <- Hkk. exact Hge.
    + destruct Hacc as [Hacc|(Hpos & v0 & He & Hin)]; [left; exact Hacc|].
      right. split; [exact Hpos|]. exists v0. split; [exact He|].
      apply in_or_app. left. exact Hin.
Qed.

Lemma best_entry_fold path top todo seen acc :
  StronglySorted entry_lt todo ->
  (forall k v n, In (k, v) (seen ++ todo) -> 0 < n < length k ->
                 exists v', In (firstn n k, v') (seen ++ todo)) ->
  scan_inv path top seen acc ->
  scan_inv path top (seen ++ todo) (fold_left (best_entry_step path) todo acc).
Proof.
  revert seen acc. induction todo as [|entry todo IH]; intros seen acc Hs Hc Hinv.
  - simpl. rewrite app_nil_r. exact Hinv.
  - simpl.
    replace (seen ++ entry :: todo) with ((seen ++ [entry]) ++ todo) in *
      by (rewrite <- app_assoc; reflexivity).
    apply IH.
    + inversion Hs; assumption.
    + exact Hc.
    + apply best_entry_step_inv with (rest := todo); auto.
      rewrite <- app_assoc in Hc. exact Hc.
Qed.

(** The scan ends on the element of a cached prefix of the path, or on the
    top element with nothing consumed. *)
Lemma best_entry_ok path top c pos elem :
  cache_ok top c ->
  best_entry path top c = (pos, elem) ->
  pos <= length path /\
  ((pos = 0 /\ elem = top) \/
   (0 < pos /\ exists t v, top = Some t /\ elem = Some v /\
      In (firstn pos path, v) c /\ walk t (firstn pos path) = Some v)).
Proof.
  intros [Hs Hc Hv] Hbest. unfold best_entry in Hbest.
  pose proof (best_entry_fold path top c [] (0, top) Hs Hc) as H.
  simpl in H. rewrite Hbest in H.
  destruct H as (Hle & Hmax & Hacc).
  { split; [simpl; lia|]. split; [intros k v []|]. left. split; reflexivity. }
  simpl in *. split; [exact Hle|].
  destruct Hacc as [Hacc|(Hpos & v & He & Hin)]; [left; exact Hacc|].
  destruct (Hv _ _ Hin) as (t & Ht & Hw).
  right. split; [exact Hpos|]. exists t, v. auto.
Qed.

(** *** The walk down the remaining components *)

Lemma resolve_loop_ok rest : forall path pos t e c r c',
  cache_ok (Some t) c ->
  skipn pos path = rest ->
  walk t (firstn pos path) = Some e ->
  (pos = 0 \/ exists v, In (firstn pos path, v) c) ->
  resolve_loop path rest pos (Some e) c = (r, c') ->
  r = Ok (walk e rest) /\ cache_ok (Some t) c'.
Proof.
  induction rest as [|name rest IH]; intros path pos t e c r c' Hok Hskip Hw Hin Hres;
    simpl in Hres.
  - inversion Hres; subst. auto.
  - unfold child.
    destruct (GetChildsIter e) as [iter|] eqn:Eit;
      [|inversion Hres; subst; simpl; unfold child; rewrite Eit; auto].
    destruct (Find iter name) as [iter'|] eqn:Efind;
      [|inversion Hres; subst; simpl; unfold child; rewrite Eit, Efind; auto].
    destruct (Browsable.GetElement iter') as [e'|] eqn:Eget;
      [|inversion Hres; subst; simpl; unfold child; rewrite Eit, Efind, Eget; auto].
    assert (Hchild : child e name = Some e')
      by (unfold child; rewrite Eit, Efind; exact Eget).
    destruct (firstn_succ_skipn path _ _ pos Hskip) as (Hfirst & Hskip' & Hlen).
    assert (Hw' : walk t (firstn (pos + 1) path) = Some e').
    { rewrite Hfirst, walk_app, Hw. simpl. rewrite Hchild. reflexivity. }
    assert (Hlenk : length (firstn (pos + 1) path) = pos + 1)
      by (rewrite length_firstn; lia).
    assert (Hok' : cache_ok (Some t) (cache_assign (firstn (pos + 1) path) e' c)).
    { apply cache_assign_ok; [exact Hok | | exists t; auto].
      intros n Hn. rewrite Hlenk in Hn.
      rewrite firstn_firstn. replace (Nat.min n (pos + 1)) with n by lia.
      destruct (Nat.eq_dec n pos) as [->|Hne].
      - destruct Hin as [Hin|Hin]; [lia | exact Hin].
      - destruct Hin as [Hin|[v Hin]]; [lia|].
        destruct (cache_closed _ _ Hok _ _ n Hin) as [v' Hv'].
        + rewrite length_firstn. lia.
        + rewrite firstn_firstn in Hv'.
          replace (Nat.min n pos) with n in Hv' by lia. eauto. }
    destruct (IH path (pos + 1) t e' _ r c' Hok' Hskip' Hw') as [Hr Hc'].
    + right. exists e'. apply cache_assign_In_new.
    + exact Hres.
    + split; [|exact Hc']. rewrite Hr. simpl. rewrite Hchild. reflexivity.
Qed.

Lemma walk_firstn_skipn t path pos e :
  walk t (firstn pos path) = Some e -> walk e (skipn pos path) = walk t path.
Proof.
  intros Hw. rewrite <- (firstn_skipn pos path) at 2.
  rewrite walk_app, Hw. reflexivity.
Qed.

(** [GetSubElement] returns what the walk from the top element gives, and
    leaves a cache that is again in order, closed under prefixes and sound.
    Nothing but the cache changes in the object. *)
Lemma GetSubElement_ok path d r d' :
  cache_ok (fTopElement d) (fCache d) ->
  GetSubElement path d = (r, d') ->
  r = resolve_cold (fTopElement d) path /\
  cache_ok (fTopElement d) (fCache d') /\
  d' = set_fCache (fCache d') d.
Proof.
  intros Hok Hget. unfold GetSubElement in Hget.
  destruct path as [|name path'].
  { injection Hget as <- <-. repeat split; try apply Hok.
    destruct d; reflexivity. }
  set (path := name :: path') in *.
  destruct (best_entry path (fTopElement d) (fCache d)) as [pos elem] eqn:Ebest.
  destruct (resolve_loop path (skipn pos path) pos elem (fCache d)) as [r0 c0] eqn:Eloop.
  inversion Hget; subst r0 d'. simpl.
  destruct (best_entry_ok path _ _ _ _ Hok Ebest) as [Hle Hcase].
  destruct (fTopElement d) as [t|] eqn:Etop.
  - assert (Hstart : exists e, elem = Some e /\ walk t (firstn pos path) = Some e /\
                      (pos = 0 \/ exists v, In (firstn pos path, v) (fCache d))).
    { destruct Hcase as [[Hp He]|(Hp & t' & v & Ht & He & Hin & Hw)].
      - subst. exists t. auto.
      - inversion Ht; subst t'. exists v. eauto. }
    destruct Hstart as (e & He & Hw & Hin). subst elem.
    destruct (resolve_loop_ok _ path pos t e _ _ _ Hok eq_refl Hw Hin Eloop) as [Hr Hc].
    split; [|split; [exact Hc | reflexivity]].
    rewrite Hr. unfold resolve_cold, path.
    rewrite (walk_firstn_skipn t (name :: path') pos e Hw). reflexivity.
  - destruct Hcase as [[Hp He]|(Hp & t' & v & Ht & _)]; [|discriminate].
    subst. unfold path in Eloop. simpl in Eloop. inversion Eloop; subst.
    split; [reflexivity|]. split; [exact Hok | reflexivity].
Qed.

End Resolution.

(** * Path decomposition *)

Lemma index_slash_bounds (s : string) : forall n m,
  String.index n "/" s = Some m -> n <= m < String.length s.
Proof.
  induction s as [|b s IH]; intros n m; cbn [String.index String.length].
  - destruct n; discriminate.
  - destruct n as [|n].
    + destruct (String.prefix "/" (String b s)).
      * intros H; inversion H. lia.
      * destruct (String.index 0 "/" s) as [k|] eqn:E; [|discriminate].
        intros H; inversion H. apply IH in E. lia.
    + destruct (String.index n "/" s) as [k|] eqn:E; [|discriminate].
      intros H; inversion H. apply IH in E. lia.
Qed.

(** The loop of [DecomposePath] is over before its fuel is: every round
    moves [previous] past a separator of the string. *)
Lemma decompose_loop_fuel_enough (fuel : nat) : forall k strpath previous arr,
  String.length strpath < fuel + previous ->
  decompose_loop (fuel + k) strpath previous (String.index previous "/" strpath) arr
    = decompose_loop fuel strpath previous (String.index previous "/" strpath) arr.
Proof.
  induction fuel as [|fuel IH]; intros k strpath previous arr Hlen.
  - destruct (String.index previous "/" strpath) as [cur|] eqn:E.
    + apply index_slash_bounds in E. lia.
    + destruct k; reflexivity.
  - destruct (String.index previous "/" strpath) as [cur|] eqn:E; [|reflexivity].
    apply index_slash_bounds in E. cbn [Nat.add decompose_loop].
    apply IH. lia.
Qed.

(** * Listing, ordering and paging *)

Lemma int_wrap_small (z : Z) : (INT_MIN <= z <= INT_MAX)%Z -> int_wrap z = z.
Proof.
  unfold INT_MIN, INT_MAX, int_wrap. intros H.
  rewrite Z.mod_small; lia.
Qed.

Section Listing.

Context {B : Browsable.Interface} {L : StdLibrary RItem}.

(** *** The loop over the children *)

Lemma children_exactly_length n : forall iter l,
  children_exactly n iter = Some l -> length l = n.
Proof.
  induction n as [|n IH]; intros iter l; simpl; destruct (Next iter) as [[|] iter'];
    try discriminate.
  - intros H; inversion H; reflexivity.
  - destruct (children_exactly n iter') as [l'|] eqn:E; [|discriminate].
    intros H; inversion H; subst. simpl. f_equal. eapply IH; eauto.
Qed.

Lemma childs_loop_done fuel iter id items :
  childs_loop fuel iter id items false = (items, false).
Proof.
  destruct fuel as [|fuel]; simpl; [reflexivity|].
  destruct (Next iter) as [more iter']. rewrite andb_false_r. reflexivity.
Qed.

(** Up to 10001 children all go into the snapshot and the flag stays up. *)
Lemma childs_loop_exact n : forall iter l id acc fuel,
  children_exactly n iter = Some l ->
  (0 <= id)%Z -> (id + Z.of_nat n <= 10001)%Z -> n < fuel ->
  childs_loop fuel iter id acc true = (acc ++ l, true).
Proof.
  induction n as [|n IH]; intros iter l id acc fuel Hl Hid Hn Hfuel;
    (destruct fuel as [|fuel]; [lia|]); simpl in *;
    destruct (Next iter) as [[|] iter']; try discriminate; simpl.
  - inversion Hl; subst. rewrite app_nil_r. reflexivity.
  - destruct (children_exactly n iter') as [l'|] eqn:E; [|discriminate].
    inversion Hl; subst l.
    replace (id >? 10000)%Z with false by lia.
    unfold int_add. rewrite int_wrap_small by (unfold INT_MIN, INT_MAX; lia).
    rewrite (IH iter' l' (id + 1)%Z (acc ++ [CreateItem iter']) fuel E) by lia.
    rewrite <- app_assoc. reflexivity.
Qed.

(** The loop never appends more than [10002 - id] items. *)
Lemma childs_loop_bound fuel : forall iter id acc items all,
  (0 <= id <= 10001)%Z ->
  childs_loop fuel iter id acc true = (items, all) ->
  length items <= length acc + Z.to_nat (10002 - id).
Proof.
  induction fuel as [|fuel IH]; intros iter id acc items all Hid Hloop; simpl in Hloop.
  - inversion Hloop; subst. lia.
  - destruct (Next iter) as [[|] iter']; simpl in Hloop;
      [|inversion Hloop; subst; lia].
    unfold int_add in Hloop.
    rewrite int_wrap_small in Hloop by (unfold INT_MIN, INT_MAX; lia).
    destruct (id >? 10000)%Z eqn:Ecap.
    + rewrite childs_loop_done in Hloop. inversion Hloop; subst.
      rewrite length_app. cbn [length]. lia.
    + apply IH in Hloop; [|lia]. rewrite length_app in Hloop. cbn [length] in Hloop. lia.
Qed.

(** More fuel than the cap leaves room for changes nothing. *)
Lemma childs_loop_fuel_enough fuel : forall k iter id acc,
  (0 <= id <= 10001)%Z -> Z.to_nat (10003 - id) <= fuel ->
  childs_loop (fuel + k) iter id acc true = childs_loop fuel iter id acc true.
Proof.
  induction fuel as [|fuel IH]; intros k iter id acc Hid Hfuel; [lia|].
  simpl. destruct (Next iter) as [[|] iter']; simpl; [|reflexivity].
  unfold int_add. rewrite int_wrap_small by (unfold INT_MIN, INT_MAX; lia).
  destruct (id >? 10000)%Z eqn:Ecap.
  - rewrite !childs_loop_done. reflexivity.
  - apply IH; lia.
Qed.

(** *** Ordering *)

Lemma order_items_length sort items :
  length (order_items sort items) = length items.
Proof.
  unfold order_items. destruct (String.eqb sort "").
  - rewrite length_app. apply filter_length.
  - destruct (negb (String.eqb sort "unsorted")); [|reflexivity].
    symmetry. apply Permutation_length, std_sort_perm.
Qed.

Lemma sorted_items_length sort reverse items :
  length (sorted_items sort reverse items) = length items.
Proof.
  unfold sorted_items. destruct reverse; rewrite ?length_rev;
    apply order_items_length.
Qed.

Lemma sorted_items_nil sort reverse : sorted_items sort reverse [] = [].
Proof.
  pose proof (sorted_items_length sort reverse []) as H.
  destruct (sorted_items sort reverse []); [reflexivity | discriminate].
Qed.

(** *** The memo between two calls *)

Lemma memo_ok_new : memo_ok RBrowserData_new.
Proof. split; [simpl; lia | symmetry; apply sorted_items_nil]. Qed.

Lemma memo_ok_reset d : memo_ok (ResetLastRequest d).
Proof. split; [simpl; lia | symmetry; apply sorted_items_nil]. Qed.

Lemma memo_ok_set_fCache c d : memo_ok d -> memo_ok (set_fCache c d).
Proof. intros H; exact H. Qed.

Lemma GetSubElement_frame path d :
  snd (GetSubElement path d) = set_fCache (fCache (snd (GetSubElement path d))) d.
Proof.
  unfold GetSubElement. destruct path as [|name path'].
  - destruct d; reflexivity.
  - destruct (best_entry _ _ _) as [pos elem].
    destruct (resolve_loop _ _ _ _ _) as [r c]. reflexivity.
Qed.

Lemma memo_ok_GetSubElement path d :
  memo_ok d -> memo_ok (snd (GetSubElement path d)).
Proof. intros H. rewrite GetSubElement_frame. exact H. Qed.

Lemma memo_ok_resolve_request path d :
  memo_ok d -> memo_ok (snd (resolve_request path d)).
Proof.
  intros H. unfold resolve_request.
  destruct (_ || _); [|exact H].
  pose proof (memo_ok_GetSubElement path d H) as H1.
  destruct (GetSubElement path d) as [[[elem|]|e] d1]; cbn [snd] in *; try exact H1.
  split; [simpl; lia | symmetry; apply sorted_items_nil].
Qed.

Lemma memo_presorted_list_childs d :
  memo_ok d -> memo_presorted (snd (list_childs d)).
Proof.
  intros [Hlen Hsorted].
  assert (Hsame : memo_presorted d) by (split; auto).
  unfold list_childs.
  destruct (fLastItems d) as [|item items] eqn:Eitems; [|exact Hsame].
  destruct (fLastElement d) as [last|]; [|exact Hsame].
  destruct (GetChildsIter last) as [iter|]; [|exact Hsame].
  destruct (childs_loop childs_fuel iter 0 [] true) as [its all] eqn:Eloop.
  apply childs_loop_bound in Eloop; [|lia].
  split; cbn [snd fLastItems fLastSortedItems fLastSortMethod fLastSortReverse].
  - cbn [length] in Eloop. lia.
  - intros Hnil. destruct its; [|discriminate].
    symmetry. apply sorted_items_nil.
Qed.

Lemma memo_ok_sort_childs request d :
  memo_presorted d -> memo_ok (sort_childs request d).
Proof.
  intros [Hlen Hsorted]. unfold sort_childs.
  destruct (Nat.eqb_spec (length (fLastSortedItems d)) (length (fLastItems d))) as [Hsz|Hsz];
    cbn [negb orb]; [|split; auto].
  destruct (String.eqb_spec (fLastSortMethod d) (RBrowserRequest.sort request)) as [Hm|Hm];
    cbn [negb orb]; [|split; auto].
  destruct (Bool.eqb (fLastSortReverse d) (RBrowserRequest.reverse request)) eqn:Hr;
    cbn [negb orb]; split; auto.
Qed.

Lemma memo_ok_list_childs_stop d r d' :
  memo_ok d -> list_childs d = (r, d') -> r <> Ok true -> d' = d.
Proof.
  unfold list_childs. intros _.
  destruct (fLastItems d); [|intros H; inversion H; congruence].
  destruct (fLastElement d) as [last|]; [|intros H; inversion H; congruence].
  destruct (GetChildsIter last) as [iter|]; [|intros H; inversion H; congruence].
  destruct (childs_loop _ _ _ _ _). intros H; inversion H; congruence.
Qed.

(** Every outcome of [ProcessBrowserRequest] leaves the memo consistent. *)
Lemma memo_ok_ProcessBrowserRequest request reply d :
  memo_ok d -> memo_ok (snd (ProcessBrowserRequest request reply d)).
Proof.
  intros H. unfold ProcessBrowserRequest.
  pose proof (memo_ok_resolve_request
                (DecomposePath (RBrowserRequest.path request) true d) d H) as H1.
  destruct (resolve_request _ d) as [[[|]|e] d1]; cbn [snd] in *; try exact H1.
  pose proof (memo_presorted_list_childs d1 H1) as H2.
  destruct (list_childs d1) as [r2 d2] eqn:Elist.
  destruct r2 as [[|]|e]; cbn [snd] in *.
  - pose proof (memo_ok_sort_childs request d2 H2) as H3.
    destruct (regex_compile _); [|exact H3].
    destruct (page_loop _ _ _ _ _). exact H3.
  - rewrite (memo_ok_list_childs_stop d1 _ _ H1 Elist); [exact H1 | discriminate].
  - rewrite (memo_ok_list_childs_stop d1 _ _ H1 Elist); [exact H1 | discriminate].
Qed.

End Listing.

(** * The page of a reply *)

Section Paging.

Context {B : Browsable.Interface} {L : StdLibrary RItem}.

Lemma page_loop_spec request expr items : forall id nodes,
  (0 <= id)%Z -> (id + Z.of_nat (length items) <= INT_MAX)%Z ->
  page_loop request expr items id nodes =
    ((id + Z.of_nat (length (filter (item_passes request expr) items)))%Z,
     nodes ++ window_from request id (filter (item_passes request expr) items)).
Proof.
  induction items as [|item items IH]; intros id nodes Hid Hmax.
  - simpl. rewrite Z.add_0_r, app_nil_r. reflexivity.
  - cbn [page_loop filter]. cbn [length] in Hmax.
    assert (Hstep : int_add id 1 = (id + 1)%Z).
    { unfold int_add. apply int_wrap_small. unfold INT_MIN, INT_MAX in *. lia. }
    rewrite Hstep.
    remember (item_passes request expr item) as passes eqn:Epass.
    unfold item_passes in Epass.
    destruct (RBrowserRequest.hidden request); destruct (IsHidden item);
      destruct (String.eqb (RBrowserRequest.regex request) "");
      destruct (IsFolder item); destruct (regex_match (GetName item) expr);
      cbn [negb andb orb] in *; subst passes;
      try (apply IH; lia).
    all: rewrite IH by lia; cbn [length window_from]; fold (in_window request id);
      f_equal; [lia|];
      destruct (in_window request id); cbn [app];
      rewrite <- ?app_assoc; reflexivity.
Qed.

Lemma window_from_length request visible : forall id,
  Z.of_nat (length (window_from request id visible)) =
    let n := Z.of_nat (length visible) in
    let lo := Z.max id (RBrowserRequest.first request) in
    if (RBrowserRequest.number request =? 0)%Z
    then Z.max 0 (id + n - lo)
    else Z.max 0
           (Z.min (id + n)
              (int_add (RBrowserRequest.first request)
                 (RBrowserRequest.number request)) - lo).
Proof.
  induction visible as [|item rest IH]; intros id.
  - cbn [window_from length]. cbv zeta.
    destruct (RBrowserRequest.number request =? 0)%Z; lia.
  - cbn [window_from]. rewrite length_app, Nat2Z.inj_add, IH.
    cbn [length]. cbv zeta. unfold in_window.
    set (hi := int_add _ _).
    destruct (RBrowserRequest.number request =? 0)%Z;
      destruct (RBrowserRequest.first request <=? id)%Z eqn:Elo;
      cbn [andb orb]; try destruct (id <? hi)%Z eqn:Ehi; cbn [length]; lia.
Qed.

Lemma window_from_incl request visible : forall id item,
  In item (window_from request id visible) -> In item visible.
Proof.
  induction visible as [|x rest IH]; intros id item; cbn [window_from]; [tauto|].
  intros H. apply in_app_or in H. destruct H as [H|H].
  - destruct (in_window request id); [|destruct H].
    destruct H as [H|[]]. left. exact H.
  - right. eapply IH. exact H.
Qed.

Lemma window_from_all request visible : forall id,
  (RBrowserRequest.first request <= id)%Z ->
  RBrowserRequest.number request = 0%Z ->
  window_from request id visible = visible.
Proof.
  induction visible as [|x rest IH]; intros id Hlo Hnum; cbn [window_from];
    [reflexivity|].
  unfold in_window. rewrite Hnum.
  replace (RBrowserRequest.first request <=? id)%Z with true by lia.
  cbn. f_equal. apply IH; lia.
Qed.

Lemma window_from_empty request visible : forall id,
  (int_add (RBrowserRequest.first request) (RBrowserRequest.number request)
   <= RBrowserRequest.first request)%Z ->
  RBrowserRequest.number request <> 0%Z ->
  window_from request id visible = [].
Proof.
  induction visible as [|x rest IH]; intros id Hhi Hnum; cbn [window_from];
    [reflexivity|].
  rewrite IH by assumption. unfold in_window.
  destruct (RBrowserRequest.first request <=? id)%Z eqn:Elo; [|reflexivity].
  replace (RBrowserRequest.number request =? 0)%Z with false by lia.
  replace (id <? _)%Z with false by lia. reflexivity.
Qed.

(** A request that succeeds went through every phase; its reply is the
    window over the counted items of the sorted array it leaves behind. *)
Lemma ProcessBrowserRequest_true request reply d r d' :
  memo_ok d ->
  ProcessBrowserRequest request reply d = (Ok (true, r), d') ->
  exists expr,
    regex_compile (RBrowserRequest.regex request) = Some expr /\
    memo_ok d' /\
    RBrowserReply.path r = RBrowserReply.path reply /\
    RBrowserReply.first r = RBrowserRequest.first request /\
    RBrowserReply.nchilds r =
      Z.of_nat (length (filter (item_passes request expr) (fLastSortedItems d'))) /\
    RBrowserReply.nodes r =
      RBrowserReply.nodes reply
      ++ window_from request 0 (filter (item_passes request expr) (fLastSortedItems d')).
Proof.
  intros Hok Hrun.
  pose proof (memo_ok_ProcessBrowserRequest request reply d Hok) as Hok'.
  rewrite Hrun in Hok'. cbn [snd] in Hok'.
  unfold ProcessBrowserRequest in Hrun.
  destruct (resolve_request _ d) as [[[|]|e] d1]; try discriminate.
  destruct (list_childs d1) as [[[|]|e] d2]; try discriminate.
  destruct (regex_compile (RBrowserRequest.regex request)) as [expr|]; [|discriminate].
  exists expr. split; [reflexivity|].
  destruct (page_loop _ _ _ _ _) as [id nodes] eqn:Epage.
  injection Hrun as Hr Hd. subst d'.
  split; [exact Hok'|].
  rewrite page_loop_spec in Epage.
  - injection Epage as Hid Hnodes. subst r. cbn. subst. auto.
  - lia.
  - destruct Hok' as [Hlen Hsorted]. rewrite Hsorted, sorted_items_length.
    unfold INT_MAX. lia.
Qed.

End Paging.

(** * Sequences of calls on one object *)

Section Session.

Context {B : Browsable.Interface} {L : StdLibrary RItem}.

Lemma session_ok_start top : session_ok top (session_start top).
Proof. split; [reflexivity | apply cache_ok_nil]. Qed.

Lemma session_ok_GetSubElement top path d :
  session_ok top d -> session_ok top (snd (GetSubElement path d)).
Proof.
  intros [Htop Hc]. subst top.
  destruct (GetSubElement path d) as [r d'] eqn:E.
  destruct (GetSubElement_ok path d _ _ Hc E) as (_ & Hc' & Hd').
  cbn [snd]. split; [rewrite Hd'; reflexivity | exact Hc'].
Qed.

Lemma session_ok_resolve_request top path d :
  session_ok top d -> session_ok top (snd (resolve_request path d)).
Proof.
  intros H. unfold resolve_request. destruct (_ || _); [|exact H].
  pose proof (session_ok_GetSubElement top path d H) as H1.
  destruct (GetSubElement path d) as [[[elem|]|e] d1]; exact H1.
Qed.

Lemma list_childs_frame d :
  fTopElement (snd (list_childs d)) = fTopElement d /\
  fCache (snd (list_childs d)) = fCache d /\
  fLastPath (snd (list_childs d)) = fLastPath d /\
  fLastElement (snd (list_childs d)) = fLastElement d /\
  fWorkingPath (snd (list_childs d)) = fWorkingPath d.
Proof.
  unfold list_childs. destruct (fLastItems d); [|auto 6].
  destruct (fLastElement d) as [last|] eqn:E; [|cbn [snd]; auto 6].
  destruct (GetChildsIter last); [|cbn [snd]; auto 6].
  destruct (childs_loop _ _ _ _ _). cbn. auto 6.
Qed.

Lemma sort_childs_frame request d :
  fTopElement (sort_childs request d) = fTopElement d /\
  fCache (sort_childs request d) = fCache d /\
  fLastPath (sort_childs request d) = fLastPath d /\
  fLastElement (sort_childs request d) = fLastElement d /\
  fLastItems (sort_childs request d) = fLastItems d /\
  fLastAllChilds (sort_childs request d) = fLastAllChilds d /\
  fWorkingPath (sort_childs request d) = fWorkingPath d.
Proof. unfold sort_childs. destruct (_ || _); cbn; auto 8. Qed.

Lemma session_ok_ProcessBrowserRequest top request reply d :
  session_ok top d -> session_ok top (snd (ProcessBrowserRequest request reply d)).
Proof.
  intros H. unfold ProcessBrowserRequest.
  pose proof (session_ok_resolve_request top
                (DecomposePath (RBrowserRequest.path request) true d) d H) as H1.
  destruct (resolve_request _ d) as [[[|]|e] d1]; cbn [snd] in *; try exact H1.
  destruct (list_childs_frame d1) as (Ht & Hc & _).
  assert (H2 : session_ok top (snd (list_childs d1))).
  { unfold session_ok. rewrite Ht, Hc. exact H1. }
  destruct (list_childs d1) as [[[|]|e] d2]; cbn [snd] in *; try exact H2.
  destruct (sort_childs_frame request d2) as (Ht' & Hc' & _).
  assert (H3 : session_ok top (sort_childs request d2)).
  { unfold session_ok. rewrite Ht', Hc'. exact H2. }
  destruct (regex_compile _); [|exact H3].
  destruct (page_loop _ _ _ _ _). exact H3.
Qed.

(** No call that keeps the tree disturbs the cache. *)
Lemma session_ok_run_call top c d :
  keeps_tree top c -> session_ok top d -> session_ok top (run_call c d).
Proof.
  intros Hk H. destruct c; cbn [run_call keeps_tree] in *.
  - subst elem. destruct H as [_ Hc]. split; [reflexivity | exact Hc].
  - exact H.
  - exact H.
  - exact H.
  - apply session_ok_ProcessBrowserRequest, H.
  - unfold ProcessRequest.
    pose proof (session_ok_ProcessBrowserRequest top request
                  (RBrowserReply.Build (RBrowserRequest.path request) 0%Z 0%Z []) d H) as H1.
    destruct (ProcessBrowserRequest _ _ d) as [[[b r]|e] d']; exact H1.
  - apply session_ok_GetSubElement, H.
  - apply session_ok_GetSubElement, H.
  - apply session_ok_GetSubElement, H.
Qed.

Lemma session_ok_run_calls top cs : forall d,
  Forall (keeps_tree top) cs -> session_ok top d -> session_ok top (run_calls cs d).
Proof.
  induction cs as [|c cs IH]; intros d Hk H; [exact H|].
  inversion Hk; subst. cbn. apply IH; [assumption|].
  apply session_ok_run_call; assumption.
Qed.

(** The memo is consistent after every call: [memo_ok] holds of every
    object the code can be handed. *)
Lemma memo_ok_run_call c d : memo_ok d -> memo_ok (run_call c d).
Proof.
  intros H. destruct c; cbn [run_call].
  - apply memo_ok_reset.
  - apply memo_ok_reset.
  - apply memo_ok_reset.
  - apply memo_ok_reset.
  - apply memo_ok_ProcessBrowserRequest, H.
  - unfold ProcessRequest.
    pose proof (memo_ok_ProcessBrowserRequest request
                  (RBrowserReply.Build (RBrowserRequest.path request) 0%Z 0%Z []) d H) as H1.
    destruct (ProcessBrowserRequest _ _ d) as [[[b r]|e] d']; exact H1.
  - apply memo_ok_GetSubElement, H.
  - apply memo_ok_GetSubElement, H.
  - apply memo_ok_GetSubElement, H.
Qed.

Lemma memo_ok_run_calls cs : forall d, memo_ok d -> memo_ok (run_calls cs d).
Proof.
  induction cs as [|c cs IH]; intros d H; [exact H|].
  cbn. apply IH, memo_ok_run_call, H.
Qed.

(** Against an empty cache [GetSubElement] is the plain walk. *)
Lemma GetSubElement_cold path d :
  fst (GetSubElement path (set_fCache [] d)) = resolve_cold (fTopElement d) path.
Proof.
  destruct (GetSubElement path (set_fCache [] d)) as [r d'] eqn:E.
  apply GetSubElement_ok in E; [|apply cache_ok_nil].
  destruct E as [Hr _]. exact Hr.
Qed.

Lemma GetSubElement_warm top path d :
  session_ok top d -> fst (GetSubElement path d) = resolve_cold top path.
Proof.
  intros [Htop Hc]. subst top.
  destruct (GetSubElement path d) as [r d'] eqn:E.
  apply GetSubElement_ok in E; [|exact Hc].
  destruct E as [Hr _]. exact Hr.
Qed.

End Session.

(** * Properties of request processing *)

Section Requests.

Context {B : Browsable.Interface} {L : StdLibrary RItem}.

Lemma ProcessBrowserRequest_prepare request reply d :
  ProcessBrowserRequest request reply d =
    match prepare_request request d with
    | (Exc e, d') => (Exc e, d')
    | (Ok false, d') => (Ok (false, reply), d')
    | (Ok true, d3) =>
        match regex_compile (RBrowserRequest.regex request) with
        | None => (Exc regex_error, d3)
        | Some expr =>
            let '(id, nodes) :=
              page_loop request expr (fLastSortedItems d3) 0%Z
                (RBrowserReply.nodes reply) in
            (Ok (true,
                 RBrowserReply.Build (RBrowserReply.path reply)
                   (RBrowserRequest.first request) id nodes),
             d3)
        end
    end.
Proof.
  unfold ProcessBrowserRequest, prepare_request.
  destruct (resolve_request _ d) as [[[|]|e] d1]; try reflexivity.
  destruct (list_childs d1) as [[[|]|e] d2]; reflexivity.
Qed.

(** The phases before the regex read the path, the sort method and the
    reverse flag of the request, nothing else. *)
Lemma prepare_request_ext request request' d :
  RBrowserRequest.path request' = RBrowserRequest.path request ->
  RBrowserRequest.sort request' = RBrowserRequest.sort request ->
  RBrowserRequest.reverse request' = RBrowserRequest.reverse request ->
  prepare_request request' d = prepare_request request d.
Proof.
  intros Hp Hs Hr. unfold prepare_request, sort_childs. rewrite Hp, Hs, Hr.
  reflexivity.
Qed.

Lemma sort_childs_method request d :
  fLastSortMethod (sort_childs request d) = RBrowserRequest.sort request /\
  fLastSortReverse (sort_childs request d) = RBrowserRequest.reverse request.
Proof.
  unfold sort_childs.
  destruct (Nat.eqb (length (fLastSortedItems d)) (length (fLastItems d)));
    cbn [negb orb]; [|split; reflexivity].
  destruct (String.eqb_spec (fLastSortMethod d) (RBrowserRequest.sort request));
    cbn [negb orb]; [|split; reflexivity].
  destruct (Bool.eqb (fLastSortReverse d) (RBrowserRequest.reverse request)) eqn:E;
    cbn [negb orb]; [|split; reflexivity].
  apply Bool.eqb_prop in E. split; assumption.
Qed.

(** After a request that succeeds the sorted array is the snapshot in the
    order the request asks for. *)
Lemma ProcessBrowserRequest_sorted request reply d r d' :
  memo_ok d ->
  ProcessBrowserRequest request reply d = (Ok (true, r), d') ->
  fLastSortedItems d' =
    sorted_items (RBrowserRequest.sort request) (RBrowserRequest.reverse request)
      (fLastItems d').
Proof.
  intros Hok Hrun.
  pose proof (memo_ok_ProcessBrowserRequest request reply d Hok) as Hok'.
  rewrite Hrun in Hok'. cbn [snd] in Hok'. destruct Hok' as [_ Hsorted].
  rewrite ProcessBrowserRequest_prepare in Hrun. unfold prepare_request in Hrun.
  destruct (resolve_request _ d) as [[[|]|e] d1]; try discriminate.
  destruct (list_childs d1) as [[[|]|e] d2]; try discriminate.
  destruct (regex_compile _); [|discriminate].
  destruct (page_loop _ _ _ _ _). injection Hrun as _ Hd. subst d'.
  destruct (sort_childs_method request d2) as [Hm Hr].
  rewrite Hsorted, Hm, Hr. reflexivity.
Qed.

Lemma memo_cleared_ok d : memo_cleared d -> memo_ok d.
Proof.
  intros (_ & _ & Hi & Hs & _). split.
  - rewrite Hi. simpl. lia.
  - rewrite Hs, Hi. symmetry. apply sorted_items_nil.
Qed.

(** From the 10002nd child on nothing is appended, and the flag is down. *)
Lemma childs_loop_capped n : forall iter l id acc fuel,
  children_first (S n) iter = Some l ->
  (0 <= id)%Z -> (id + Z.of_nat (S n) = 10002)%Z -> S n < fuel ->
  childs_loop fuel iter id acc true = (acc ++ l, false).
Proof.
  induction n as [|n IH]; intros iter l id acc fuel Hl Hid Hn Hfuel;
    (destruct fuel as [|fuel]; [lia|]); cbn [childs_loop];
    change (children_first (S ?m) iter)
      with (let '(more, iter') := Next iter in
            if more then
              match children_first m iter' with
              | Some l => Some (CreateItem iter' :: l)
              | None => None
              end
            else None) in Hl;
    destruct (Next iter) as [[|] iter']; try discriminate; cbn [andb].
  - cbn [children_first] in Hl. inversion Hl; subst l.
    replace (id >? 10000)%Z with true by lia.
    apply childs_loop_done.
  - destruct (children_first (S n) iter') as [l'|] eqn:E; [|discriminate].
    inversion Hl; subst l.
    replace (id >? 10000)%Z with false by lia.
    unfold int_add. rewrite int_wrap_small by (unfold INT_MIN, INT_MAX; lia).
    rewrite (IH iter' l' (id + 1)%Z (acc ++ [CreateItem iter']) fuel E) by lia.
    rewrite <- app_assoc. reflexivity.
Qed.

(** ** Resolution and the cache *)

(** C1: on an object whose tree has not been replaced, resolving [P2] after
    [P1] (and after whatever was resolved before) returns exactly what
    resolving [P2] with the cache emptied returns: the cache is an
    optimisation and never changes the outcome of [GetSubElement]. *)
Theorem GetSubElement_warm_equals_cold
    (top : option RElement) (calls : list call) (P1 P2 : RElementPath_t) :
  Forall (keeps_tree top) calls ->
  let d := run_calls calls (session_start top) in
  let d1 := snd (GetSubElement P1 d) in
  fst (GetSubElement P2 d1) = fst (GetSubElement P2 (set_fCache [] d1)).
Proof.
  intros Hk d d1.
  assert (Hd : session_ok top d)
    by (apply session_ok_run_calls; [exact Hk | apply session_ok_start]).
  assert (Hd1 : session_ok top d1) by (apply session_ok_GetSubElement, Hd).
  rewrite (GetSubElement_warm top P2 d1 Hd1), GetSubElement_cold.
  destruct Hd1 as [Htop _]. rewrite Htop. reflexivity.
Qed.

(** C9: after any sequence of calls that keep the tree, every entry
    [(key, element)] of the cache holds the element that resolving [key]
    from the top element with an empty cache yields. *)
Theorem cache_entry_resolves_from_top
    (top : option RElement) (calls : list call)
    (key : RElementPath_t) (element : RElement) :
  Forall (keeps_tree top) calls ->
  In (key, element) (fCache (run_calls calls (session_start top))) ->
  fst (GetSubElement key (set_fCache [] (run_calls calls (session_start top))))
    = Ok (Some element).
Proof.
  intros Hk Hin.
  assert (Hd : session_ok top (run_calls calls (session_start top)))
    by (apply session_ok_run_calls; [exact Hk | apply session_ok_start]).
  destruct Hd as [Htop Hc].
  rewrite GetSubElement_cold, Htop.
  destruct (cache_sound _ _ Hc _ _ Hin) as (t & Ht & Hw). subst top.
  destruct key as [|name key']; cbn [resolve_cold].
  - cbn in Hw. congruence.
  - rewrite Hw. reflexivity.
Qed.

(** ** Listing *)

(** C3: an element whose iterator yields exactly 10001 children gets all
    10001 of them into the raw snapshot, and the completeness flag stays
    [true]: the flag drops only when the counter has passed 10000, which the
    10002nd child is the first to see. *)
Theorem list_childs_keeps_10001_children
    (d : RBrowserData) (last : RElement) (iter : RLevelIter) (l : list RItem) :
  fLastItems d = [] ->
  fLastElement d = Some last ->
  GetChildsIter last = Some iter ->
  children_exactly (Z.to_nat 10001) iter = Some l ->
  exists d', list_childs d = (Ok true, d') /\
             fLastItems d' = l /\ Z.of_nat (length l) = 10001%Z /\
             fLastAllChilds d' = true.
Proof.
  intros Hitems Hlast Hiter Hl.
  unfold list_childs. rewrite Hitems, Hlast, Hiter.
  rewrite (childs_loop_exact (Z.to_nat 10001) iter l 0%Z [] childs_fuel Hl);
    [| lia | lia | unfold childs_fuel; lia].
  eexists. split; [reflexivity|]. cbn [fLastItems fLastAllChilds app].
  repeat split. rewrite (children_exactly_length _ _ _ Hl). lia.
Qed.

(** ** Ordering *)

(** C4: a successful request with sort method ["unsorted"] goes
    through resolution and listing to an object [d2] whose snapshot
    [fLastItems d2] is the input of the ordering steps (lines 145-173), and
    leaves [d' = sort_childs request d2].  The snapshot itself is kept; the
    ordering steps (lines 158-166) hand it on in its exact input order.
    What is produced, [fLastSortedItems d'] and the page drawn from it, is
    the input sequence when [reverse] is false and the exact reverse of the
    input sequence when [reverse] is true: the reverse step (lines 168-169)
    does apply, so the input order is not what is produced then. *)
Theorem unsorted_keeps_input_order
    (request : RBrowserRequest.t) (reply r : RBrowserReply.t RItem)
    (d d' : RBrowserData) :
  memo_ok d ->
  RBrowserRequest.sort request = "unsorted" ->
  ProcessBrowserRequest request reply d = (Ok (true, r), d') ->
  exists d1 d2 expr,
    resolve_request (DecomposePath (RBrowserRequest.path request) true d) d
      = (Ok true, d1) /\
    list_childs d1 = (Ok true, d2) /\
    d' = sort_childs request d2 /\
    regex_compile (RBrowserRequest.regex request) = Some expr /\
    let items := fLastItems d2 in
    let produced := if RBrowserRequest.reverse request then rev items else items in
    order_items (RBrowserRequest.sort request) items = items /\
    fLastItems d' = items /\
    fLastSortedItems d' = produced /\
    RBrowserReply.nodes r =
      RBrowserReply.nodes reply
      ++ window_from request 0 (filter (item_passes request expr) produced).
Proof.
  intros Hok Hsort Hrun.
  destruct (ProcessBrowserRequest_true request reply d r d' Hok Hrun)
    as (expr & Hexpr & _ & _ & _ & _ & Hnodes).
  pose proof (ProcessBrowserRequest_sorted request reply d r d' Hok Hrun) as Hsorted.
  unfold ProcessBrowserRequest in Hrun.
  destruct (resolve_request _ d) as [[[|]|x] d1] eqn:E1; try discriminate.
  destruct (list_childs d1) as [[[|]|x] d2] eqn:E2; try discriminate.
  rewrite Hexpr in Hrun.
  destruct (page_loop request expr (fLastSortedItems (sort_childs request d2)) 0
              (RBrowserReply.nodes reply)) as [id nodes].
  injection Hrun as _ Hd.
  destruct (sort_childs_frame request d2) as (_ & _ & _ & _ & Hitems & _).
  rewrite Hd in Hitems.
  assert (Hproduced : fLastSortedItems d' =
            if RBrowserRequest.reverse request
            then rev (fLastItems d2) else fLastItems d2).
  { rewrite Hsorted, Hitems, Hsort. reflexivity. }
  exists d1, d2, expr.
  split; [reflexivity|]. split; [exact E2|]. split; [symmetry; exact Hd|].
  split; [exact Hexpr|]. cbv zeta.
  split; [rewrite Hsort; reflexivity|]. split; [exact Hitems|].
  split; [exact Hproduced|]. rewrite <- Hproduced. exact Hnodes.
Qed.

(** ** Paging *)

(** C2: for a request with [first >= 0], [number >= 0] and
    [first + number] within [int], the page has
    [min(number, max(0, nchilds - first))] items when [number > 0] and
    [max(0, nchilds - first)] when [number = 0]; and the request with any
    other window succeeds with the same [nchilds] and leaves the same
    object. *)
Theorem page_length_within_int
    (request : RBrowserRequest.t) (reply r : RBrowserReply.t RItem)
    (d d' : RBrowserData) :
  memo_ok d ->
  (0 <= RBrowserRequest.first request)%Z ->
  (0 <= RBrowserRequest.number request)%Z ->
  (RBrowserRequest.first request + RBrowserRequest.number request <= INT_MAX)%Z ->
  ProcessBrowserRequest request reply d = (Ok (true, r), d') ->
  exists page,
    RBrowserReply.nodes r = RBrowserReply.nodes reply ++ page /\
    Z.of_nat (length page) =
      (if (RBrowserRequest.number request =? 0)%Z
       then Z.max 0 (RBrowserReply.nchilds r - RBrowserRequest.first request)
       else Z.min (RBrowserRequest.number request)
              (Z.max 0 (RBrowserReply.nchilds r - RBrowserRequest.first request)))%Z /\
    forall first' number', exists r',
      ProcessBrowserRequest (with_window first' number' request) reply d
        = (Ok (true, r'), d') /\
      RBrowserReply.nchilds r' = RBrowserReply.nchilds r.
Proof.
  intros Hok Hfirst Hnumber Hsum Hrun.
  destruct (ProcessBrowserRequest_true request reply d r d' Hok Hrun)
    as (expr & Hexpr & Hok' & _ & _ & Hn & Hnodes).
  eexists. split; [exact Hnodes|]. split.
  - rewrite window_from_length. cbv zeta. rewrite <- Hn.
    unfold int_add. rewrite int_wrap_small by (unfold INT_MIN, INT_MAX in *; lia).
    destruct (RBrowserRequest.number request =? 0)%Z eqn:E; lia.
  - intros first' number'.
    rewrite ProcessBrowserRequest_prepare in Hrun |- *.
    rewrite (prepare_request_ext request (with_window first' number' request) d)
      by reflexivity.
    destruct (prepare_request request d) as [[[|]|e] d3]; try discriminate.
    cbn [with_window RBrowserRequest.regex]. rewrite Hexpr in Hrun |- *.
    destruct (page_loop request _ _ _ _) as [id nodes] eqn:Epage.
    injection Hrun as Hr Hd. subst d3.
    destruct Hok' as [Hlen Hsorted].
    assert (Hfit : (0 + Z.of_nat (length (fLastSortedItems d')) <= INT_MAX)%Z).
    { rewrite Hsorted, sorted_items_length. unfold INT_MAX. lia. }
    rewrite page_loop_spec by (lia || exact Hfit).
    eexists. split; [reflexivity|].
    cbn [RBrowserReply.nchilds]. rewrite Hn. reflexivity.
Qed.

(** C5: a request with a negative [number] (the sum [first + number] not
    below the least [int]) gets an empty page. *)
Theorem negative_number_empty_page
    (request : RBrowserRequest.t) (reply r : RBrowserReply.t RItem)
    (d d' : RBrowserData) :
  memo_ok d ->
  (RBrowserRequest.number request < 0)%Z ->
  (RBrowserRequest.first request <= INT_MAX)%Z ->
  (INT_MIN <= RBrowserRequest.first request + RBrowserRequest.number request)%Z ->
  ProcessBrowserRequest request reply d = (Ok (true, r), d') ->
  RBrowserReply.nodes r = RBrowserReply.nodes reply.
Proof.
  intros Hok Hnumber Hfirst Hsum Hrun.
  destruct (ProcessBrowserRequest_true request reply d r d' Hok Hrun)
    as (expr & _ & _ & _ & _ & _ & Hnodes).
  rewrite Hnodes, window_from_empty; [apply app_nil_r | | lia].
  unfold int_add. rewrite int_wrap_small; lia.
Qed.

(** C8: the page and the count [nchilds] are made of the items that pass
    both tests of the loop; an item that is hidden never passes while
    [request.hidden] is false, whatever the regex and the sort method are,
    and for a folder the regex has no say. *)
Theorem hidden_excluded_folder_exempt
    (request : RBrowserRequest.t) (reply r : RBrowserReply.t RItem)
    (d d' : RBrowserData) :
  memo_ok d ->
  ProcessBrowserRequest request reply d = (Ok (true, r), d') ->
  exists expr page,
    regex_compile (RBrowserRequest.regex request) = Some expr /\
    RBrowserReply.nodes r = RBrowserReply.nodes reply ++ page /\
    RBrowserReply.nchilds r =
      Z.of_nat (length (filter (item_passes request expr) (fLastSortedItems d'))) /\
    (forall item, In item page ->
       In item (fLastSortedItems d') /\ item_passes request expr item = true) /\
    ((RBrowserRequest.first request <= 0)%Z ->
     RBrowserRequest.number request = 0%Z ->
     page = filter (item_passes request expr) (fLastSortedItems d')) /\
    (forall item, RBrowserRequest.hidden request = false ->
       IsHidden item = true -> item_passes request expr item = false) /\
    (forall item, IsFolder item = true ->
       item_passes request expr item =
         (RBrowserRequest.hidden request || negb (IsHidden item))).
Proof.
  intros Hok Hrun.
  destruct (ProcessBrowserRequest_true request reply d r d' Hok Hrun)
    as (expr & Hexpr & _ & _ & _ & Hn & Hnodes).
  exists expr. eexists. split; [exact Hexpr|]. split; [exact Hnodes|].
  split; [exact Hn|]. split; [|split; [|split]].
  - intros item Hin. apply window_from_incl in Hin.
    apply filter_In in Hin. exact Hin.
  - intros Hfirst Hnumber. apply window_from_all; assumption.
  - intros item Hh Hhid. unfold item_passes. rewrite Hh, Hhid. reflexivity.
  - intros item Hf. unfold item_passes. rewrite Hf.
    rewrite orb_true_r, andb_true_r. reflexivity.
Qed.

(** ** The memo *)

Lemma resolve_request_mismatch path d :
  path <> fLastPath d \/ fLastElement d = None ->
  resolve_request path d =
    match GetSubElement path d with
    | (Exc e, d1) => (Exc e, d1)
    | (Ok None, d1) => (Ok false, d1)
    | (Ok (Some elem), d1) =>
        (Ok true,
         {| fTopElement := fTopElement d1; fWorkingPath := fWorkingPath d1;
            fLastPath := path; fLastElement := Some elem;
            fLastItems := []; fLastAllChilds := false;
            fLastSortedItems := []; fLastSortMethod := "";
            fLastSortReverse := fLastSortReverse d1; fCache := fCache d1 |})
    end.
Proof.
  intros H. unfold resolve_request.
  replace (negb (if path_eq_dec path (fLastPath d) then true else false)
           || match fLastElement d with None => true | Some _ => false end)
    with true; [reflexivity|].
  destruct H as [H|H].
  - destruct (path_eq_dec path (fLastPath d)); [contradiction | reflexivity].
  - rewrite H. symmetry. apply orb_true_r.
Qed.

(** A request whose path is not the memoized one and resolves: the memo is
    emptied, set to the new path and element, and the listing is built from
    that element. *)
Lemma ProcessBrowserRequest_resolved request reply d elem d1 :
  let path := DecomposePath (RBrowserRequest.path request) true d in
  path <> fLastPath d \/ fLastElement d = None ->
  GetSubElement path d = (Ok (Some elem), d1) ->
  let out := ProcessBrowserRequest request reply d in
  fLastPath (snd out) = path /\ fLastElement (snd out) = Some elem /\
  match GetChildsIter elem with
  | None =>
      fst out = Ok (false, reply) /\
      fLastItems (snd out) = [] /\ fLastSortedItems (snd out) = [] /\
      fLastSortMethod (snd out) = "" /\ fLastAllChilds (snd out) = false
  | Some iter =>
      (fLastItems (snd out), fLastAllChilds (snd out))
        = childs_loop childs_fuel iter 0%Z [] true
  end.
Proof.
  intros path Hmis Hget. unfold ProcessBrowserRequest. fold path.
  rewrite (resolve_request_mismatch path d Hmis), Hget.
  unfold list_childs. cbn [fLastItems fLastElement].
  destruct (GetChildsIter elem) as [iter|]; [|cbn; repeat split; reflexivity].
  destruct (childs_loop childs_fuel iter 0 [] true) as [items all].
  match goal with
  | |- context [sort_childs request ?d2] =>
      destruct (sort_childs_frame request d2) as (_ & _ & Hp & He & Hi & Ha & _);
      assert (Hgoal :
        fLastPath (sort_childs request d2) = path /\
        fLastElement (sort_childs request d2) = Some elem /\
        (fLastItems (sort_childs request d2),
         fLastAllChilds (sort_childs request d2)) = (items, all))
        by (rewrite Hp, He, Hi, Ha; cbn; auto)
  end.
  destruct (regex_compile _); [destruct (page_loop _ _ _ _ _)|]; exact Hgoal.
Qed.


(** C7: a request with a malformed regex never succeeds, and when the same
    request with a well-formed regex would succeed, the malformed one throws
    the regex error, out of [ProcessBrowserRequest] and out of
    [ProcessRequest], with the object updated exactly as the well-formed
    request updates it: the regex is built after resolution, listing and
    ordering have written the cache and the memo. *)
Theorem malformed_regex_after_update
    (request : RBrowserRequest.t) (reply : RBrowserReply.t RItem)
    (d : RBrowserData) :
  regex_compile (RBrowserRequest.regex request) = None ->
  (forall r d', ProcessBrowserRequest request reply d <> (Ok (true, r), d')) /\
  (forall regex' reply' r' d',
     ProcessBrowserRequest (with_regex regex' request) reply' d = (Ok (true, r'), d') ->
     ProcessBrowserRequest request reply d = (Exc regex_error, d') /\
     ProcessRequest request d = (Exc regex_error, d')).
Proof.
  intros Hbad. split.
  - intros r d' Hrun. rewrite ProcessBrowserRequest_prepare, Hbad in Hrun.
    destruct (prepare_request request d) as [[[|]|e] d3]; discriminate.
  - intros regex' reply' r' d' Hgood.
    rewrite ProcessBrowserRequest_prepare in Hgood.
    rewrite (prepare_request_ext request (with_regex regex' request) d) in Hgood
      by reflexivity.
    unfold ProcessRequest. rewrite !ProcessBrowserRequest_prepare, Hbad.
    destruct (prepare_request request d) as [[[|]|e] d3]; try discriminate.
    destruct (regex_compile (RBrowserRequest.regex (with_regex regex' request)))
      as [expr|]; [|discriminate].
    destruct (page_loop (with_regex regex' request) expr (fLastSortedItems d3) 0
                (RBrowserReply.nodes reply')).
    injection Hgood as _ Hd. subst d3.
    split; reflexivity.
Qed.

(** C10: [SetTopElement], [SetWorkingDirectory] and [SetWorkingPath] each
    leave the last path, the last element, the raw snapshot, the sorted
    array, the sort method and the completeness flag empty; and a request
    that then succeeds has resolved its element anew, has built the
    snapshot from that element's iterator and has ordered that snapshot. *)
Theorem setters_clear_memo :
  (forall elem d, memo_cleared (SetTopElement elem d)) /\
  (forall strpath d, memo_cleared (SetWorkingDirectory strpath d)) /\
  (forall path d, memo_cleared (SetWorkingPath path d)) /\
  (forall request reply d r d',
     memo_cleared d ->
     ProcessBrowserRequest request reply d = (Ok (true, r), d') ->
     exists elem iter,
       fst (GetSubElement (DecomposePath (RBrowserRequest.path request) true d) d)
         = Ok (Some elem) /\
       GetChildsIter elem = Some iter /\
       fLastElement d' = Some elem /\
       (fLastItems d', fLastAllChilds d') = childs_loop childs_fuel iter 0%Z [] true /\
       fLastSortedItems d' =
         sorted_items (RBrowserRequest.sort request)
           (RBrowserRequest.reverse request) (fLastItems d')).
Proof.
  split; [|split; [|split]]; try (intros; repeat split; reflexivity).
  intros request reply d r d' Hclear Hrun.
  pose proof (ProcessBrowserRequest_sorted request reply d r d'
                (memo_cleared_ok d Hclear) Hrun) as Hsorted.
  destruct Hclear as (_ & Hnone & _).
  assert (Hmis : DecomposePath (RBrowserRequest.path request) true d <> fLastPath d
                 \/ fLastElement d = None) by (right; exact Hnone).
  destruct (GetSubElement (DecomposePath (RBrowserRequest.path request) true d) d)
    as [[[elem|]|e] d1] eqn:Eget; cbn [fst].
  - destruct (ProcessBrowserRequest_resolved request reply d elem d1 Hmis Eget)
      as (_ & He & Hlist).
    rewrite Hrun in He, Hlist. cbn [fst snd] in He, Hlist.
    destruct (GetChildsIter elem) as [iter|] eqn:Eiter.
    + exists elem, iter. auto.
    + destruct Hlist as [Hfalse _]. discriminate.
  - exfalso. unfold ProcessBrowserRequest in Hrun.
    rewrite (resolve_request_mismatch _ d Hmis), Eget in Hrun. discriminate.
  - exfalso. unfold ProcessBrowserRequest in Hrun.
    rewrite (resolve_request_mismatch _ d Hmis), Eget in Hrun. discriminate.
Qed.

End Requests.

(** * Path strings and [DecomposePath] *)

Transparent String.prefix.

Lemma index_shift n c s :
  String.index (S n) "/" (String c s) = option_map S (String.index n "/" s).
Proof. cbn [String.index]. destruct (String.index n "/" s); reflexivity. Qed.

Lemma substring_shift n m c s :
  String.substring (S n) m (String c s) = String.substring n m s.
Proof. reflexivity. Qed.

Lemma prefix_slash c s : String.prefix "/" (String c s) = Ascii.eqb "/" c.
Proof.
  cbn [String.prefix].
  destruct (Ascii.ascii_dec "/" c) as [E|E].
  - subst. rewrite Ascii.eqb_refl. destruct s; reflexivity.
  - symmetry. apply Ascii.eqb_neq. exact E.
Qed.

Lemma index0_cons c s :
  String.index 0 "/" (String c s) =
    if Ascii.eqb c "/" then Some 0 else option_map S (String.index 0 "/" s).
Proof.
  cbn [String.index]. rewrite prefix_slash, Ascii.eqb_sym.
  destruct (Ascii.eqb c "/"); [reflexivity|].
  destruct (String.index 0 "/" s); reflexivity.
Qed.

Lemma decompose_loop_shift fuel : forall c s p cur arr,
  decompose_loop fuel (String c s) (S p) (option_map S cur) arr =
    let '(p', arr') := decompose_loop fuel s p cur arr in (S p', arr').
Proof.
  induction fuel as [|fuel IH]; intros c s p cur arr.
  - destruct cur; reflexivity.
  - destruct cur as [cur|]; [|reflexivity].
    cbn [option_map decompose_loop].
    change (S cur + 1) with (S (cur + 1)). rewrite index_shift, IH.
    change (S p <? S cur) with (p <? cur).
    change (S cur - S p) with (cur - p). rewrite substring_shift. reflexivity.
Qed.

Lemma decompose_from_shift c s p arr :
  decompose_from (String c s) (S p) arr = decompose_from s p arr.
Proof.
  unfold decompose_from. cbn [String.length].
  pose proof (decompose_loop_fuel_enough (S (String.length s)) 1 (String c s) (S p) arr) as H.
  replace (S (String.length s) + 1) with (S (S (String.length s))) in H by lia.
  rewrite H by (cbn [String.length]; lia).
  rewrite index_shift, decompose_loop_shift.
  destruct (decompose_loop _ s p _ arr) as [p' arr'].
  unfold decompose_finish. cbn [String.length].
  change (S p' <? S (String.length s)) with (p' <? String.length s).
  change (S (String.length s) - S p') with (String.length s - p').
  rewrite substring_shift. reflexivity.
Qed.

Lemma drop_shift c s p : drop (S p) (String c s) = drop p s.
Proof. reflexivity. Qed.

Lemma drop_0 s : drop 0 s = s.
Proof.
  unfold drop. rewrite Nat.sub_0_r.
  induction s as [|c s IH]; [reflexivity|]. cbn. f_equal. exact IH.
Qed.

Lemma decompose_from_drop p : forall s arr,
  p <= String.length s ->
  decompose_from s p arr = decompose_from (drop p s) 0 arr.
Proof.
  induction p as [|p IH]; intros s arr Hp.
  - rewrite drop_0. reflexivity.
  - destruct s as [|c s]; [cbn in Hp; lia|].
    rewrite decompose_from_shift, drop_shift. apply IH. cbn in Hp. lia.
Qed.

Lemma length_drop p : forall s, p <= String.length s ->
  String.length (drop p s) = String.length s - p.
Proof.
  induction p as [|p IH]; intros s Hp.
  - rewrite drop_0. lia.
  - destruct s as [|c s]; [cbn in Hp; lia|].
    rewrite drop_shift. cbn [String.length]. apply IH. cbn in Hp. lia.
Qed.

Lemma segments_not_nil s : segments s <> [].
Proof.
  destruct s as [|c s]; cbn; [discriminate|].
  destruct (Ascii.eqb c "/"); [discriminate|].
  destruct (segments s); discriminate.
Qed.

Lemma substring_0_all s : String.substring 0 (String.length s) s = s.
Proof. induction s as [|c s IH]; [reflexivity|]. cbn. f_equal. exact IH. Qed.

(** No separator: one segment, the string. *)
Lemma segments_no_slash s :
  String.index 0 "/" s = None -> segments s = [s].
Proof.
  induction s as [|c s IH]; [reflexivity|].
  rewrite index0_cons. cbn [segments].
  destruct (Ascii.eqb c "/"); [discriminate|].
  destruct (String.index 0 "/" s); [discriminate|].
  intros _. rewrite IH by reflexivity. reflexivity.
Qed.

(** A first separator at [k]: the segment before it, then the segments of
    what follows it. *)
Lemma segments_first_slash s : forall k,
  String.index 0 "/" s = Some k ->
  segments s = String.substring 0 k s :: segments (drop (k + 1) s).
Proof.
  induction s as [|c s IH]; intros k; [discriminate|].
  rewrite index0_cons. cbn [segments].
  destruct (Ascii.eqb c "/").
  - intros H. injection H as <-. cbn [Nat.add]. rewrite drop_shift, drop_0.
    reflexivity.
  - destruct (String.index 0 "/" s) as [k'|]; [|discriminate].
    intros H. injection H as <-. rewrite (IH k' eq_refl).
    cbn [Nat.add]. rewrite drop_shift. reflexivity.
Qed.

Lemma length_substring_0 k : forall s, k <= String.length s ->
  String.length (String.substring 0 k s) = k.
Proof.
  induction k as [|k IH]; intros s Hk.
  - destruct s; reflexivity.
  - destruct s as [|c s]; [cbn in Hk; lia|].
    cbn. f_equal. apply IH. cbn in Hk. lia.
Qed.

Lemma nonempty_length s : nonempty s = (0 <? String.length s).
Proof. destruct s; reflexivity. Qed.

(** The loop and the last lines of [DecomposePath], from position 0 of any
    string: the components of the string are appended. *)
Lemma decompose_from_components n : forall s arr,
  String.length s <= n ->
  decompose_from s 0 arr = arr ++ components s.
Proof.
  induction n as [|n IH]; intros s arr Hn.
  - destruct s; [|cbn in Hn; lia]. cbn. rewrite app_nil_r. reflexivity.
  - unfold decompose_from.
    destruct (String.index 0 "/" s) as [k|] eqn:E.
    + pose proof (index_slash_bounds s 0 k E) as Hk.
      cbn [decompose_loop]. cbv beta zeta.
      match goal with
      | |- decompose_finish s (decompose_loop _ s _ _ ?a) = _ => set (arr' := a)
      end.
      pose proof (decompose_loop_fuel_enough (String.length s) 1 s (k + 1) arr') as Hf.
      replace (String.length s + 1) with (S (String.length s)) in Hf by lia.
      rewrite <- Hf by lia. fold (decompose_from s (k + 1) arr').
      rewrite decompose_from_drop by lia.
      rewrite IH by (rewrite length_drop; lia).
      unfold components. rewrite (segments_first_slash s k E). cbn [filter].
      rewrite nonempty_length, length_substring_0 by lia.
      unfold arr'. rewrite Nat.sub_0_r.
      destruct (0 <? k); [rewrite <- app_assoc|]; reflexivity.
    + cbn [decompose_loop decompose_finish].
      unfold components. rewrite (segments_no_slash s E). cbn [filter].
      rewrite nonempty_length, Nat.sub_0_r, substring_0_all.
      destruct (0 <? String.length s); [reflexivity|]. rewrite app_nil_r. reflexivity.
Qed.

Lemma DecomposePath_components_raw {B : Browsable.Interface} strpath rel (d : RBrowserData) :
  DecomposePath strpath rel d =
    (if rel then fWorkingPath d else []) ++ components strpath.
Proof.
  unfold DecomposePath. destruct strpath as [|c0 s].
  - cbn. rewrite app_nil_r. reflexivity.
  - set (arr := if rel then fWorkingPath d else []).
    match goal with
    | |- (let '(previous, arr0) := ?loop in _) = _ =>
        change (decompose_finish (String c0 s) loop = arr ++ components (String c0 s))
    end.
    destruct (Ascii.eqb c0 "/") eqn:Ec.
    + fold (decompose_from (String c0 s) 1 arr).
      rewrite decompose_from_shift.
      rewrite (decompose_from_components (String.length s)) by lia.
      unfold components. cbn [segments]. rewrite Ec. reflexivity.
    + fold (decompose_from (String c0 s) 0 arr).
      apply (decompose_from_components (String.length (String c0 s))). lia.
Qed.

Lemma segments_slash_free s : Forall (fun seg => slash_free seg = true) (segments s).
Proof.
  induction s as [|c s IH]; cbn [segments]; [repeat constructor|].
  destruct (Ascii.eqb c "/") eqn:Ec; [constructor; [reflexivity | exact IH]|].
  destruct (segments s) as [|seg rest].
  - repeat constructor. cbn. rewrite Ec. reflexivity.
  - inversion IH; subst. constructor; [|assumption].
    cbn. rewrite Ec. assumption.
Qed.

Lemma segments_app_slash a b :
  segments (String.append a (String "/" b)) = segments a ++ segments b.
Proof.
  induction a as [|c a IH]; [reflexivity|].
  cbn [String.append segments]. rewrite IH.
  destruct (Ascii.eqb c "/"); [reflexivity|].
  pose proof (segments_not_nil a) as Hne.
  destruct (segments a); [contradiction | reflexivity].
Qed.

Lemma segments_of_slash_free s : slash_free s = true -> segments s = [s].
Proof.
  induction s as [|c s IH]; [reflexivity|].
  cbn. destruct (Ascii.eqb c "/"); [discriminate|]. cbn.
  intros H. rewrite (IH H). reflexivity.
Qed.

Lemma segments_concat path :
  path <> [] -> Forall (fun c => slash_free c = true) path ->
  segments (String.concat "/" path) = path.
Proof.
  induction path as [|c path IH]; [contradiction|].
  intros _ Hclean. inversion Hclean as [|x l Hc Hrest]; subst.
  destruct path as [|c' path'].
  - cbn. apply segments_of_slash_free, Hc.
  - change (String.concat "/" (c :: c' :: path'))
      with (String.append c (String "/" (String.concat "/" (c' :: path')))).
    rewrite segments_app_slash, segments_of_slash_free by assumption.
    rewrite IH by (try discriminate; assumption). reflexivity.
Qed.

(** The components of a string are clean: not empty, no separator. *)
Lemma components_clean s :
  Forall (fun c => c <> "" /\ slash_free c = true) (components s).
Proof.
  unfold components.
  apply Forall_forall. intros c Hin. apply filter_In in Hin. destruct Hin as [Hin Hne].
  split.
  - intros ->. discriminate.
  - pose proof (segments_slash_free s) as H. rewrite Forall_forall in H.
    apply H, Hin.
Qed.

(** Clean components joined by separators are found again. *)
Lemma components_concat path :
  Forall (fun c => c <> "" /\ slash_free c = true) path ->
  components (String.concat "/" path) = path.
Proof.
  intros Hclean.
  unfold components. destruct path as [|c path']; [reflexivity|].
  rewrite segments_concat.
  - apply forallb_filter_id. apply forallb_forall. intros x Hx.
    rewrite Forall_forall in Hclean. destruct (Hclean x Hx) as [Hne _].
    destruct x; [contradiction | reflexivity].
  - discriminate.
  - eapply Forall_impl; [|exact Hclean]. intros x [_ Hx]. exact Hx.
Qed.

Lemma components_leading_slash s : components (String "/" s) = components s.
Proof. reflexivity. Qed.

Section PathStrings.
Context {B : Browsable.Interface} {L : StdLibrary RItem}.

(** X1: [DecomposePath] cuts the string at every separator, drops the empty
    pieces and appends what is left to the working path (when asked to) or
    to the empty path: leading, trailing and doubled separators count for
    nothing. *)
Theorem DecomposePath_components (strpath : string) (relative_to_work_element : bool)
    (d : RBrowserData) :
  DecomposePath strpath relative_to_work_element d =
    (if relative_to_work_element then fWorkingPath d else [])
    ++ filter nonempty (segments strpath).
Proof. apply DecomposePath_components_raw. Qed.

(** X2: no component that [DecomposePath] takes from the string is empty
    or holds a separator. *)
Theorem DecomposePath_clean (strpath : string) (d : RBrowserData) :
  Forall (fun c => c <> "" /\ slash_free c = true) (DecomposePath strpath false d).
Proof.
  rewrite DecomposePath_components_raw. cbn [app]. apply components_clean.
Qed.

(** X3: round trip. A path whose components are not empty and hold no
    separator, joined with separators (with or without a leading one), is
    decomposed into the same components again. *)
Theorem DecomposePath_concat (path : RElementPath_t) (relative_to_work_element : bool)
    (d : RBrowserData) :
  Forall (fun c => c <> "" /\ slash_free c = true) path ->
  DecomposePath (String.concat "/" path) relative_to_work_element d =
    (if relative_to_work_element then fWorkingPath d else []) ++ path /\
  DecomposePath (String "/" (String.concat "/" path)) relative_to_work_element d =
    (if relative_to_work_element then fWorkingPath d else []) ++ path.
Proof.
  intros Hclean.
  rewrite !DecomposePath_components_raw, components_leading_slash.
  rewrite (components_concat path Hclean). split; reflexivity.
Qed.

(** X4: the components of a string, joined with separators and decomposed
    again, are the same components: the result of [DecomposePath] is a
    normal form of the string. *)
Theorem DecomposePath_normal_form (strpath : string) (d : RBrowserData) :
  DecomposePath (String.concat "/" (DecomposePath strpath false d)) false d
    = DecomposePath strpath false d.
Proof.
  rewrite !DecomposePath_components_raw. cbn [app].
  apply components_concat, components_clean.
Qed.

(** X5: after [SetWorkingDirectory dir], [GetElement rel] looks up, from the
    top element, the path of the string [dir/rel]. *)
Theorem GetElement_after_SetWorkingDirectory (dir rel : string) (d : RBrowserData) :
  GetElement rel (SetWorkingDirectory dir d) =
    GetElementFromTop (DecomposePath (String.append dir (String "/" rel)) false d)
      (SetWorkingDirectory dir d).
Proof.
  unfold GetElement, GetElementFromTop.
  rewrite !DecomposePath_components_raw. cbn [app].
  unfold components. rewrite segments_app_slash, filter_app.
  change (fWorkingPath (SetWorkingDirectory dir d)) with (DecomposePath dir false d).
  rewrite DecomposePath_components_raw. reflexivity.
Qed.
End PathStrings.

(** * How the cache grows *)

Section CacheGrowth.
Context {B : Browsable.Interface} {L : StdLibrary RItem}.

Lemma cache_assign_key_kept k0 v0 c k v :
  In (k, v) c -> exists v', In (k, v') (cache_assign k0 v0 c).
Proof.
  intros Hin. destruct (path_eq_dec k k0) as [->|Hne].
  - exists v0. apply cache_assign_In_new.
  - exists v. apply cache_assign_In_old; assumption.
Qed.

Lemma resolve_loop_key_kept rest : forall path pos elem c r c' k v,
  resolve_loop path rest pos elem c = (r, c') ->
  In (k, v) c -> exists v', In (k, v') c'.
Proof.
  induction rest as [|name rest IH]; intros path pos elem c r c' k v Hres Hin;
    cbn [resolve_loop] in Hres.
  - injection Hres as _ <-. eauto.
  - destruct elem as [e|]; [|injection Hres as _ <-; eauto].
    destruct (GetChildsIter e) as [iter|]; [|injection Hres as _ <-; eauto].
    destruct (Find iter name) as [iter'|]; [|injection Hres as _ <-; eauto].
    destruct (Browsable.GetElement iter') as [e'|]; [|injection Hres as _ <-; eauto].
    destruct (cache_assign_key_kept (firstn (pos + 1) path) e' c k v Hin) as [v1 Hv1].
    eapply IH; eauto.
Qed.

Lemma resolve_loop_new_keys rest : forall path pos elem c r c' k v,
  skipn pos path = rest ->
  resolve_loop path rest pos elem c = (r, c') ->
  In (k, v) c' ->
  In (k, v) c \/ exists n, pos < n <= length path /\ k = firstn n path.
Proof.
  induction rest as [|name rest IH]; intros path pos elem c r c' k v Hskip Hres Hin;
    cbn [resolve_loop] in Hres.
  - injection Hres as _ <-. auto.
  - destruct elem as [e|]; [|injection Hres as _ <-; auto].
    destruct (GetChildsIter e) as [iter|]; [|injection Hres as _ <-; auto].
    destruct (Find iter name) as [iter'|]; [|injection Hres as _ <-; auto].
    destruct (Browsable.GetElement iter') as [e'|]; [|injection Hres as _ <-; auto].
    destruct (firstn_succ_skipn path _ _ pos Hskip) as (_ & Hskip' & Hlen).
    destruct (IH path (pos + 1) _ _ r c' k v Hskip' Hres Hin) as [Hold|(n & Hn & Hk)].
    + apply cache_assign_In_inv in Hold. destruct Hold as [Hnew|Hold]; [|auto].
      injection Hnew as -> _. right. exists (pos + 1). split; [lia | reflexivity].
    + right. exists n. split; [lia | exact Hk].
Qed.

Lemma resolve_loop_hit rest : forall path pos e0 c e c',
  skipn pos path = rest -> pos <= length path ->
  path <> [] ->
  (pos = 0 \/ In (firstn pos path, e0) c) ->
  resolve_loop path rest pos (Some e0) c = (Ok (Some e), c') ->
  In (path, e) c'.
Proof.
  induction rest as [|name rest IH]; intros path pos e0 c e c' Hskip Hle Hne Hstart Hres;
    cbn [resolve_loop] in Hres.
  - injection Hres as <- <-.
    assert (Hpos : pos = length path).
    { apply (f_equal (@length string)) in Hskip. rewrite length_skipn in Hskip.
      cbn in Hskip. lia. }
    destruct Hstart as [H0|Hin].
    + destruct path; [contradiction | cbn in Hpos; lia].
    + rewrite Hpos, firstn_all in Hin. exact Hin.
  - destruct (GetChildsIter e0) as [iter|]; [|discriminate].
    destruct (Find iter name) as [iter'|]; [|discriminate].
    destruct (Browsable.GetElement iter') as [e'|]; [|discriminate].
    destruct (firstn_succ_skipn path _ _ pos Hskip) as (_ & Hskip' & Hlen).
    apply (IH path (pos + 1) e' (cache_assign (firstn (pos + 1) path) e' c) e c' Hskip');
      try assumption; [lia|].
    right. apply cache_assign_In_new.
Qed.

Lemma sorted_unique c : StronglySorted entry_lt c ->
  forall k v v', In (k, v) c -> In (k, v') c -> v = v'.
Proof.
  induction c as [|[k0 v0] c IH]; intros Hs k v v' H1 H2; [destruct H1|].
  inversion Hs as [|x l Hs' Hall]; subst. rewrite Forall_forall in Hall.
  assert (Hirr : forall w, In (k0, w) c -> False).
  { intros w Hw. specialize (Hall _ Hw). unfold entry_lt in Hall. cbn [fst] in Hall.
    assert (Heq : path_compare k0 k0 = Eq) by (apply path_compare_eq; reflexivity).
    congruence. }
  destruct H1 as [H1|H1], H2 as [H2|H2].
  - congruence.
  - injection H1 as -> _. destruct (Hirr _ H2).
  - injection H2 as -> _. destruct (Hirr _ H1).
  - eapply IH; eauto.
Qed.

(** A path that is a key wins the scan outright. *)
Lemma best_entry_exact path top c e :
  StronglySorted entry_lt c ->
  (forall k v n, In (k, v) c -> 0 < n < length k -> exists v', In (firstn n k, v') c) ->
  path <> [] -> In (path, e) c ->
  best_entry path top c = (length path, Some e).
Proof.
  intros Hs Hc Hne Hin. unfold best_entry.
  pose proof (best_entry_fold path top c [] (0, top) Hs Hc) as H.
  cbn [app] in H.
  destruct (fold_left (best_entry_step path) c (0, top)) as [pos elem].
  destruct H as (Hle & Hmax & Hacc).
  { split; [cbn; lia|]. split; [intros k v []|]. left. split; reflexivity. }
  cbn [fst snd] in *.
  specialize (Hmax _ _ Hin).
  rewrite <- (firstn_all path) in Hmax at 2.
  rewrite ComparePaths_prefix in Hmax by lia.
  assert (Hpos : pos = length path) by lia. subst pos.
  destruct Hacc as [[H0 _]|(_ & v & -> & Hv)].
  - destruct path; [contradiction | cbn in H0; lia].
  - rewrite firstn_all in Hv. rewrite (sorted_unique c Hs _ _ _ Hin Hv). reflexivity.
Qed.

(** *** The shape of the cache, whatever the tree *)

Lemma cache_wf_nil : cache_wf [].
Proof. split; [constructor | intros k v n []]. Qed.

Lemma cache_wf_assign k v c :
  cache_wf c ->
  (forall n, 0 < n < length k -> exists v', In (firstn n k, v') c) ->
  cache_wf (cache_assign k v c).
Proof.
  intros [Hs Hc] Hpre. split.
  - apply cache_assign_sorted, Hs.
  - intros k1 v1 n Hin Hn.
    assert (Hold : exists v', In (firstn n k1, v') c).
    { apply cache_assign_In_inv in Hin. destruct Hin as [Hin|Hin].
      - inversion Hin; subst. apply Hpre, Hn.
      - eapply Hc; eauto. }
    destruct Hold as [v' Hv'].
    destruct (path_eq_dec (firstn n k1) k) as [Heq|Hne].
    + exists v. rewrite Heq. apply cache_assign_In_new.
    + exists v'. apply cache_assign_In_old; assumption.
Qed.

Lemma cache_wf_resolve_loop rest : forall path pos elem c r c',
  cache_wf c -> skipn pos path = rest ->
  (pos = 0 \/ exists v, In (firstn pos path, v) c) ->
  resolve_loop path rest pos elem c = (r, c') ->
  cache_wf c'.
Proof.
  induction rest as [|name rest IH]; intros path pos elem c r c' Hwf Hskip Hstart Hres;
    cbn [resolve_loop] in Hres.
  - injection Hres as _ <-. exact Hwf.
  - destruct elem as [e|]; [|injection Hres as _ <-; exact Hwf].
    destruct (GetChildsIter e) as [iter|]; [|injection Hres as _ <-; exact Hwf].
    destruct (Find iter name) as [iter'|]; [|injection Hres as _ <-; exact Hwf].
    destruct (Browsable.GetElement iter') as [e'|]; [|injection Hres as _ <-; exact Hwf].
    destruct (firstn_succ_skipn path _ _ pos Hskip) as (_ & Hskip' & Hlen).
    apply (IH path (pos + 1) (Some e') (cache_assign (firstn (pos + 1) path) e' c) r c');
      [|exact Hskip' | | exact Hres].
    + apply cache_wf_assign; [exact Hwf|].
      intros n Hn. rewrite length_firstn in Hn.
      rewrite firstn_firstn. replace (Nat.min n (pos + 1)) with n by lia.
      destruct (Nat.eq_dec n pos) as [->|Hne].
      * destruct Hstart as [H0|Hin]; [lia | exact Hin].
      * destruct Hstart as [H0|[v Hin]]; [lia|].
        destruct Hwf as [_ Hc].
        destruct (Hc _ _ n Hin) as [v' Hv'].
        -- rewrite length_firstn. lia.
        -- rewrite firstn_firstn in Hv'.
           replace (Nat.min n pos) with n in Hv' by lia. eauto.
    + right. exists e'. apply cache_assign_In_new.
Qed.

(** Where the scan of the cache leaves [pos] and [elem]. *)
Lemma best_entry_start path top c pos elem :
  cache_wf c -> best_entry path top c = (pos, elem) ->
  pos <= length path /\
  ((pos = 0 /\ elem = top) \/
   (0 < pos /\ exists v, elem = Some v /\ In (firstn pos path, v) c)).
Proof.
  intros [Hs Hc] Hbest. unfold best_entry in Hbest.
  pose proof (best_entry_fold path top c [] (0, top) Hs Hc) as H.
  cbn [app] in H. rewrite Hbest in H.
  destruct H as (Hle & _ & Hacc).
  { split; [cbn; lia|]. split; [intros k v []|]. left. split; reflexivity. }
  cbn [fst snd] in Hle, Hacc. split; [exact Hle | exact Hacc].
Qed.

Lemma cache_wf_GetSubElement path d :
  cache_wf (fCache d) -> cache_wf (fCache (snd (GetSubElement path d))).
Proof.
  intros Hwf. unfold GetSubElement. destruct path as [|name path']; [exact Hwf|].
  set (path := name :: path').
  destruct (best_entry path (fTopElement d) (fCache d)) as [pos elem] eqn:Ebest.
  destruct (resolve_loop path (skipn pos path) pos elem (fCache d)) as [r c] eqn:Eloop.
  cbn [snd fCache set_fCache].
  destruct (best_entry_start path _ _ _ _ Hwf Ebest) as [_ Hcase].
  apply (cache_wf_resolve_loop _ path pos elem (fCache d) r c Hwf eq_refl);
    [|exact Eloop].
  destruct Hcase as [[-> _]|(_ & v & _ & Hin)]; [left; reflexivity | right; eauto].
Qed.

Lemma GetSubElement_hit path d e d1 :
  cache_wf (fCache d) -> path <> [] ->
  GetSubElement path d = (Ok (Some e), d1) ->
  In (path, e) (fCache d1).
Proof.
  intros Hwf Hne Hget. unfold GetSubElement in Hget.
  destruct path as [|name path']; [contradiction|].
  set (path := name :: path') in *.
  destruct (best_entry path (fTopElement d) (fCache d)) as [pos elem] eqn:Ebest.
  destruct (resolve_loop path (skipn pos path) pos elem (fCache d)) as [r c] eqn:Eloop.
  injection Hget as -> <-. cbn [fCache set_fCache].
  destruct (best_entry_start path _ _ _ _ Hwf Ebest) as [Hle Hcase].
  destruct Hcase as [[-> ->]|(Hpos & v & -> & Hv)].
  - destruct (fTopElement d) as [t|] eqn:Et.
    + eapply resolve_loop_hit; eauto.
    + cbn in Eloop. discriminate.
  - eapply resolve_loop_hit; eauto.
Qed.

Lemma GetSubElement_again path d e :
  cache_wf (fCache d) -> path <> [] -> In (path, e) (fCache d) ->
  GetSubElement path d = (Ok (Some e), d).
Proof.
  intros [Hs Hc] Hne Hin. unfold GetSubElement.
  destruct path as [|name path']; [contradiction|].
  rewrite (best_entry_exact (name :: path') (fTopElement d) (fCache d) e Hs Hc Hne Hin).
  rewrite skipn_all. cbn [resolve_loop]. destruct d; reflexivity.
Qed.


Lemma GetSubElement_new_keys path d k v :
  In (k, v) (fCache (snd (GetSubElement path d))) ->
  In (k, v) (fCache d) \/ exists n, 0 < n <= length path /\ k = firstn n path.
Proof.
  unfold GetSubElement. destruct path as [|name path']; [auto|].
  set (path := name :: path').
  destruct (best_entry path (fTopElement d) (fCache d)) as [pos elem].
  destruct (resolve_loop path (skipn pos path) pos elem (fCache d)) as [r c] eqn:Eloop.
  cbn [snd fCache set_fCache]. intros Hin.
  destruct (resolve_loop_new_keys _ path pos elem _ r c k v eq_refl Eloop Hin)
    as [Hold|(n & Hn & Hk)]; [auto|].
  right. exists n. split; [lia | exact Hk].
Qed.

Lemma GetSubElement_key_kept path d k v :
  In (k, v) (fCache d) -> exists v', In (k, v') (fCache (snd (GetSubElement path d))).
Proof.
  unfold GetSubElement. destruct path as [|name path']; [eauto|].
  set (path := name :: path').
  destruct (best_entry path (fTopElement d) (fCache d)) as [pos elem].
  destruct (resolve_loop path (skipn pos path) pos elem (fCache d)) as [r c] eqn:Eloop.
  cbn [snd fCache set_fCache]. intros Hin.
  eapply resolve_loop_key_kept; eauto.
Qed.

Lemma walk_reaches_unique top k v v' : reaches top k v -> reaches top k v' -> v = v'.
Proof. intros (t & Ht & Hw) (t' & Ht' & Hw'). congruence. Qed.

Lemma GetSubElement_entry_kept top path d k v :
  session_ok top d -> In (k, v) (fCache d) ->
  In (k, v) (fCache (snd (GetSubElement path d))).
Proof.
  intros Hok Hin.
  destruct (GetSubElement_key_kept path d k v Hin) as [v' Hv'].
  destruct (session_ok_GetSubElement top path d Hok) as [_ Hok'].
  destruct Hok as [_ Hok].
  rewrite (walk_reaches_unique top k v v' (cache_sound _ _ Hok _ _ Hin)
             (cache_sound _ _ Hok' _ _ Hv')).
  exact Hv'.
Qed.

(** The cache after [ProcessBrowserRequest] is the cache after the
    [GetSubElement] it may have called, or the cache before. *)
Lemma ProcessBrowserRequest_cache request reply d :
  let d' := snd (ProcessBrowserRequest request reply d) in
  fCache d' = fCache d \/
  fCache d' = fCache (snd (GetSubElement
                            (DecomposePath (RBrowserRequest.path request) true d) d)).
Proof.
  cbv zeta. unfold ProcessBrowserRequest.
  set (path := DecomposePath (RBrowserRequest.path request) true d).
  assert (Hres : fCache (snd (resolve_request path d)) = fCache d \/
                 fCache (snd (resolve_request path d)) = fCache (snd (GetSubElement path d))).
  { unfold resolve_request. destruct (_ || _); [|auto].
    destruct (GetSubElement path d) as [[[elem|]|e] d1]; cbn; auto. }
  destruct (resolve_request path d) as [[[|]|e] d1]; cbn [snd] in *; try exact Hres.
  destruct (list_childs_frame d1) as (_ & Hc & _).
  destruct (list_childs d1) as [[[|]|e] d2]; cbn [snd] in *;
    try (rewrite Hc; exact Hres).
  destruct (sort_childs_frame request d2) as (_ & Hc' & _).
  destruct (regex_compile _); [destruct (page_loop _ _ _ _ _)|];
    cbn [snd]; rewrite Hc', Hc; exact Hres.
Qed.



Lemma keys_nonempty_GetSubElement path d :
  keys_nonempty d -> keys_nonempty (snd (GetSubElement path d)).
Proof.
  intros H k v Hin. apply GetSubElement_new_keys in Hin.
  destruct Hin as [Hold|(n & Hn & ->)]; [eapply H; eauto|].
  destruct path; [cbn in Hn; lia|]. destruct n; [lia | discriminate].
Qed.

Lemma keys_nonempty_run_call c d : keys_nonempty d -> keys_nonempty (run_call c d).
Proof.
  intros H.
  assert (HP : forall request reply,
             keys_nonempty (snd (ProcessBrowserRequest request reply d))).
  { intros request reply k v.
    destruct (ProcessBrowserRequest_cache request reply d) as [E|E]; rewrite E;
      [apply H | apply keys_nonempty_GetSubElement, H]. }
  destruct c; cbn [run_call]; try exact H;
    try (apply keys_nonempty_GetSubElement, H; fail).
  - apply HP.
  - unfold ProcessRequest.
    specialize (HP request (RBrowserReply.Build (RBrowserRequest.path request) 0%Z 0%Z [])).
    destruct (ProcessBrowserRequest _ _ d) as [[[b r]|e] d']; exact HP.
Qed.

Lemma keys_nonempty_run_calls cs : forall d,
  keys_nonempty d -> keys_nonempty (run_calls cs d).
Proof.
  induction cs as [|c cs IH]; intros d H; [exact H|].
  cbn. apply IH, keys_nonempty_run_call, H.
Qed.

Lemma cache_wf_run_call c d : cache_wf (fCache d) -> cache_wf (fCache (run_call c d)).
Proof.
  intros H.
  assert (HP : forall request reply,
             cache_wf (fCache (snd (ProcessBrowserRequest request reply d)))).
  { intros request reply.
    destruct (ProcessBrowserRequest_cache request reply d) as [E|E]; rewrite E;
      [exact H | apply cache_wf_GetSubElement, H]. }
  destruct c; cbn [run_call]; try exact H;
    try (apply cache_wf_GetSubElement, H; fail).
  - apply HP.
  - unfold ProcessRequest.
    specialize (HP request (RBrowserReply.Build (RBrowserRequest.path request) 0%Z 0%Z [])).
    destruct (ProcessBrowserRequest _ _ d) as [[[b r]|e] d']; exact HP.
Qed.

Lemma cache_wf_run_calls cs : forall d,
  cache_wf (fCache d) -> cache_wf (fCache (run_calls cs d)).
Proof.
  induction cs as [|c cs IH]; intros d H; [exact H|].
  cbn. apply IH, cache_wf_run_call, H.
Qed.

(** X6: on an object whose top element has not been replaced, whatever
    calls came before, [GetSubElement] returns the element that the walk from
    the top element along the path, one [Find] per component, arrives at
    (nothing when a component is missing, the null error when there is no
    top element and the path is not empty). *)
Theorem GetSubElement_returns_walk
    (top : option RElement) (calls : list call) (path : RElementPath_t) :
  Forall (keeps_tree top) calls ->
  fst (GetSubElement path (run_calls calls (session_start top))) = resolve_cold top path.
Proof.
  intros Hk. apply GetSubElement_warm.
  apply session_ok_run_calls; [exact Hk | apply session_ok_start].
Qed.

(** X7: on any object reached from a new one, by whatever calls (the top
    element may have been replaced any number of times), a lookup that found
    its element, done again at once, finds the same element and leaves the
    object, the cache included, as it is. *)
Theorem GetSubElement_repeat_unchanged
    (calls : list call) (path : RElementPath_t)
    (e : RElement) (d1 : RBrowserData) :
  GetSubElement path (run_calls calls RBrowserData_new) = (Ok (Some e), d1) ->
  GetSubElement path d1 = (Ok (Some e), d1).
Proof.
  intros Hget.
  assert (Hd : cache_wf (fCache (run_calls calls RBrowserData_new)))
    by (apply cache_wf_run_calls, cache_wf_nil).
  pose proof (cache_wf_GetSubElement path _ Hd) as Hd1.
  rewrite Hget in Hd1. cbn [snd] in Hd1.
  destruct path as [|name path'].
  - cbn in Hget. injection Hget as Htop <-. cbn. rewrite Htop. reflexivity.
  - apply GetSubElement_again; [exact Hd1 | discriminate |].
    apply (GetSubElement_hit (name :: path') _ e d1 Hd); [discriminate | exact Hget].
Qed.


Lemma walk_prefix t p v m :
  walk t p = Some v -> exists v', walk t (firstn m p) = Some v'.
Proof.
  intros Hw. rewrite <- (firstn_skipn m p), walk_app in Hw.
  destruct (walk t (firstn m p)) as [v'|]; [eauto | discriminate].
Qed.

(** The loop stores every component it can walk. *)
Lemma resolve_loop_walked rest : forall path pos t e c r c' n v,
  skipn pos path = rest ->
  walk t (firstn pos path) = Some e ->
  resolve_loop path rest pos (Some e) c = (r, c') ->
  pos < n <= length path -> walk t (firstn n path) = Some v ->
  exists v', In (firstn n path, v') c'.
Proof.
  induction rest as [|name rest IH]; intros path pos t e c r c' n v Hskip Hw Hres Hn Hwn.
  - apply (f_equal (@length _)) in Hskip. rewrite length_skipn in Hskip.
    cbn [length] in Hskip. lia.
  - destruct (firstn_succ_skipn path _ _ pos Hskip) as (Hfirst & Hskip' & Hlen).
    destruct (walk_prefix t (firstn n path) v (pos + 1) Hwn) as [e' He'].
    rewrite firstn_firstn in He'. replace (Nat.min (pos + 1) n) with (pos + 1) in He' by lia.
    assert (Hchild : child e name = Some e').
    { rewrite Hfirst, walk_app, Hw in He'. cbn [walk] in He'.
      destruct (child e name); [congruence | discriminate]. }
    cbn [resolve_loop] in Hres. unfold child in Hchild.
    destruct (GetChildsIter e) as [iter|]; [|discriminate].
    destruct (Find iter name) as [iter'|]; [|discriminate].
    rewrite Hchild in Hres.
    destruct (Nat.eq_dec n (pos + 1)) as [->|Hne].
    + eapply resolve_loop_key_kept; [exact Hres|]. apply cache_assign_In_new.
    + eapply (IH path (pos + 1) t e'); eauto; lia.
Qed.

(** X9: on an object whose top element has not been replaced, whatever
    calls came before, the cache after a lookup, whether it finds its
    element or not: the entries of before, and for every non-empty prefix of
    the path that leads to an element of the tree, that element under that
    prefix; nothing else. *)
Theorem GetSubElement_cache_after
    (top : option RElement) (calls : list call) (path : RElementPath_t) :
  Forall (keeps_tree top) calls ->
  let d := run_calls calls (session_start top) in
  let d1 := snd (GetSubElement path d) in
  forall k v,
    In (k, v) (fCache d1) <->
    (In (k, v) (fCache d) \/
     exists n, 0 < n <= length path /\ k = firstn n path /\ reaches top k v).
Proof.
  intros Hk d d1 k v.
  assert (Hd : session_ok top d)
    by (apply session_ok_run_calls; [exact Hk | apply session_ok_start]).
  pose proof (session_ok_GetSubElement top path d Hd) as Hd1. fold d1 in Hd1.
  split.
  - intros Hin. destruct (GetSubElement_new_keys path d k v Hin) as [Hold|(n & Hn & Hkn)].
    + left. exact Hold.
    + right. exists n. split; [exact Hn|]. split; [exact Hkn|].
      destruct Hd1 as [_ Hc1]. exact (cache_sound _ _ Hc1 k v Hin).
  - intros [Hold|(n & Hn & Hkn & Hreach)].
    + exact (GetSubElement_entry_kept top path d k v Hd Hold).
    + assert (Hex : exists v', In (k, v') (fCache d1)).
      { destruct Hreach as (t & Htop & Hw). subst k.
        destruct Hd as [Hft Hok]. subst d1. unfold GetSubElement.
        destruct path as [|name path']; [cbn in Hn; lia|].
        set (path := name :: path') in *.
        destruct (best_entry path (fTopElement d) (fCache d)) as [pos elem] eqn:Ebest.
        destruct (resolve_loop path (skipn pos path) pos elem (fCache d)) as [r c] eqn:Eloop.
        cbn [snd fCache set_fCache].
        rewrite Hft in Ebest.
        destruct (best_entry_ok path top (fCache d) pos elem Hok Ebest)
          as (Hpos & [[-> ->]|(Hpos0 & t' & v0 & Ht' & -> & Hin0 & Hw0)]).
        - rewrite Htop in Eloop.
          eapply (resolve_loop_walked _ path 0 t t); eauto; lia.
        - assert (t' = t) by congruence. subst t'.
          destruct (Nat.lt_ge_cases pos n) as [Hlt|Hge].
          + eapply (resolve_loop_walked _ path pos t v0); eauto; lia.
          + assert (Hold : exists v', In (firstn n path, v') (fCache d)).
            { destruct (Nat.eq_dec n pos) as [->|Hne]; [eauto|].
              destruct (cache_closed _ _ Hok _ _ n Hin0) as [v' Hv'].
              - rewrite length_firstn. lia.
              - rewrite firstn_firstn in Hv'.
                replace (Nat.min n pos) with n in Hv' by lia. eauto. }
            destruct Hold as [v' Hv'].
            eapply resolve_loop_key_kept; eauto. }
      destruct Hex as [v' Hv'].
      destruct Hd1 as [_ Hc1].
      rewrite (walk_reaches_unique top k v v' Hreach (cache_sound _ _ Hc1 _ _ Hv')).
      exact Hv'.
Qed.

(** X10: [SetTopElement] leaves the cache alone: a path cached under the
    old top element still resolves to the cached element after any other top
    element has been installed, without a look at the new tree. *)
Theorem SetTopElement_keeps_cached_paths
    (top top' : option RElement) (calls : list call)
    (path : RElementPath_t) (v : RElement) :
  Forall (keeps_tree top) calls ->
  In (path, v) (fCache (run_calls calls (session_start top))) ->
  GetSubElement path (SetTopElement top' (run_calls calls (session_start top)))
    = (Ok (Some v), SetTopElement top' (run_calls calls (session_start top))).
Proof.
  intros Hk Hin.
  set (d := run_calls calls (session_start top)) in *.
  assert (Hd : session_ok top d)
    by (apply session_ok_run_calls; [exact Hk | apply session_ok_start]).
  assert (Hne : path <> []).
  { apply (keys_nonempty_run_calls calls (session_start top)) with (v := v);
      [intros k w [] | exact Hin]. }
  destruct Hd as [_ Hc].
  unfold GetSubElement. destruct path as [|name path']; [contradiction|].
  change (fCache (SetTopElement top' d)) with (fCache d).
  rewrite (best_entry_exact (name :: path') _ (fCache d) v
             (cache_sorted _ _ Hc) (cache_closed _ _ Hc) Hne Hin).
  rewrite skipn_all. reflexivity.
Qed.

End CacheGrowth.

(** * The listing and the page of a reply *)

Section ListingAndPage.
Context {B : Browsable.Interface} {L : StdLibrary RItem}.

Lemma filter_partition_perm (f : RItem -> bool) (l : list RItem) :
  Permutation l (filter f l ++ filter (fun x => negb (f x)) l).
Proof.
  induction l as [|x l IH]; [constructor|].
  cbn [filter]. destruct (f x); cbn [negb app].
  - constructor. exact IH.
  - apply Permutation_cons_app. exact IH.
Qed.

Lemma sorted_items_perm sort reverse items :
  Permutation items (sorted_items sort reverse items).
Proof.
  assert (H : Permutation items (order_items sort items)).
  { unfold order_items. destruct (String.eqb sort "").
    - apply filter_partition_perm.
    - destruct (negb (String.eqb sort "unsorted")); [apply std_sort_perm | reflexivity]. }
  unfold sorted_items. destruct reverse; [|exact H].
  eapply perm_trans; [exact H | apply Permutation_rev].
Qed.

Lemma window_from_app request X : forall Y id,
  window_from request id (X ++ Y) =
    window_from request id X ++ window_from request (id + Z.of_nat (length X))%Z Y.
Proof.
  induction X as [|x X IH]; intros Y id.
  - cbn. rewrite Z.add_0_r. reflexivity.
  - cbn [app window_from]. rewrite IH, <- app_assoc. do 3 f_equal.
    cbn [length]. lia.
Qed.

Lemma window_from_length_le request visible : forall id,
  length (window_from request id visible) <= length visible.
Proof.
  induction visible as [|x rest IH]; intros id; cbn [window_from]; [lia|].
  rewrite length_app. specialize (IH (id + 1)%Z).
  destruct (in_window request id); cbn [length]; lia.
Qed.

(** The loop over the children, read off the iterator: what it appends are
    the first children in the order of the iterator; with the flag up they
    are all the children there are. *)
Lemma childs_loop_children fuel : forall iter id acc items all,
  (0 <= id <= 10001)%Z -> Z.to_nat (10003 - id) <= fuel ->
  childs_loop fuel iter id acc true = (items, all) ->
  exists l, items = acc ++ l /\
    children_first (length l) iter = Some l /\
    (all = true -> children_exactly (length l) iter = Some l) /\
    (Z.of_nat (length l) <= 10002 - id)%Z.
Proof.
  induction fuel as [|fuel IH]; intros iter id acc items all Hid Hfuel Hloop; [lia|].
  cbn [childs_loop] in Hloop.
  destruct (Next iter) as [more iter'] eqn:Enext. destruct more; cbn [andb] in Hloop.
  - unfold int_add in Hloop.
    rewrite int_wrap_small in Hloop by (unfold INT_MIN, INT_MAX; lia).
    destruct (id >? 10000)%Z eqn:Ecap.
    + rewrite childs_loop_done in Hloop. injection Hloop as <- <-.
      exists [CreateItem iter']. split; [reflexivity|]. cbn [length].
      split; [cbn [children_first]; rewrite Enext; reflexivity|].
      split; [discriminate | lia].
    + apply IH in Hloop; [|lia|lia].
      destruct Hloop as (l & -> & Hfirst & Hexact & Hlen).
      exists (CreateItem iter' :: l). rewrite <- app_assoc. split; [reflexivity|].
      cbn [length]. split; [|split].
      * cbn [children_first]. rewrite Enext, Hfirst. reflexivity.
      * intros Hall. cbn [children_exactly]. rewrite Enext, (Hexact Hall). reflexivity.
      * lia.
  - injection Hloop as <- <-. exists []. rewrite app_nil_r. split; [reflexivity|].
    cbn [length]. split; [reflexivity|]. split; [|lia].
    intros _. cbn [children_exactly]. rewrite Enext. reflexivity.
Qed.

(** X11: after any sequence of calls on a new object, [fLastSortedItems]
    holds the items of [fLastItems], each as often as there, in some order. *)
Theorem sorted_array_is_permutation (calls : list call) :
  let d := run_calls calls RBrowserData_new in
  Permutation (fLastItems d) (fLastSortedItems d).
Proof.
  cbv zeta.
  destruct (memo_ok_run_calls calls RBrowserData_new memo_ok_new) as [_ Hsorted].
  rewrite Hsorted. apply sorted_items_perm.
Qed.

(** X12: with the empty sort method and no reverse, the sorted array is the
    folders in iterator order followed by the other items in iterator order,
    and so is the page: folders first. *)
Theorem default_order_folders_first
    (request : RBrowserRequest.t) (reply r : RBrowserReply.t RItem)
    (d d' : RBrowserData) :
  memo_ok d ->
  RBrowserRequest.sort request = "" ->
  RBrowserRequest.reverse request = false ->
  ProcessBrowserRequest request reply d = (Ok (true, r), d') ->
  fLastSortedItems d' =
    filter IsFolder (fLastItems d')
    ++ filter (fun item => negb (IsFolder item)) (fLastItems d') /\
  exists folders files,
    RBrowserReply.nodes r = RBrowserReply.nodes reply ++ folders ++ files /\
    Forall (fun item => IsFolder item = true) folders /\
    Forall (fun item => IsFolder item = false) files.
Proof.
  intros Hok Hsort Hrev Hrun.
  pose proof (ProcessBrowserRequest_sorted request reply d r d' Hok Hrun) as Hsorted.
  rewrite Hsort, Hrev in Hsorted. unfold sorted_items, order_items in Hsorted.
  cbn [String.eqb] in Hsorted.
  split; [exact Hsorted|].
  destruct (ProcessBrowserRequest_true request reply d r d' Hok Hrun)
    as (expr & _ & _ & _ & _ & _ & Hnodes).
  rewrite Hsorted, filter_app, window_from_app in Hnodes.
  eexists. eexists. split; [exact Hnodes|]. split.
  - apply Forall_forall. intros item Hin. apply window_from_incl in Hin.
    apply filter_In in Hin. destruct Hin as [Hin _].
    apply filter_In in Hin. apply Hin.
  - apply Forall_forall. intros item Hin. apply window_from_incl in Hin.
    apply filter_In in Hin. destruct Hin as [Hin _].
    apply filter_In in Hin. destruct Hin as [_ Hf].
    destruct (IsFolder item); [discriminate | reflexivity].
Qed.

(** X13: a successful reply echoes the path of the reply passed in and the
    offset of the request; its total is between 0 and the size of the
    snapshot, which is at most 10002; the page appended to the nodes has at
    most that total of items, all of them items of the snapshot. *)
Theorem reply_within_listing
    (request : RBrowserRequest.t) (reply r : RBrowserReply.t RItem)
    (d d' : RBrowserData) :
  memo_ok d ->
  ProcessBrowserRequest request reply d = (Ok (true, r), d') ->
  RBrowserReply.path r = RBrowserReply.path reply /\
  RBrowserReply.first r = RBrowserRequest.first request /\
  (0 <= RBrowserReply.nchilds r <= Z.of_nat (length (fLastItems d')))%Z /\
  (Z.of_nat (length (fLastItems d')) <= 10002)%Z /\
  exists page,
    RBrowserReply.nodes r = RBrowserReply.nodes reply ++ page /\
    (Z.of_nat (length page) <= RBrowserReply.nchilds r)%Z /\
    forall item, In item page -> In item (fLastItems d').
Proof.
  intros Hok Hrun.
  destruct (ProcessBrowserRequest_true request reply d r d' Hok Hrun)
    as (expr & _ & [Hlen Hsorted] & Hpath & Hfirst & Hn & Hnodes).
  split; [exact Hpath|]. split; [exact Hfirst|].
  assert (Hvis : length (filter (item_passes request expr) (fLastSortedItems d'))
                 <= length (fLastItems d')).
  { eapply Nat.le_trans; [apply filter_length_le|].
    rewrite Hsorted, sorted_items_length. lia. }
  split; [rewrite Hn; lia|]. split; [exact Hlen|].
  eexists. split; [exact Hnodes|]. split.
  - rewrite Hn. apply inj_le, window_from_length_le.
  - intros item Hin. apply window_from_incl in Hin. apply filter_In in Hin.
    destruct Hin as [Hin _]. rewrite Hsorted in Hin.
    eapply Permutation_in; [apply Permutation_sym, sorted_items_perm | exact Hin].
Qed.

(** X14: the snapshot a request builds for a newly resolved element is what
    the iterator of the element yields first, in that order; with
    [fLastAllChilds] set it is all the iterator yields. *)
Theorem listing_is_iterator_prefix
    (request : RBrowserRequest.t) (reply : RBrowserReply.t RItem)
    (d d1 : RBrowserData) (elem : RElement) (iter : RLevelIter) :
  let path := DecomposePath (RBrowserRequest.path request) true d in
  path <> fLastPath d \/ fLastElement d = None ->
  GetSubElement path d = (Ok (Some elem), d1) ->
  GetChildsIter elem = Some iter ->
  let d' := snd (ProcessBrowserRequest request reply d) in
  children_first (length (fLastItems d')) iter = Some (fLastItems d') /\
  (fLastAllChilds d' = true ->
   children_exactly (length (fLastItems d')) iter = Some (fLastItems d')) /\
  (Z.of_nat (length (fLastItems d')) <= 10002)%Z.
Proof.
  intros path Hmis Hget Hiter d'.
  destruct (ProcessBrowserRequest_resolved request reply d elem d1 Hmis Hget)
    as (_ & _ & Hlist).
  rewrite Hiter in Hlist. fold d' in Hlist.
  destruct (childs_loop childs_fuel iter 0 [] true) as [items all] eqn:Eloop.
  injection Hlist as -> ->.
  apply childs_loop_children in Eloop; [|lia | unfold childs_fuel; lia].
  destruct Eloop as (l & -> & Hfirst & Hexact & Hlen). cbn [app].
  split; [exact Hfirst|]. split; [exact Hexact | lia].
Qed.

End ListingAndPage.

(** * The memo and the tree *)

Section Memo.
Context {B : Browsable.Interface} {L : StdLibrary RItem}.



Lemma memo_sound_reset top d : memo_sound top (ResetLastRequest d).
Proof. split; [intros e H; discriminate | intros H; contradiction]. Qed.

Lemma memo_sound_set_fCache top c d : memo_sound top d -> memo_sound top (set_fCache c d).
Proof. intros H; exact H. Qed.

Lemma memo_sound_GetSubElement top path d :
  memo_sound top d -> memo_sound top (snd (GetSubElement path d)).
Proof. intros H. rewrite GetSubElement_frame. exact H. Qed.

(** What [resolve_request] leaves when it goes on: the path and an element
    that is the one the path leads to. *)
Lemma resolve_request_true top path d d1 :
  session_ok top d -> memo_sound top d ->
  resolve_request path d = (Ok true, d1) ->
  fLastPath d1 = path /\
  (exists e, fLastElement d1 = Some e) /\
  memo_sound top d1 /\
  fWorkingPath d1 = fWorkingPath d.
Proof.
  intros Hs Hm. unfold resolve_request.
  destruct (path_eq_dec path (fLastPath d)) as [Hp|Hp]; cbn [negb orb].
  - destruct (fLastElement d) as [e|] eqn:Ee.
    + intros H. injection H as <-. rewrite Ee. repeat split; eauto; apply Hm.
    + pose proof (GetSubElement_warm top path d Hs) as Hw.
      pose proof (GetSubElement_frame path d) as Hf.
      destruct (GetSubElement path d) as [[[elem|]|e] d0]; try discriminate.
      intros H. injection H as <-. cbn [fst snd] in *.
      repeat split; cbn; eauto; try (intros; discriminate); try contradiction.
      * intros e He. injection He as <-. symmetry. exact Hw.
      * rewrite Hf. reflexivity.
  - pose proof (GetSubElement_warm top path d Hs) as Hw.
    pose proof (GetSubElement_frame path d) as Hf.
    destruct (GetSubElement path d) as [[[elem|]|e] d0]; try discriminate.
    intros H. injection H as <-. cbn [fst snd] in *.
    repeat split; cbn; eauto; try (intros; discriminate); try contradiction.
    + intros e He. injection He as <-. symmetry. exact Hw.
    + rewrite Hf. reflexivity.
Qed.

(** When [resolve_request] stops, the memo is the one from before. *)
Lemma resolve_request_stop top path d r d1 :
  memo_sound top d ->
  resolve_request path d = (r, d1) -> r <> Ok true ->
  memo_sound top d1.
Proof.
  intros Hm. unfold resolve_request. destruct (_ || _).
  - pose proof (memo_sound_GetSubElement top path d Hm) as H1.
    destruct (GetSubElement path d) as [[[elem|]|e] d0]; cbn [snd] in H1;
      intros H; injection H as <- <-; intros Hr; try exact H1. congruence.
  - intros H; injection H as <- <-. congruence.
Qed.

(** What [list_childs] leaves when it goes on: the snapshot is the listing
    of the last element. *)
Lemma list_childs_true top d1 d2 :
  memo_sound top d1 -> (exists e, fLastElement d1 = Some e) ->
  list_childs d1 = (Ok true, d2) ->
  fLastPath d2 = fLastPath d1 /\ fLastElement d2 = fLastElement d1 /\
  (exists e, fLastElement d2 = Some e /\
             listing e = Some (fLastItems d2, fLastAllChilds d2)).
Proof.
  intros [Ha Hb] [e He]. unfold list_childs.
  destruct (fLastItems d1) as [|item items] eqn:Eitems.
  - rewrite He. unfold listing.
    destruct (GetChildsIter e) as [iter|] eqn:Eiter; [|discriminate].
    destruct (childs_loop childs_fuel iter 0 [] true) as [its all] eqn:Eloop.
    intros H. injection H as <-.
    cbn [fLastPath fLastElement fLastItems fLastAllChilds].
    split; [reflexivity|]. split; [reflexivity|].
    exists e. split; [reflexivity|]. rewrite Eiter, Eloop. reflexivity.
  - intros H. injection H as <-. repeat split; auto.
    destruct Hb as (e' & He' & Hl); [discriminate|].
    exists e'. rewrite ?Eitems. auto.
Qed.

Lemma memo_sound_of_listing top d :
  (forall e, fLastElement d = Some e -> resolve_cold top (fLastPath d) = Ok (Some e)) ->
  (exists e, fLastElement d = Some e /\
             listing e = Some (fLastItems d, fLastAllChilds d)) ->
  memo_sound top d.
Proof. intros Ha (e & He & Hl). split; [exact Ha | intros _; eauto]. Qed.

Lemma memo_sound_sort_childs top request d :
  memo_sound top d -> memo_sound top (sort_childs request d).
Proof.
  intros [Ha Hb].
  destruct (sort_childs_frame request d) as (_ & _ & Hp & He & Hi & Hall & _).
  split; rewrite ?Hp, ?He, ?Hi, ?Hall; assumption.
Qed.

Lemma memo_sound_ProcessBrowserRequest top request reply d :
  session_ok top d -> memo_sound top d ->
  memo_sound top (snd (ProcessBrowserRequest request reply d)).
Proof.
  intros Hs Hm. unfold ProcessBrowserRequest.
  set (path := DecomposePath (RBrowserRequest.path request) true d).
  destruct (resolve_request path d) as [r1 d1] eqn:E1.
  assert (H1 : r1 <> Ok true -> memo_sound top d1)
    by (apply (resolve_request_stop top path d r1 d1 Hm E1)).
  destruct r1 as [[|]|e]; try (apply H1; discriminate).
  destruct (resolve_request_true top path d d1 Hs Hm E1) as (Hp & He & Hm1 & _).
  destruct (list_childs d1) as [r2 d2] eqn:E2.
  assert (H2 : r2 <> Ok true -> d2 = d1).
  { intros Hr. revert E2. unfold list_childs.
    destruct (fLastItems d1); [|intros H; injection H as <- <-; congruence].
    destruct (fLastElement d1) as [last|]; [|intros H; injection H as <- <-; reflexivity].
    destruct (GetChildsIter last); [|intros H; injection H as <- <-; reflexivity].
    destruct (childs_loop _ _ _ _ _). intros H; injection H as <- <-. congruence. }
  destruct r2 as [[|]|e]; cbn [snd]; try (rewrite H2 by discriminate; exact Hm1).
  destruct (list_childs_true top d1 d2 Hm1 He E2) as (Hp2 & He2 & Hl2).
  assert (Hm2 : memo_sound top d2).
  { apply memo_sound_of_listing; [|exact Hl2].
    rewrite Hp2, He2. apply Hm1. }
  pose proof (memo_sound_sort_childs top request d2 Hm2) as Hm3.
  destruct (regex_compile _); [destruct (page_loop _ _ _ _ _)|]; exact Hm3.
Qed.

Lemma memo_sound_run_call top c d :
  keeps_tree top c -> session_ok top d -> memo_sound top d ->
  memo_sound top (run_call c d).
Proof.
  intros Hk Hs Hm. destruct c; cbn [run_call];
    try apply memo_sound_reset; try (apply memo_sound_GetSubElement, Hm; fail).
  - apply memo_sound_ProcessBrowserRequest; assumption.
  - unfold ProcessRequest.
    pose proof (memo_sound_ProcessBrowserRequest top request
                  (RBrowserReply.Build (RBrowserRequest.path request) 0%Z 0%Z []) d Hs Hm) as H1.
    destruct (ProcessBrowserRequest _ _ d) as [[[b r]|e] d']; exact H1.
Qed.

Lemma memo_sound_run_calls top cs : forall d,
  Forall (keeps_tree top) cs -> session_ok top d -> memo_sound top d ->
  memo_sound top (run_calls cs d).
Proof.
  induction cs as [|c cs IH]; intros d Hk Hs Hm; [exact Hm|].
  inversion Hk; subst. cbn. apply IH; [assumption | |].
  - apply session_ok_run_call; assumption.
  - apply memo_sound_run_call; assumption.
Qed.

(** Every object of a session is in order: cache, memo and sorted array. *)
Lemma session_invariants top calls :
  Forall (keeps_tree top) calls ->
  let d := run_calls calls (session_start top) in
  session_ok top d /\ memo_sound top d /\ memo_ok d.
Proof.
  intros Hk d. split; [|split].
  - apply session_ok_run_calls; [exact Hk | apply session_ok_start].
  - apply memo_sound_run_calls; [exact Hk | apply session_ok_start | apply memo_sound_reset].
  - apply memo_ok_run_calls, memo_ok_reset.
Qed.


Lemma RBrowserData_ext (d1 d2 : RBrowserData) :
  fTopElement d1 = fTopElement d2 -> fWorkingPath d1 = fWorkingPath d2 ->
  fLastPath d1 = fLastPath d2 -> fLastElement d1 = fLastElement d2 ->
  fLastItems d1 = fLastItems d2 -> fLastAllChilds d1 = fLastAllChilds d2 ->
  fLastSortedItems d1 = fLastSortedItems d2 ->
  fLastSortMethod d1 = fLastSortMethod d2 ->
  fLastSortReverse d1 = fLastSortReverse d2 -> fCache d1 = fCache d2 ->
  d1 = d2.
Proof. destruct d1, d2; cbn; intros; subst; reflexivity. Qed.

Lemma DecomposePath_working strpath rel (d d' : RBrowserData) :
  fWorkingPath d' = fWorkingPath d ->
  DecomposePath strpath rel d' = DecomposePath strpath rel d.
Proof. intros H. unfold DecomposePath. rewrite H. reflexivity. Qed.

(** The three ways out of [resolve_request], by what the path leads to. *)
Lemma resolve_request_outcome top path d :
  session_ok top d -> memo_sound top d ->
  match fst (resolve_request path d) with
  | Ok true => exists e, resolve_cold top path = Ok (Some e)
  | Ok false => resolve_cold top path = Ok None
  | Exc x => resolve_cold top path = Exc x
  end.
Proof.
  intros Hs Hm.
  destruct (resolve_request path d) as [r1 d1] eqn:E1. cbn [fst].
  destruct r1 as [[|]|x].
  - destruct (resolve_request_true top path d d1 Hs Hm E1) as (Hp & [e He] & [Ha _] & _).
    exists e. rewrite <- Hp. apply Ha, He.
  - revert E1. unfold resolve_request. destruct (_ || _); [|discriminate].
    pose proof (GetSubElement_warm top path d Hs) as Hw.
    destruct (GetSubElement path d) as [[[elem|]|e] d0]; try discriminate.
    intros _. symmetry. exact Hw.
  - revert E1. unfold resolve_request. destruct (_ || _); [|discriminate].
    pose proof (GetSubElement_warm top path d Hs) as Hw.
    destruct (GetSubElement path d) as [[[elem|]|e] d0]; try discriminate.
    intros H. injection H as <- _. symmetry. exact Hw.
Qed.

(** The object a successful request leaves: the memo holds the requested
    path, the element it leads to and that element's listing. *)
Lemma prepare_request_true top request d d' :
  session_ok top d -> memo_sound top d ->
  prepare_request request d = (Ok true, d') ->
  let path := DecomposePath (RBrowserRequest.path request) true d in
  fWorkingPath d' = fWorkingPath d /\ fLastPath d' = path /\
  exists e, fLastElement d' = Some e /\
            resolve_cold top path = Ok (Some e) /\
            listing e = Some (fLastItems d', fLastAllChilds d').
Proof.
  intros Hs Hm. unfold prepare_request. cbv zeta.
  set (path := DecomposePath (RBrowserRequest.path request) true d).
  destruct (resolve_request path d) as [[[|]|x] d1] eqn:E1; try discriminate.
  destruct (resolve_request_true top path d d1 Hs Hm E1) as (Hp & He & Hm1 & Hw).
  destruct (list_childs d1) as [[[|]|x] d2] eqn:E2; try discriminate.
  destruct (list_childs_true top d1 d2 Hm1 He E2) as (Hp2 & He2 & e & Hee & Hl).
  destruct (list_childs_frame d1) as (_ & _ & _ & _ & Hw2). rewrite E2 in Hw2.
  cbn [snd] in Hw2.
  destruct (sort_childs_frame request d2) as (_ & _ & Hp3 & He3 & Hi3 & Ha3 & Hw3).
  intros H. injection H as <-.
  rewrite Hw3, Hw2, Hp3, Hp2, He3, Hi3, Ha3.
  split; [exact Hw|]. split; [exact Hp|].
  exists e. split; [exact Hee|]. split; [|exact Hl].
  rewrite <- Hp. apply Hm1. rewrite <- He2. exact Hee.
Qed.

Lemma memo_ok_prepare_request request d :
  memo_ok d -> memo_ok (snd (prepare_request request d)).
Proof.
  intros H.
  pose proof (memo_ok_ProcessBrowserRequest request
                (RBrowserReply.Build "" 0%Z 0%Z []) d H) as H1.
  rewrite ProcessBrowserRequest_prepare in H1.
  destruct (prepare_request request d) as [[[|]|x] d3]; cbn [snd] in *; try exact H1.
  destruct (regex_compile _); [destruct (page_loop _ _ _ _ _)|]; exact H1.
Qed.

(** What the memo holds after the three phases, whatever the tree: the
    requested path, an element, and a snapshot that is empty only when the
    listing of that element is. *)
Lemma prepare_request_memo request d d' :
  prepare_request request d = (Ok true, d') ->
  fWorkingPath d' = fWorkingPath d /\
  fLastPath d' = DecomposePath (RBrowserRequest.path request) true d /\
  exists e, fLastElement d' = Some e /\
            (fLastItems d' = [] -> listing e = Some ([], fLastAllChilds d')).
Proof.
  unfold prepare_request.
  set (path := DecomposePath (RBrowserRequest.path request) true d).
  destruct (resolve_request path d) as [[[|]|x] d1] eqn:E1; try discriminate.
  assert (H1 : fWorkingPath d1 = fWorkingPath d /\ fLastPath d1 = path /\
               exists e, fLastElement d1 = Some e).
  { revert E1. unfold resolve_request.
    destruct (path_eq_dec path (fLastPath d)) as [Heq|Hne];
      destruct (fLastElement d) as [last|] eqn:Elast; cbn [negb orb].
    - intros H. injection H as <-. eauto.
    - pose proof (GetSubElement_frame path d) as Hf.
      destruct (GetSubElement path d) as [[[elem|]|x] d0]; try discriminate.
      cbn [snd] in Hf. intros H. injection H as <-. rewrite Hf. cbn. eauto.
    - pose proof (GetSubElement_frame path d) as Hf.
      destruct (GetSubElement path d) as [[[elem|]|x] d0]; try discriminate.
      cbn [snd] in Hf. intros H. injection H as <-. rewrite Hf. cbn. eauto.
    - pose proof (GetSubElement_frame path d) as Hf.
      destruct (GetSubElement path d) as [[[elem|]|x] d0]; try discriminate.
      cbn [snd] in Hf. intros H. injection H as <-. rewrite Hf. cbn. eauto. }
  destruct H1 as (Hw1 & Hp1 & e & He1).
  destruct (list_childs d1) as [[[|]|x] d2] eqn:E2; try discriminate.
  assert (H2 : fWorkingPath d2 = fWorkingPath d1 /\ fLastPath d2 = fLastPath d1 /\
               fLastElement d2 = Some e /\
               (fLastItems d2 = [] -> listing e = Some ([], fLastAllChilds d2))).
  { revert E2. unfold list_childs.
    destruct (fLastItems d1) as [|item items] eqn:Eitems.
    - rewrite He1. unfold listing.
      destruct (GetChildsIter e) as [iter|]; [|discriminate].
      destruct (childs_loop childs_fuel iter 0 [] true) as [its all].
      intros H. injection H as <-.
      cbn [fWorkingPath fLastPath fLastElement fLastItems fLastAllChilds].
      split; [reflexivity|]. split; [reflexivity|]. split; [reflexivity|].
      intros ->. reflexivity.
    - intros H. injection H as <-.
      split; [reflexivity|]. split; [reflexivity|]. split; [exact He1|].
      rewrite Eitems. discriminate. }
  destruct H2 as (Hw2 & Hp2 & He2 & Hl2).
  destruct (sort_childs_frame request d2) as (_ & _ & Hp3 & He3 & Hi3 & Ha3 & Hw3).
  intros H. injection H as <-.
  rewrite Hw3, Hw2, Hp3, Hp2, He3, Hi3, Ha3.
  split; [exact Hw1|]. split; [exact Hp1|].
  exists e. split; [exact He2 | exact Hl2].
Qed.

(** The snapshot does not depend on the sort settings of the request. *)
Lemma prepare_request_items request request' d d1 d1' :
  RBrowserRequest.path request' = RBrowserRequest.path request ->
  prepare_request request d = (Ok true, d1) ->
  prepare_request request' d = (Ok true, d1') ->
  fLastItems d1' = fLastItems d1.
Proof.
  intros Hpath. unfold prepare_request. rewrite Hpath.
  destruct (resolve_request _ d) as [[[|]|x] d0]; try discriminate.
  destruct (list_childs d0) as [[[|]|x] d2]; try discriminate.
  intros H H'. injection H as <-. injection H' as <-.
  destruct (sort_childs_frame request d2) as (_ & _ & _ & _ & Hi & _).
  destruct (sort_childs_frame request' d2) as (_ & _ & _ & _ & Hi' & _).
  congruence.
Qed.

(** Preparing the same listing again changes nothing. *)
Lemma prepare_request_again request request' d d' :
  memo_ok d ->
  prepare_request request d = (Ok true, d') ->
  RBrowserRequest.path request' = RBrowserRequest.path request ->
  RBrowserRequest.sort request' = RBrowserRequest.sort request ->
  RBrowserRequest.reverse request' = RBrowserRequest.reverse request ->
  prepare_request request' d' = (Ok true, d').
Proof.
  intros Hok Hprep Hpath Hsort Hrev.
  rewrite (prepare_request_ext request request' d') by assumption.
  destruct (prepare_request_memo request d d' Hprep) as (Hw & Hp & e & He & Hl).
  pose proof (memo_ok_prepare_request request d Hok) as Hok'.
  rewrite Hprep in Hok'. cbn [snd] in Hok'. destruct Hok' as [Hlen Hsorted].
  assert (Hmeth : fLastSortMethod d' = RBrowserRequest.sort request /\
                  fLastSortReverse d' = RBrowserRequest.reverse request).
  { revert Hprep. unfold prepare_request.
    destruct (resolve_request _ d) as [[[|]|x] d1]; try discriminate.
    destruct (list_childs d1) as [[[|]|x] d2]; try discriminate.
    intros H. injection H as <-. apply sort_childs_method. }
  destruct Hmeth as [Hmeth Hreverse].
  unfold prepare_request.
  rewrite (DecomposePath_working _ true d d' Hw).
  assert (Hres : resolve_request (DecomposePath (RBrowserRequest.path request) true d) d'
                 = (Ok true, d')).
  { unfold resolve_request. rewrite Hp, He.
    destruct (path_eq_dec _ _) as [_|Hne]; [reflexivity | contradiction]. }
  rewrite Hres.
  assert (Hlist : exists d2, list_childs d' = (Ok true, d2) /\
            fTopElement d2 = fTopElement d' /\ fWorkingPath d2 = fWorkingPath d' /\
            fLastPath d2 = fLastPath d' /\ fLastElement d2 = fLastElement d' /\
            fLastItems d2 = fLastItems d' /\ fLastAllChilds d2 = fLastAllChilds d' /\
            fLastSortReverse d2 = fLastSortReverse d' /\ fCache d2 = fCache d' /\
            (length (fLastSortedItems d2) = length (fLastItems d2) ->
             fLastSortMethod d2 = RBrowserRequest.sort request ->
             fLastSortedItems d2 = fLastSortedItems d')).
  { unfold list_childs. destruct (fLastItems d') as [|item items] eqn:Eitems.
    - rewrite He. specialize (Hl eq_refl). unfold listing in Hl.
      destruct (GetChildsIter e) as [iter|]; [|discriminate].
      assert (Hloop : childs_loop childs_fuel iter 0 [] true = ([], fLastAllChilds d'))
        by congruence.
      rewrite Hloop. eexists. split; [reflexivity|].
      cbn [fTopElement fWorkingPath fLastPath fLastElement fLastItems fLastAllChilds
           fLastSortedItems fLastSortMethod fLastSortReverse fCache].
      split; [reflexivity|]. split; [reflexivity|]. split; [reflexivity|].
      split; [reflexivity|]. split; [reflexivity|]. split; [reflexivity|].
      split; [reflexivity|]. split; [reflexivity|].
      intros _ _. rewrite Hsorted. symmetry. apply sorted_items_nil.
    - exists d'. split; [reflexivity|]. rewrite Eitems.
      split; [reflexivity|]. split; [reflexivity|]. split; [reflexivity|].
      split; [reflexivity|]. split; [reflexivity|]. split; [reflexivity|].
      split; [reflexivity|]. split; [reflexivity|]. intros _ _; reflexivity. }
  destruct Hlist as (d2 & -> & Ht & Hw2 & Hp2 & He2 & Hi2 & Ha2 & Hr2 & Hc2 & Hs2).
  f_equal.
  destruct (sort_childs_frame request d2) as (Ht3 & Hc3 & Hp3 & He3 & Hi3 & Ha3 & Hw3).
  destruct (sort_childs_method request d2) as [Hm3 Hr3].
  apply RBrowserData_ext; try congruence.
  unfold sort_childs.
  destruct (Nat.eqb_spec (length (fLastSortedItems d2)) (length (fLastItems d2))) as [Hsz|Hsz];
    cbn [negb orb];
    [|cbn [fLastSortedItems]; rewrite Hi2, Hsorted, Hmeth, Hreverse; reflexivity].
  destruct (String.eqb_spec (fLastSortMethod d2) (RBrowserRequest.sort request)) as [Hmm|Hmm];
    cbn [negb orb];
    [|cbn [fLastSortedItems]; rewrite Hi2, Hsorted, Hmeth, Hreverse; reflexivity].
  destruct (Bool.eqb (fLastSortReverse d2) (RBrowserRequest.reverse request));
    cbn [negb orb];
    [|cbn [fLastSortedItems]; rewrite Hi2, Hsorted, Hmeth, Hreverse; reflexivity].
  apply Hs2; assumption.
Qed.


(** What the three phases before the regex return, read off the tree. *)
Lemma prepare_request_outcome top request d :
  session_ok top d -> memo_sound top d ->
  fst (prepare_request request d) =
    match resolve_cold top (DecomposePath (RBrowserRequest.path request) true d) with
    | Exc x => Exc x
    | Ok None => Ok false
    | Ok (Some e) =>
        match GetChildsIter e with
        | None => Ok false
        | Some _ => Ok true
        end
    end.
Proof.
  intros Hs Hm. unfold prepare_request.
  set (path := DecomposePath (RBrowserRequest.path request) true d).
  pose proof (resolve_request_outcome top path d Hs Hm) as Hout.
  destruct (resolve_request path d) as [[[|]|x] d1] eqn:E1; cbn [fst] in Hout.
  - destruct (resolve_request_true top path d d1 Hs Hm E1) as (Hp & [e1 He1] & Hm1 & _).
    assert (Hcold : resolve_cold top path = Ok (Some e1)).
    { rewrite <- Hp. apply Hm1, He1. }
    rewrite Hcold.
    unfold list_childs.
    destruct (fLastItems d1) as [|item items] eqn:Eitems.
    + rewrite He1. destruct (GetChildsIter e1) as [iter|]; [|reflexivity].
      destruct (childs_loop childs_fuel iter 0 [] true). reflexivity.
    + destruct Hm1 as [_ Hb]. destruct Hb as (e' & He' & Hl).
      { rewrite Eitems. discriminate. }
      assert (e' = e1) by congruence. subst e'.
      unfold listing in Hl. destruct (GetChildsIter e1); [reflexivity | discriminate].
  - rewrite Hout. reflexivity.
  - rewrite Hout. reflexivity.
Qed.

(** X15: the outcome of a request, read off the tree. On an object whose
    top element has not been replaced, whatever calls came before:
    the null error when the walk has no top element to start from; false,
    with the reply untouched, when the path leads nowhere or to an element
    without iterator; otherwise the regex error for a malformed regex and
    true for any other. *)
Theorem request_outcome top calls request reply :
  Forall (keeps_tree top) calls ->
  let d := run_calls calls (session_start top) in
  let out := fst (ProcessBrowserRequest request reply d) in
  match resolve_cold top (DecomposePath (RBrowserRequest.path request) true d) with
  | Exc x => out = Exc x
  | Ok None => out = Ok (false, reply)
  | Ok (Some e) =>
      match GetChildsIter e with
      | None => out = Ok (false, reply)
      | Some _ =>
          match regex_compile (RBrowserRequest.regex request) with
          | None => out = Exc regex_error
          | Some _ => exists r, out = Ok (true, r)
          end
      end
  end.
Proof.
  intros Hcalls d out. subst out.
  destruct (session_invariants top calls Hcalls) as (Hs & Hm & _). fold d in Hs, Hm.
  pose proof (prepare_request_outcome top request d Hs Hm) as Hout.
  rewrite ProcessBrowserRequest_prepare.
  destruct (prepare_request request d) as [[[|]|x] d3]; cbn [fst] in Hout;
    destruct (resolve_cold top _) as [[e|]|y]; try discriminate;
    try (destruct (GetChildsIter e); try discriminate); try reflexivity.
  - destruct (regex_compile _); [|reflexivity].
    destruct (page_loop _ _ _ _ _). eexists. reflexivity.
  - injection Hout as ->. reflexivity.
Qed.

(** X16: on an object whose top element has not been replaced, whatever
    calls came before: when the path leads nowhere in the tree or to an
    element that cannot be listed, [ProcessRequest] answers with the reply
    it started from: the path of the request, first and nchilds 0, no
    nodes. *)
Theorem ProcessRequest_nothing_to_list top calls request :
  Forall (keeps_tree top) calls ->
  let d := run_calls calls (session_start top) in
  let path := DecomposePath (RBrowserRequest.path request) true d in
  resolve_cold top path = Ok None \/
  (exists e, resolve_cold top path = Ok (Some e) /\ GetChildsIter e = None) ->
  fst (ProcessRequest request d) =
    Ok (RBrowserReply.Build (RBrowserRequest.path request) 0%Z 0%Z []).
Proof.
  intros Hcalls d path Hnone. subst path.
  destruct (session_invariants top calls Hcalls) as (Hs & Hm & _). fold d in Hs, Hm.
  pose proof (prepare_request_outcome top request d Hs Hm) as Hout.
  assert (Hfalse : fst (prepare_request request d) = Ok false).
  { rewrite Hout. destruct Hnone as [-> | (e & -> & ->)]; reflexivity. }
  unfold ProcessRequest. rewrite ProcessBrowserRequest_prepare.
  destruct (prepare_request request d) as [[[|]|x] d3]; cbn [fst] in Hfalse;
    try discriminate.
  reflexivity.
Qed.

(** X17: on an object whose top element has not been replaced, whatever
    calls came before, the reply of a successful request is a function of
    the tree and the request alone: the total and the page are those of the
    listing of the element the path leads to, ordered and filtered as the
    request says.  The memo and the cache left by earlier calls only save
    work. *)
Theorem reply_from_tree top calls request reply r d' :
  Forall (keeps_tree top) calls ->
  let d := run_calls calls (session_start top) in
  ProcessBrowserRequest request reply d = (Ok (true, r), d') ->
  exists e iter expr,
    resolve_cold top (DecomposePath (RBrowserRequest.path request) true d)
      = Ok (Some e) /\
    GetChildsIter e = Some iter /\
    regex_compile (RBrowserRequest.regex request) = Some expr /\
    let visible :=
      filter (item_passes request expr)
        (sorted_items (RBrowserRequest.sort request) (RBrowserRequest.reverse request)
           (fst (childs_loop childs_fuel iter 0%Z [] true))) in
    RBrowserReply.nchilds r = Z.of_nat (length visible) /\
    RBrowserReply.nodes r = RBrowserReply.nodes reply ++ window_from request 0 visible.
Proof.
  intros Hcalls d Hrun.
  destruct (session_invariants top calls Hcalls) as (Hs & Hm & Hok).
  fold d in Hs, Hm, Hok.
  destruct (ProcessBrowserRequest_true request reply d r d' Hok Hrun)
    as (expr & Hexpr & _ & _ & _ & Hn & Hnodes).
  pose proof (ProcessBrowserRequest_sorted request reply d r d' Hok Hrun) as Hsorted.
  assert (Hprep : prepare_request request d = (Ok true, d')).
  { rewrite ProcessBrowserRequest_prepare in Hrun.
    destruct (prepare_request request d) as [[[|]|x] d3]; try discriminate.
    destruct (regex_compile _); [|discriminate].
    destruct (page_loop _ _ _ _ _). injection Hrun as _ ->. reflexivity. }
  destruct (prepare_request_true top request d d' Hs Hm Hprep)
    as (_ & _ & e & _ & Hcold & Hl).
  unfold listing in Hl. destruct (GetChildsIter e) as [iter|] eqn:Eiter; [|discriminate].
  assert (Hloop : childs_loop childs_fuel iter 0 [] true
                  = (fLastItems d', fLastAllChilds d')) by congruence.
  exists e, iter, expr. split; [exact Hcold|]. split; [exact Eiter|].
  split; [exact Hexpr|]. cbv zeta. rewrite Hloop. cbn [fst].
  rewrite <- Hsorted. split; assumption.
Qed.

(** X18: on any object reached from a new one, by whatever calls (the top
    element may have been replaced any number of times), a request that
    succeeded, sent again, gives the same reply and leaves the object as it
    is; so does, for the object, any request for the same path, sort method
    and direction, whatever its window, hidden flag and regex. *)
Theorem repeated_request_unchanged (calls : list call) request reply r d' :
  let d := run_calls calls RBrowserData_new in
  ProcessBrowserRequest request reply d = (Ok (true, r), d') ->
  ProcessBrowserRequest request reply d' = (Ok (true, r), d') /\
  forall request' reply',
    RBrowserRequest.path request' = RBrowserRequest.path request ->
    RBrowserRequest.sort request' = RBrowserRequest.sort request ->
    RBrowserRequest.reverse request' = RBrowserRequest.reverse request ->
    snd (ProcessBrowserRequest request' reply' d') = d'.
Proof.
  intros d Hrun.
  pose proof (memo_ok_run_calls calls RBrowserData_new memo_ok_new) as Hok.
  fold d in Hok.
  rewrite ProcessBrowserRequest_prepare in Hrun.
  destruct (prepare_request request d) as [[[|]|x] d3] eqn:Hprep; try discriminate.
  destruct (regex_compile (RBrowserRequest.regex request)) as [expr|] eqn:Hexpr;
    [|discriminate].
  destruct (page_loop request expr (fLastSortedItems d3) 0 (RBrowserReply.nodes reply))
    as [id nodes] eqn:Hpage.
  injection Hrun as <- <-.
  split.
  - rewrite ProcessBrowserRequest_prepare.
    rewrite (prepare_request_again request request d d3 Hok Hprep)
      by reflexivity.
    rewrite Hexpr, Hpage. reflexivity.
  - intros request' reply' Hp Hso Hr.
    rewrite ProcessBrowserRequest_prepare.
    rewrite (prepare_request_again request request' d d3 Hok Hprep)
      by assumption.
    destruct (regex_compile (RBrowserRequest.regex request')) as [expr'|];
      [|reflexivity].
    destruct (page_loop request' expr' (fLastSortedItems d3) 0
                (RBrowserReply.nodes reply')).
    reflexivity.
Qed.

End Memo.

(** * Pages *)

Section Pages.
Context {B : Browsable.Interface} {L : StdLibrary RItem}.

Lemma firstn_plus {A} (n m : nat) (l : list A) :
  firstn (n + m) l = firstn n l ++ firstn m (skipn n l).
Proof.
  revert l. induction n as [|n IH]; intros l; [reflexivity|].
  destruct l as [|x l]; cbn [Nat.add firstn skipn app].
  - rewrite firstn_nil. reflexivity.
  - rewrite IH. reflexivity.
Qed.

(** The window as a slice of the counted items, when [first + number] does
    not leave the range of int. *)
Lemma window_from_slice request visible : forall id,
  (RBrowserRequest.first request + RBrowserRequest.number request <= INT_MAX)%Z ->
  (INT_MIN <= RBrowserRequest.first request + RBrowserRequest.number request)%Z ->
  window_from request id visible =
    let skipped := skipn (Z.to_nat (RBrowserRequest.first request - id)) visible in
    if (RBrowserRequest.number request =? 0)%Z then skipped
    else firstn (Z.to_nat (RBrowserRequest.first request + RBrowserRequest.number request
                           - Z.max id (RBrowserRequest.first request))) skipped.
Proof.
  intros id Hmax Hmin. revert id. cbv zeta.
  assert (Hadd : int_add (RBrowserRequest.first request) (RBrowserRequest.number request)
                 = (RBrowserRequest.first request + RBrowserRequest.number request)%Z).
  { unfold int_add. apply int_wrap_small; lia. }
  induction visible as [|x rest IH]; intros id.
  - cbn [window_from]. rewrite skipn_nil, firstn_nil.
    destruct (_ =? 0)%Z; reflexivity.
  - cbn [window_from]. rewrite IH. unfold in_window. rewrite Hadd.
    set (lo := RBrowserRequest.first request) in *.
    set (num := RBrowserRequest.number request) in *.
    destruct (lo <=? id)%Z eqn:Elo; cbn [andb].
    + replace (Z.to_nat (lo - id)) with 0 by lia.
      replace (Z.to_nat (lo - (id + 1))) with 0 by lia. cbn [skipn].
      destruct (num =? 0)%Z eqn:Enum; cbn [orb]; [reflexivity|].
      destruct (id <? lo + num)%Z eqn:Ehi.
      * replace (Z.to_nat (lo + num - Z.max id lo))
          with (S (Z.to_nat (lo + num - Z.max (id + 1) lo))) by lia.
        reflexivity.
      * replace (Z.to_nat (lo + num - Z.max id lo)) with 0 by lia.
        replace (Z.to_nat (lo + num - Z.max (id + 1) lo)) with 0 by lia.
        reflexivity.
    + replace (Z.to_nat (lo - id)) with (S (Z.to_nat (lo - (id + 1)))) by lia.
      cbn [skipn app].
      replace (Z.max (id + 1) lo) with (Z.max id lo) by lia. reflexivity.
Qed.

Lemma item_passes_ext request request' expr item :
  RBrowserRequest.hidden request' = RBrowserRequest.hidden request ->
  RBrowserRequest.regex request' = RBrowserRequest.regex request ->
  item_passes request' expr item = item_passes request expr item.
Proof. intros Hh Hr. unfold item_passes. rewrite Hh, Hr. reflexivity. Qed.

Lemma filter_item_passes_ext request request' expr items :
  RBrowserRequest.hidden request' = RBrowserRequest.hidden request ->
  RBrowserRequest.regex request' = RBrowserRequest.regex request ->
  filter (item_passes request' expr) items = filter (item_passes request expr) items.
Proof.
  intros Hh Hr. apply filter_ext. intros item. apply item_passes_ext; assumption.
Qed.

(** A successful run, taken apart. *)
Lemma ProcessBrowserRequest_true_inv request reply d r d' :
  ProcessBrowserRequest request reply d = (Ok (true, r), d') ->
  prepare_request request d = (Ok true, d') /\
  exists expr, regex_compile (RBrowserRequest.regex request) = Some expr.
Proof.
  rewrite ProcessBrowserRequest_prepare.
  destruct (prepare_request request d) as [[[|]|x] d3]; try discriminate.
  destruct (regex_compile (RBrowserRequest.regex request)) as [expr|]; [|discriminate].
  destruct (page_loop request expr (fLastSortedItems d3) 0 (RBrowserReply.nodes reply)).
  intros H. injection H as _ ->. split; [reflexivity | eauto].
Qed.

(** A run that will succeed, put together. *)
Lemma ProcessBrowserRequest_true_intro request reply d d' expr :
  prepare_request request d = (Ok true, d') ->
  regex_compile (RBrowserRequest.regex request) = Some expr ->
  exists r, ProcessBrowserRequest request reply d = (Ok (true, r), d').
Proof.
  intros Hprep Hexpr. rewrite ProcessBrowserRequest_prepare, Hprep, Hexpr.
  destruct (page_loop request expr (fLastSortedItems d') 0 (RBrowserReply.nodes reply)).
  eexists. reflexivity.
Qed.


Lemma ProcessBrowserRequest_slice request reply d r d' expr :
  memo_ok d ->
  (0 <= RBrowserRequest.first request)%Z ->
  (0 <= RBrowserRequest.number request)%Z ->
  (RBrowserRequest.first request + RBrowserRequest.number request <= INT_MAX)%Z ->
  ProcessBrowserRequest request reply d = (Ok (true, r), d') ->
  regex_compile (RBrowserRequest.regex request) = Some expr ->
  RBrowserReply.nodes r =
    RBrowserReply.nodes reply
    ++ slice request (filter (item_passes request expr) (fLastSortedItems d')).
Proof.
  intros Hok Hfirst Hnum Hmax Hrun Hexpr.
  destruct (ProcessBrowserRequest_true request reply d r d' Hok Hrun)
    as (expr' & Hexpr' & _ & _ & _ & _ & Hnodes).
  assert (expr' = expr) by congruence. subst expr'.
  rewrite Hnodes, window_from_slice by (unfold INT_MIN; lia).
  unfold slice. cbv zeta. rewrite Z.sub_0_r.
  replace (RBrowserRequest.first request + RBrowserRequest.number request
           - Z.max 0 (RBrowserRequest.first request))%Z
    with (RBrowserRequest.number request) by lia.
  reflexivity.
Qed.

(** X19: with offset and limit not negative and their sum within int, the
    page is the counted items (the sorted array without the items the hidden
    flag and the regex drop) from position [first] on, cut after [number]
    items unless [number] is 0. *)
Theorem page_is_slice request reply d r d' :
  memo_ok d ->
  (0 <= RBrowserRequest.first request)%Z ->
  (0 <= RBrowserRequest.number request)%Z ->
  (RBrowserRequest.first request + RBrowserRequest.number request <= INT_MAX)%Z ->
  ProcessBrowserRequest request reply d = (Ok (true, r), d') ->
  exists expr,
    regex_compile (RBrowserRequest.regex request) = Some expr /\
    let visible := filter (item_passes request expr) (fLastSortedItems d') in
    let rest := skipn (Z.to_nat (RBrowserRequest.first request)) visible in
    RBrowserReply.nodes r =
      RBrowserReply.nodes reply
      ++ (if (RBrowserRequest.number request =? 0)%Z then rest
          else firstn (Z.to_nat (RBrowserRequest.number request)) rest).
Proof.
  intros Hok Hfirst Hnum Hmax Hrun.
  destruct (ProcessBrowserRequest_true_inv _ _ _ _ _ Hrun) as [_ [expr Hexpr]].
  exists expr. split; [exact Hexpr|].
  exact (ProcessBrowserRequest_slice request reply d r d' expr
           Hok Hfirst Hnum Hmax Hrun Hexpr).
Qed.

(** X20: within the range of int, paging loses and repeats nothing. On any
    object reached from a new one, for an offset [a >= 0] and limits
    [n > 0], [m > 0] with [a + n + m <= 2147483647]: the page of [n] items
    from offset [a], followed by the page of [m] items from offset [a + n]
    asked next, is the page of [n + m] items from offset [a]; the second
    request leaves the object as the first left it. *)
Theorem consecutive_pages (calls : list call) request reply (a n m : Z) r1 d1 r2 d2 :
  let d := run_calls calls RBrowserData_new in
  (0 <= a)%Z -> (0 < n)%Z -> (0 < m)%Z -> (a + n + m <= INT_MAX)%Z ->
  ProcessBrowserRequest (with_window a n request) reply d = (Ok (true, r1), d1) ->
  ProcessBrowserRequest (with_window (a + n) m request) reply d1 = (Ok (true, r2), d2) ->
  d2 = d1 /\
  exists page1 page2 r,
    RBrowserReply.nodes r1 = RBrowserReply.nodes reply ++ page1 /\
    RBrowserReply.nodes r2 = RBrowserReply.nodes reply ++ page2 /\
    ProcessBrowserRequest (with_window a (n + m) request) reply d = (Ok (true, r), d1) /\
    RBrowserReply.nodes r = RBrowserReply.nodes reply ++ page1 ++ page2.
Proof.
  intros d Ha Hn Hm Hmax Hrun1 Hrun2.
  pose proof (memo_ok_run_calls calls RBrowserData_new memo_ok_new) as Hok.
  fold d in Hok.
  destruct (ProcessBrowserRequest_true_inv _ _ _ _ _ Hrun1) as [Hprep1 [expr Hexpr]].
  destruct (ProcessBrowserRequest_true_inv _ _ _ _ _ Hrun2) as [Hprep2 _].
  assert (Hagain : prepare_request (with_window (a + n) m request) d1 = (Ok true, d1)).
  { apply (prepare_request_again (with_window a n request) _ d d1 Hok Hprep1);
      reflexivity. }
  assert (Hd2 : d2 = d1) by congruence. subst d2.
  split; [reflexivity|].
  assert (Hprep : prepare_request (with_window a (n + m) request) d = (Ok true, d1)).
  { rewrite <- Hprep1. apply prepare_request_ext; reflexivity. }
  destruct (ProcessBrowserRequest_true_intro (with_window a (n + m) request) reply d d1 expr
              Hprep Hexpr) as [r Hrun].
  pose proof (memo_ok_ProcessBrowserRequest (with_window a n request) reply d Hok) as Hok1.
  rewrite Hrun1 in Hok1. cbn [snd] in Hok1.
  pose proof (ProcessBrowserRequest_slice (with_window a n request) reply d r1 d1 expr
                Hok ltac:(unfold with_window; cbn [RBrowserRequest.first RBrowserRequest.number]; lia) ltac:(unfold with_window; cbn [RBrowserRequest.first RBrowserRequest.number]; lia) ltac:(unfold with_window; cbn [RBrowserRequest.first RBrowserRequest.number]; lia) Hrun1 Hexpr) as H1.
  pose proof (ProcessBrowserRequest_slice (with_window (a + n) m request) reply d1 r2 d1 expr
                Hok1 ltac:(unfold with_window; cbn [RBrowserRequest.first RBrowserRequest.number]; lia) ltac:(unfold with_window; cbn [RBrowserRequest.first RBrowserRequest.number]; lia) ltac:(unfold with_window; cbn [RBrowserRequest.first RBrowserRequest.number]; lia) Hrun2 Hexpr) as H2.
  pose proof (ProcessBrowserRequest_slice (with_window a (n + m) request) reply d r d1 expr
                Hok ltac:(unfold with_window; cbn [RBrowserRequest.first RBrowserRequest.number]; lia) ltac:(unfold with_window; cbn [RBrowserRequest.first RBrowserRequest.number]; lia) ltac:(unfold with_window; cbn [RBrowserRequest.first RBrowserRequest.number]; lia) Hrun Hexpr) as H12.
  rewrite (filter_item_passes_ext request) in H1, H2, H12 by reflexivity.
  set (visible := filter (item_passes request expr) (fLastSortedItems d1)) in *.
  unfold slice in H1, H2, H12. cbn [with_window RBrowserRequest.first RBrowserRequest.number]
    in H1, H2, H12.
  replace (n =? 0)%Z with false in H1 by lia.
  replace (m =? 0)%Z with false in H2 by lia.
  replace (n + m =? 0)%Z with false in H12 by lia.
  eexists. eexists. exists r.
  split; [exact H1|]. split; [exact H2|]. split; [exact Hrun|].
  rewrite H12. f_equal.
  rewrite Z2Nat.inj_add, firstn_plus by lia. f_equal.
  rewrite skipn_skipn. f_equal. f_equal. lia.
Qed.

(** X21: on any object reached from a new one, by whatever calls, two
    successful requests for the whole listing that differ in the reverse
    flag alone count the same number of items, and the page of one is the
    page of the other in reverse order. *)
Theorem reverse_flag_reverses (calls : list call) request request' reply r d1 r' d1' :
  let d := run_calls calls RBrowserData_new in
  RBrowserRequest.path request' = RBrowserRequest.path request ->
  RBrowserRequest.sort request' = RBrowserRequest.sort request ->
  RBrowserRequest.hidden request' = RBrowserRequest.hidden request ->
  RBrowserRequest.regex request' = RBrowserRequest.regex request ->
  RBrowserRequest.reverse request' = negb (RBrowserRequest.reverse request) ->
  RBrowserRequest.first request = 0%Z -> RBrowserRequest.number request = 0%Z ->
  RBrowserRequest.first request' = 0%Z -> RBrowserRequest.number request' = 0%Z ->
  ProcessBrowserRequest request reply d = (Ok (true, r), d1) ->
  ProcessBrowserRequest request' reply d = (Ok (true, r'), d1') ->
  RBrowserReply.nchilds r' = RBrowserReply.nchilds r /\
  exists page,
    RBrowserReply.nodes r = RBrowserReply.nodes reply ++ page /\
    RBrowserReply.nodes r' = RBrowserReply.nodes reply ++ rev page.
Proof.
  intros d Hpath Hsort Hhidden Hregex Hrev Hf Hn Hf' Hn' Hrun Hrun'.
  pose proof (memo_ok_run_calls calls RBrowserData_new memo_ok_new) as Hok.
  fold d in Hok.
  destruct (ProcessBrowserRequest_true request reply d r d1 Hok Hrun)
    as (expr & Hexpr & _ & _ & _ & Hcount & Hnodes).
  destruct (ProcessBrowserRequest_true request' reply d r' d1' Hok Hrun')
    as (expr' & Hexpr' & _ & _ & _ & Hcount' & Hnodes').
  assert (expr' = expr) by congruence. subst expr'.
  pose proof (ProcessBrowserRequest_sorted request reply d r d1 Hok Hrun) as Hsorted.
  pose proof (ProcessBrowserRequest_sorted request' reply d r' d1' Hok Hrun') as Hsorted'.
  destruct (ProcessBrowserRequest_true_inv _ _ _ _ _ Hrun) as [Hprep _].
  destruct (ProcessBrowserRequest_true_inv _ _ _ _ _ Hrun') as [Hprep' _].
  pose proof (prepare_request_items request request' d d1 d1' Hpath Hprep Hprep')
    as Hitems.
  rewrite Hitems, Hsort, Hrev in Hsorted'.
  assert (Hflip : fLastSortedItems d1' = rev (fLastSortedItems d1)).
  { rewrite Hsorted, Hsorted'. unfold sorted_items.
    destruct (RBrowserRequest.reverse request); cbn [negb];
      [rewrite rev_involutive|]; reflexivity. }
  rewrite (filter_item_passes_ext request request') in Hcount', Hnodes' by assumption.
  rewrite Hflip, filter_rev in Hcount', Hnodes'.
  rewrite window_from_all in Hnodes, Hnodes' by lia.
  split.
  - rewrite Hcount, Hcount', length_rev. reflexivity.
  - eexists. split; [exact Hnodes | exact Hnodes'].
Qed.

End Pages.

(** * The code at work on the tree *)

(** The scenarios of the specification. *)
Example decompose_rooted : DecomposePath "/a/b/" false browser0 = ["a"; "b"].
Proof. reflexivity. Qed.

Example decompose_double_slash : DecomposePath "a//b" false browser0 = ["a"; "b"].
Proof. reflexivity. Qed.

Example decompose_empty_relative :
  DecomposePath "" true (SetWorkingPath ["w"] browser0) = ["w"].
Proof. reflexivity. Qed.

Example end_to_end_scenario :
  let request := mkRequest "" "" false false "" 0 10 in
  names (reply_of request browser0) = ["src"; "a.txt"; "b.txt"] /\
  RBrowserReply.nchilds (reply_of request browser0) = 3%Z.
Proof. vm_compute. split; reflexivity. Qed.

Example regex_scenario :
  let request := mkRequest "" "" false false "a.txt" 0 10 in
  names (reply_of request browser0) = ["src"; "a.txt"] /\
  RBrowserReply.nchilds (reply_of request browser0) = 2%Z.
Proof. vm_compute. split; reflexivity. Qed.

(** ** The theorems at concrete inputs *)

Lemma demo_calls_keep_tree : Forall (keeps_tree top0) demo_calls.
Proof. repeat constructor. Qed.

Lemma GetSubElement_warm_equals_cold_witness :
  let d := run_calls demo_calls (session_start top0) in
  let d1 := snd (GetSubElement ["src"; "inc"; "x.h"] d) in
  fst (GetSubElement ["src"; "x.c"] d1)
    = fst (GetSubElement ["src"; "x.c"] (set_fCache [] d1)).
Proof.
  exact (GetSubElement_warm_equals_cold top0 demo_calls
           ["src"; "inc"; "x.h"] ["src"; "x.c"] demo_calls_keep_tree).
Defined.

Lemma cache_entry_resolves_from_top_witness :
  fst (GetSubElement ["src"; "inc"]
         (set_fCache [] (run_calls demo_calls (session_start top0))))
    = Ok (Some src_inc).
Proof.
  apply (cache_entry_resolves_from_top top0 demo_calls
           ["src"; "inc"] src_inc demo_calls_keep_tree).
  vm_compute. right. left. reflexivity.
Defined.

Lemma children_exactly_repeat (x : Node) (n : nat) (cur : option Node) :
  @children_exactly NodeBrowsable n (cur, repeat x n) = Some (repeat x n).
Proof.
  revert cur. induction n as [|n IH]; intros cur; [reflexivity|].
  simpl. rewrite IH. reflexivity.
Qed.

Lemma list_childs_keeps_10001_children_witness :
  exists d', list_childs crowded_browser = (Ok true, d') /\
             fLastItems d' = crowd /\ Z.of_nat (length crowd) = 10001%Z /\
             fLastAllChilds d' = true.
Proof.
  apply (list_childs_keeps_10001_children crowded_browser crowded (None, crowd) crowd).
  - reflexivity.
  - reflexivity.
  - reflexivity.
  - apply children_exactly_repeat.
Defined.

Lemma unsorted_keeps_input_order_witness :
  let request := unsorted_reversed in
  let d' := after request browser0 in
  exists d1 d2 expr,
    resolve_request (DecomposePath (RBrowserRequest.path request) true browser0) browser0
      = (Ok true, d1) /\
    list_childs d1 = (Ok true, d2) /\
    d' = sort_childs request d2 /\
    regex_compile (RBrowserRequest.regex request) = Some expr /\
    let items := fLastItems d2 in
    let produced := if RBrowserRequest.reverse request then rev items else items in
    order_items (RBrowserRequest.sort request) items = items /\
    fLastItems d' = items /\
    fLastSortedItems d' = produced /\
    RBrowserReply.nodes (reply_of request browser0) =
      RBrowserReply.nodes (reply0 request)
      ++ window_from request 0 (filter (item_passes request expr) produced).
Proof.
  apply (unsorted_keeps_input_order unsorted_reversed (reply0 unsorted_reversed)
           (reply_of unsorted_reversed browser0) browser0
           (after unsorted_reversed browser0)).
  - split; [vm_compute; discriminate | reflexivity].
  - reflexivity.
  - vm_compute. reflexivity.
Defined.

(** C4 as stated fails for [reverse = true]: the four children of the top
    element, listed with sort method ["unsorted"], come out in the exact
    reverse of the order the iterator gave them, in the sorted array and in
    the page. *)
Lemma unsorted_reverse_counterexample :
  let d' := after unsorted_reversed browser0 in
  RBrowserRequest.sort unsorted_reversed = "unsorted" /\
  RBrowserRequest.reverse unsorted_reversed = true /\
  fst (ProcessBrowserRequest unsorted_reversed (reply0 unsorted_reversed) browser0)
    = Ok (true, reply_of unsorted_reversed browser0) /\
  map node_name (fLastItems d') = [".git"; "src"; "a.txt"; "b.txt"] /\
  map node_name (fLastSortedItems d') = ["b.txt"; "a.txt"; "src"; ".git"] /\
  fLastSortedItems d' <> fLastItems d' /\
  names (reply_of unsorted_reversed browser0) = ["b.txt"; "a.txt"; "src"; ".git"].
Proof.
  cbv zeta. repeat split; vm_compute; first [reflexivity | discriminate].
Qed.

Lemma memo_ok_browser0 : memo_ok browser0.
Proof. apply memo_ok_reset. Qed.

Lemma page_length_within_int_witness :
  exists page,
    RBrowserReply.nodes (reply_of second_and_third browser0)
      = RBrowserReply.nodes (reply0 second_and_third) ++ page /\
    Z.of_nat (length page) =
      (if (RBrowserRequest.number second_and_third =? 0)%Z
       then Z.max 0 (RBrowserReply.nchilds (reply_of second_and_third browser0)
                     - RBrowserRequest.first second_and_third)
       else Z.min (RBrowserRequest.number second_and_third)
              (Z.max 0 (RBrowserReply.nchilds (reply_of second_and_third browser0)
                        - RBrowserRequest.first second_and_third)))%Z /\
    forall first' number', exists r',
      ProcessBrowserRequest (with_window first' number' second_and_third)
        (reply0 second_and_third) browser0
        = (Ok (true, r'), after second_and_third browser0) /\
      RBrowserReply.nchilds r'
        = RBrowserReply.nchilds (reply_of second_and_third browser0).
Proof.
  apply (page_length_within_int second_and_third (reply0 second_and_third)
           (reply_of second_and_third browser0) browser0
           (after second_and_third browser0)).
  - exact memo_ok_browser0.
  - vm_compute. discriminate.
  - vm_compute. discriminate.
  - vm_compute. discriminate.
  - vm_compute. reflexivity.
Defined.

(** C2 as stated fails where [first + number] leaves [int]: with
    [first = 1] and [number = 2147483647] the sum wraps to the least [int],
    no index is below it and the page is empty, where the claim has
    [min(number, max(0, 4 - 1)) = 3] items. *)
Lemma page_length_overflow_counterexample :
  let request := mkRequest "" "" false true "" 1 2147483647 in
  let r := reply_of request browser0 in
  ProcessBrowserRequest request (reply0 request) browser0
    = (Ok (true, r), after request browser0) /\
  (0 <= RBrowserRequest.first request)%Z /\
  (0 < RBrowserRequest.number request)%Z /\
  RBrowserReply.nchilds r = 4%Z /\
  Z.min (RBrowserRequest.number request)
    (Z.max 0 (RBrowserReply.nchilds r - RBrowserRequest.first request)) = 3%Z /\
  length (RBrowserReply.nodes r) = 0.
Proof.
  cbv zeta. repeat split; vm_compute; first [reflexivity | discriminate].
Qed.

Lemma negative_number_empty_page_witness :
  RBrowserReply.nodes (reply_of negative_number browser0)
    = RBrowserReply.nodes (reply0 negative_number).
Proof.
  apply (negative_number_empty_page negative_number (reply0 negative_number)
           (reply_of negative_number browser0) browser0
           (after negative_number browser0)).
  - exact memo_ok_browser0.
  - vm_compute. reflexivity.
  - vm_compute. discriminate.
  - vm_compute. discriminate.
  - vm_compute. reflexivity.
Defined.

(** C5 as stated fails for a negative [first]: with [first = -1] and
    [number = 0] every counted item is in the page, and with [number = 2]
    the item of index 0 is. *)
Lemma negative_first_counterexample :
  let all_of := mkRequest "" "" false false "" (-1) 0 in
  let some_of := mkRequest "" "" false false "" (-1) 2 in
  (RBrowserRequest.first all_of < 0)%Z /\
  fst (ProcessBrowserRequest all_of (reply0 all_of) browser0)
    = Ok (true, reply_of all_of browser0) /\
  names (reply_of all_of browser0) = ["src"; "a.txt"; "b.txt"] /\
  fst (ProcessBrowserRequest some_of (reply0 some_of) browser0)
    = Ok (true, reply_of some_of browser0) /\
  names (reply_of some_of browser0) = ["src"].
Proof.
  cbv zeta. repeat split; vm_compute; first [reflexivity | discriminate].
Qed.



Lemma malformed_regex_after_update_witness :
  (forall r d',
     ProcessBrowserRequest malformed (reply0 malformed) browser0 <> (Ok (true, r), d')) /\
  (forall regex' reply' r' d',
     ProcessBrowserRequest (with_regex regex' malformed) reply' browser0
       = (Ok (true, r'), d') ->
     ProcessBrowserRequest malformed (reply0 malformed) browser0 = (Exc regex_error, d') /\
     ProcessRequest malformed browser0 = (Exc regex_error, d')).
Proof.
  apply (malformed_regex_after_update malformed (reply0 malformed) browser0).
  reflexivity.
Defined.

(** C7 as stated fails in its second half: on a fresh object the request
    with the malformed regex throws, and the object it leaves has two new
    cache entries and a memo for the requested path, none of which was there
    before. *)
Lemma malformed_regex_counterexample :
  let d' := after malformed browser0 in
  regex_compile (RBrowserRequest.regex malformed) = None /\
  fst (ProcessBrowserRequest malformed (reply0 malformed) browser0) = Exc regex_error /\
  fCache browser0 = [] /\
  map fst (fCache d') = [["src"]; ["src"; "inc"]] /\
  fLastPath browser0 = [] /\
  fLastPath d' = ["src"; "inc"] /\
  fLastItems browser0 = [] /\
  map node_name (fLastItems d') = ["x.h"].
Proof.
  cbv zeta. repeat split; vm_compute; first [reflexivity | discriminate].
Qed.

Lemma hidden_excluded_folder_exempt_witness :
  exists expr page,
    regex_compile (RBrowserRequest.regex visible_text) = Some expr /\
    RBrowserReply.nodes (reply_of visible_text browser0)
      = RBrowserReply.nodes (reply0 visible_text) ++ page /\
    RBrowserReply.nchilds (reply_of visible_text browser0) =
      Z.of_nat (length (filter (item_passes visible_text expr)
                          (fLastSortedItems (after visible_text browser0)))) /\
    (forall item, In item page ->
       In item (fLastSortedItems (after visible_text browser0)) /\
       item_passes visible_text expr item = true) /\
    ((RBrowserRequest.first visible_text <= 0)%Z ->
     RBrowserRequest.number visible_text = 0%Z ->
     page = filter (item_passes visible_text expr)
              (fLastSortedItems (after visible_text browser0))) /\
    (forall item, RBrowserRequest.hidden visible_text = false ->
       IsHidden item = true -> item_passes visible_text expr item = false) /\
    (forall item, IsFolder item = true ->
       item_passes visible_text expr item =
         (RBrowserRequest.hidden visible_text || negb (IsHidden item))).
Proof.
  apply (hidden_excluded_folder_exempt visible_text (reply0 visible_text)
           (reply_of visible_text browser0) browser0 (after visible_text browser0)).
  - exact memo_ok_browser0.
  - vm_compute. reflexivity.
Defined.

(** The same through a whole request: the listing of the element with 10001
    children holds all of them and keeps the completeness flag. *)
Example crowded_request_complete :
  let d := SetTopElement crowded_top RBrowserData_new in
  let request := mkRequest "" "unsorted" false true "" 0 1 in
  (fLastItems (after request d), fLastAllChilds (after request d)) = (crowd, true).
Proof.
  cbv zeta.
  set (d := SetTopElement crowded_top RBrowserData_new).
  set (request := mkRequest "" "unsorted" false true "" 0 1).
  destruct (ProcessBrowserRequest_resolved request (reply0 request) d crowded d
              (or_intror eq_refl) eq_refl) as (_ & _ & H).
  cbn [GetChildsIter NodeBrowsable crowded node_childs option_map] in H.
  unfold after. rewrite H.
  apply (@childs_loop_exact NodeBrowsable (Z.to_nat 10001) _ crowd 0%Z [] childs_fuel).
  - apply children_exactly_repeat.
  - lia.
  - lia.
  - unfold childs_fuel. lia.
Qed.

(** The scan of [GetSubElement] relies on the key order of the map: were the
    entry of [src/inc] met before the entry of [src], the walk to [src/x.c]
    would start below [src/inc] after one component. *)
Remark best_entry_needs_key_order :
  best_entry ["src"; "x.c"] top0 [(["src"; "inc"], src_inc); (["src"], src)]
    = (1, Some src_inc) /\
  best_entry ["src"; "x.c"] top0 [(["src"], src); (["src"; "inc"], src_inc)]
    = (1, Some src).
Proof. split; reflexivity. Qed.

(** ** Further properties at concrete inputs *)

(** A run that returns true, with its reply and the object it leaves. *)
Lemma run_true (request : RBrowserRequest.t) (d : @RBrowserData NodeBrowsable) :
  match fst (ProcessBrowserRequest request (reply0 request) d) with
  | Ok (true, _) => True
  | _ => False
  end ->
  ProcessBrowserRequest request (reply0 request) d
    = (Ok (true, reply_of request d), after request d).
Proof.
  unfold reply_of, after.
  destruct (ProcessBrowserRequest request (reply0 request) d) as [[[[|] r]|x] d'];
    cbn [fst snd]; intros H; [reflexivity | destruct H | destruct H].
Qed.

(** A lookup with what it returns and the object it leaves. *)
Lemma lookup_found (path : RElementPath_t) (d : @RBrowserData NodeBrowsable) (e : Node) :
  fst (GetSubElement path d) = Ok (Some e) ->
  GetSubElement path d = (Ok (Some e), snd (GetSubElement path d)).
Proof. destruct (GetSubElement path d) as [r d']. cbn [fst snd]. intros ->. reflexivity. Qed.

Lemma DecomposePath_concat_witness :
  DecomposePath (String.concat "/" ["src"; "inc"]) true
      (SetWorkingDirectory "work" browser0)
    = fWorkingPath (SetWorkingDirectory "work" browser0) ++ ["src"; "inc"] /\
  DecomposePath (String "/" (String.concat "/" ["src"; "inc"])) true
      (SetWorkingDirectory "work" browser0)
    = fWorkingPath (SetWorkingDirectory "work" browser0) ++ ["src"; "inc"].
Proof.
  apply (DecomposePath_concat ["src"; "inc"] true (SetWorkingDirectory "work" browser0)).
  repeat constructor; discriminate.
Defined.

Lemma GetSubElement_returns_walk_witness :
  fst (GetSubElement ["src"; "inc"; "x.h"] (run_calls demo_calls (session_start top0)))
    = resolve_cold top0 ["src"; "inc"; "x.h"].
Proof.
  exact (GetSubElement_returns_walk top0 demo_calls ["src"; "inc"; "x.h"]
           demo_calls_keep_tree).
Defined.

Lemma GetSubElement_repeat_unchanged_witness :
  let d1 := snd (GetSubElement ["src"; "inc"] (run_calls replacing_calls RBrowserData_new)) in
  GetSubElement ["src"; "inc"] d1 = (Ok (Some src_inc), d1).
Proof.
  cbv zeta.
  apply (GetSubElement_repeat_unchanged replacing_calls ["src"; "inc"] src_inc).
  apply lookup_found. reflexivity.
Defined.

Lemma GetSubElement_cache_after_witness :
  let d := run_calls demo_calls (session_start top0) in
  let d1 := snd (GetSubElement ["src"; "x.c"; "zzz"] d) in
  In (["src"; "x.c"], leaf "x.c") (fCache d1) <->
  (In (["src"; "x.c"], leaf "x.c") (fCache d) \/
   exists n, 0 < n <= length ["src"; "x.c"; "zzz"] /\
             ["src"; "x.c"] = firstn n ["src"; "x.c"; "zzz"] /\
             reaches top0 ["src"; "x.c"] (leaf "x.c")).
Proof.
  exact (GetSubElement_cache_after top0 demo_calls ["src"; "x.c"; "zzz"]
           demo_calls_keep_tree ["src"; "x.c"] (leaf "x.c")).
Defined.


Lemma SetTopElement_keeps_cached_paths_witness :
  let d := run_calls demo_calls (session_start top0) in
  GetSubElement ["src"; "inc"] (SetTopElement None d)
    = (Ok (Some src_inc), SetTopElement None d).
Proof.
  cbv zeta.
  apply (SetTopElement_keeps_cached_paths top0 None demo_calls ["src"; "inc"] src_inc
           demo_calls_keep_tree).
  vm_compute. right. left. reflexivity.
Defined.

Lemma listing_is_iterator_prefix_witness :
  let d' := snd (ProcessBrowserRequest list_src (reply0 list_src) browser0) in
  children_first (length (fLastItems d')) src_iter = Some (fLastItems d') /\
  (fLastAllChilds d' = true ->
   children_exactly (length (fLastItems d')) src_iter = Some (fLastItems d')) /\
  (Z.of_nat (length (fLastItems d')) <= 10002)%Z.
Proof.
  apply (listing_is_iterator_prefix list_src (reply0 list_src) browser0
           (snd (GetSubElement ["src"] browser0)) src src_iter).
  - right. reflexivity.
  - apply lookup_found. reflexivity.
  - reflexivity.
Defined.

Lemma default_order_folders_first_witness :
  let r := reply_of list_src browser0 in
  let d' := after list_src browser0 in
  fLastSortedItems d' =
    filter IsFolder (fLastItems d')
    ++ filter (fun item => negb (IsFolder item)) (fLastItems d') /\
  exists folders files,
    RBrowserReply.nodes r = RBrowserReply.nodes (reply0 list_src) ++ folders ++ files /\
    Forall (fun item => IsFolder item = true) folders /\
    Forall (fun item => IsFolder item = false) files.
Proof.
  cbv zeta.
  apply (default_order_folders_first list_src (reply0 list_src)
           (reply_of list_src browser0) browser0 (after list_src browser0)
           memo_ok_browser0 eq_refl eq_refl).
  apply run_true. exact I.
Defined.

Lemma reply_within_listing_witness :
  let r := reply_of visible_text browser0 in
  let d' := after visible_text browser0 in
  RBrowserReply.path r = RBrowserReply.path (reply0 visible_text) /\
  RBrowserReply.first r = RBrowserRequest.first visible_text /\
  (0 <= RBrowserReply.nchilds r <= Z.of_nat (length (fLastItems d')))%Z /\
  (Z.of_nat (length (fLastItems d')) <= 10002)%Z /\
  exists page,
    RBrowserReply.nodes r = RBrowserReply.nodes (reply0 visible_text) ++ page /\
    (Z.of_nat (length page) <= RBrowserReply.nchilds r)%Z /\
    forall item, In item page -> In item (fLastItems d').
Proof.
  cbv zeta.
  apply (reply_within_listing visible_text (reply0 visible_text)
           (reply_of visible_text browser0) browser0 (after visible_text browser0)
           memo_ok_browser0).
  apply run_true. exact I.
Defined.

Lemma request_outcome_witness :
  exists r,
    fst (ProcessBrowserRequest list_src (reply0 list_src)
           (run_calls demo_calls (session_start top0))) = Ok (true, r).
Proof.
  exact (request_outcome top0 demo_calls list_src (reply0 list_src)
           demo_calls_keep_tree).
Defined.

Lemma ProcessRequest_nothing_to_list_witness :
  fst (ProcessRequest missing_path (run_calls demo_calls (session_start top0)))
    = Ok (reply0 missing_path).
Proof.
  apply (ProcessRequest_nothing_to_list top0 demo_calls missing_path
           demo_calls_keep_tree).
  left. vm_compute. reflexivity.
Defined.

Lemma reply_from_tree_witness :
  let d := run_calls demo_calls (session_start top0) in
  let r := reply_of visible_text d in
  exists e iter expr,
    resolve_cold top0 (DecomposePath (RBrowserRequest.path visible_text) true d)
      = Ok (Some e) /\
    GetChildsIter e = Some iter /\
    regex_compile (RBrowserRequest.regex visible_text) = Some expr /\
    let visible :=
      filter (item_passes visible_text expr)
        (sorted_items (RBrowserRequest.sort visible_text)
           (RBrowserRequest.reverse visible_text)
           (fst (childs_loop childs_fuel iter 0%Z [] true))) in
    RBrowserReply.nchilds r = Z.of_nat (length visible) /\
    RBrowserReply.nodes r
      = RBrowserReply.nodes (reply0 visible_text) ++ window_from visible_text 0 visible.
Proof.
  cbv zeta.
  apply (reply_from_tree top0 demo_calls visible_text (reply0 visible_text)
           (reply_of visible_text (run_calls demo_calls (session_start top0)))
           (after visible_text (run_calls demo_calls (session_start top0)))
           demo_calls_keep_tree).
  apply run_true. exact I.
Defined.

Lemma repeated_request_unchanged_witness :
  let d := run_calls replacing_calls RBrowserData_new in
  let r := reply_of list_src d in
  let d' := after list_src d in
  ProcessBrowserRequest list_src (reply0 list_src) d' = (Ok (true, r), d') /\
  forall request' reply',
    RBrowserRequest.path request' = RBrowserRequest.path list_src ->
    RBrowserRequest.sort request' = RBrowserRequest.sort list_src ->
    RBrowserRequest.reverse request' = RBrowserRequest.reverse list_src ->
    snd (ProcessBrowserRequest request' reply' d') = d'.
Proof.
  cbv zeta.
  apply (repeated_request_unchanged replacing_calls list_src (reply0 list_src)
           (reply_of list_src (run_calls replacing_calls RBrowserData_new))
           (after list_src (run_calls replacing_calls RBrowserData_new))).
  apply run_true. exact I.
Defined.

Lemma page_is_slice_witness :
  let r := reply_of second_and_third browser0 in
  let d' := after second_and_third browser0 in
  exists expr,
    regex_compile (RBrowserRequest.regex second_and_third) = Some expr /\
    let visible := filter (item_passes second_and_third expr) (fLastSortedItems d') in
    let rest := skipn (Z.to_nat (RBrowserRequest.first second_and_third)) visible in
    RBrowserReply.nodes r =
      RBrowserReply.nodes (reply0 second_and_third)
      ++ (if (RBrowserRequest.number second_and_third =? 0)%Z then rest
          else firstn (Z.to_nat (RBrowserRequest.number second_and_third)) rest).
Proof.
  apply (page_is_slice second_and_third (reply0 second_and_third) browser0
           (reply_of second_and_third browser0) (after second_and_third browser0)
           memo_ok_browser0).
  - discriminate.
  - discriminate.
  - discriminate.
  - apply run_true. exact I.
Defined.

Lemma consecutive_pages_witness :
  let d := run_calls demo_calls RBrowserData_new in
  let reply := reply0 second_and_third in
  let d1 := after (with_window 0 1 second_and_third) d in
  after (with_window (0 + 1) 2 second_and_third) d1 = d1 /\
  exists page1 page2 r,
    RBrowserReply.nodes (reply_of (with_window 0 1 second_and_third) d)
      = RBrowserReply.nodes reply ++ page1 /\
    RBrowserReply.nodes (reply_of (with_window (0 + 1) 2 second_and_third) d1)
      = RBrowserReply.nodes reply ++ page2 /\
    ProcessBrowserRequest (with_window 0 (1 + 2) second_and_third) reply d
      = (Ok (true, r), d1) /\
    RBrowserReply.nodes r = RBrowserReply.nodes reply ++ page1 ++ page2.
Proof.
  cbv zeta.
  apply (consecutive_pages demo_calls second_and_third (reply0 second_and_third)
           0 1 2
           (reply_of (with_window 0 1 second_and_third)
              (run_calls demo_calls RBrowserData_new))
           (after (with_window 0 1 second_and_third)
              (run_calls demo_calls RBrowserData_new))
           (reply_of (with_window (0 + 1) 2 second_and_third)
              (after (with_window 0 1 second_and_third)
                 (run_calls demo_calls RBrowserData_new)))
           (after (with_window (0 + 1) 2 second_and_third)
              (after (with_window 0 1 second_and_third)
                 (run_calls demo_calls RBrowserData_new)))).
  - discriminate.
  - reflexivity.
  - reflexivity.
  - discriminate.
  - apply (run_true (with_window 0 1 second_and_third)). exact I.
  - apply (run_true (with_window (0 + 1) 2 second_and_third)). exact I.
Defined.

Lemma reverse_flag_reverses_witness :
  let d := run_calls demo_calls RBrowserData_new in
  RBrowserReply.nchilds (reply_of by_name_reversed d)
    = RBrowserReply.nchilds (reply_of by_name d) /\
  exists page,
    RBrowserReply.nodes (reply_of by_name d)
      = RBrowserReply.nodes (reply0 by_name) ++ page /\
    RBrowserReply.nodes (reply_of by_name_reversed d)
      = RBrowserReply.nodes (reply0 by_name) ++ rev page.
Proof.
  apply (reverse_flag_reverses demo_calls by_name by_name_reversed (reply0 by_name)
           (reply_of by_name (run_calls demo_calls RBrowserData_new))
           (after by_name (run_calls demo_calls RBrowserData_new))
           (reply_of by_name_reversed (run_calls demo_calls RBrowserData_new))
           (after by_name_reversed (run_calls demo_calls RBrowserData_new))).
  - reflexivity.
  - reflexivity.
  - reflexivity.
  - reflexivity.
  - reflexivity.
  - reflexivity.
  - reflexivity.
  - reflexivity.
  - reflexivity.
  - apply run_true. exact I.
  - apply (run_true by_name_reversed). exact I.
Defined.
